(** * RealMotionEngine: the Kalman filter engine of [src/wasm/cpp/kalman.cpp]

    A shallow embedding of the three layers of [kalman.cpp]: the dense
    row-major [Matrix] class, the [KalmanFilter] class (identity transition
    and observation models) and the global handle registry behind the C API
    [kf_create] / [kf_update] / [kf_destroy].

    Conventions of the embedding.
    - [double] is a scalar type [D] with the six operations the code uses
      ([0.0], [1.0], [+], [-], [*], [/]), class [Scalar]; the embedding
      itself assumes no law about them.  Two instances are given: IEEE-754
      binary64 (the kernel's primitive floats, the arithmetic the compiled
      code performs) and the exact rationals [Qc].  Four sets of laws are
      used in the proofs: [NeutralLaws] (0 and 1 are neutral on the regular
      values) and [SignLaws] (sums of values that are not negative), which
      binary64 and every ordered field satisfy, [ExactScalar] (the field
      laws) and [OrderedExactScalar] (an ordered field).  Rounding,
      infinities and NaN put binary64 outside the last two.
    - [int] is [Z].  The one place where the program increments an [int]
      without bound, [g_next_handle++], has its 32-bit two's-complement
      wrap-around written out ([wrap_int]); that is what the wasm32 target
      computes.  Element counts [rows * cols] and element offsets
      [row * cols_ + col] are taken exactly: [Matrix_new] and the functions
      built on it describe the calls whose element counts are in the range
      [0 .. INT_MAX], the calls that return.  What the constructor does
      outside that range is written out in the module [Fallible]: there a
      call that constructs a matrix returns [None] when the [int] product
      overflows or is negative.  Memory is not modelled: a request for a
      count in the range is taken to be served.
    - [std::vector<double>] is a [list D].  The source never checks an
      index; every index the algorithms compute on well-formed operands is in
      range.  Outside the range the source is undefined; here a read past
      the end yields [0.0], a write past the end does nothing, and a negative
      offset counts as 0.
    - [for (int i = 0; i < n; i++)] is a left fold over [seqZ 0 n].
    - the registry [std::unordered_map<int, KalmanFilter*>] is a
      [gmap Z KalmanFilter]: every pointer stored in it comes from its own
      [new], so the filters are kept by value.
    - a call that returns a pointer into the filter (the output buffer of
      [update]) returns the contents of that buffer at the time of the
      call. *)

From Stdlib Require Import ZArith Lia Floats QArith Qcanon Field.
From stdpp Require Import base option list list_numbers gmap.

Local Open Scope Z_scope.

(** ** Scalars: the operations [kalman.cpp] performs on [double] *)

Class Scalar (D : Type) : Type := {
  s0 : D;                      (* the literal 0.0 *)
  s1 : D;                      (* the literal 1.0 *)
  sadd : D → D → D;
  ssub : D → D → D;
  smul : D → D → D;
  sdiv : D → D → D
}.

Declare Scope scalar_scope.
Delimit Scope scalar_scope with S.
Infix "+" := sadd : scalar_scope.
Infix "-" := ssub : scalar_scope.
Infix "*" := smul : scalar_scope.
Infix "/" := sdiv : scalar_scope.

(** Exact arithmetic: the field laws, for the operations of [Scalar].
    Negation is [0.0 - a] and the reciprocal is [1.0 / a]. *)
Class ExactScalar (D : Type) {SD : Scalar D} : Prop := {
  sadd_0_l : ∀ a : D, (s0 + a)%S = a;
  sadd_comm : ∀ a b : D, (a + b)%S = (b + a)%S;
  sadd_assoc : ∀ a b c : D, (a + (b + c))%S = ((a + b) + c)%S;
  smul_1_l : ∀ a : D, (s1 * a)%S = a;
  smul_comm : ∀ a b : D, (a * b)%S = (b * a)%S;
  smul_assoc : ∀ a b c : D, (a * (b * c))%S = ((a * b) * c)%S;
  smul_add_distr_r : ∀ a b c : D, ((a + b) * c)%S = (a * c + b * c)%S;
  ssub_def : ∀ a b : D, (a - b)%S = (a + (s0 - b))%S;
  sadd_opp_r : ∀ a : D, (a + (s0 - a))%S = s0;
  s1_neq_s0 : @s1 D SD ≠ s0;
  sdiv_def : ∀ a b : D, (a / b)%S = (a * (s1 / b))%S;
  sinv_l : ∀ a : D, a ≠ s0 → ((s1 / a) * a)%S = s1
}.

(** Exact arithmetic with the order of the reals: an ordered field. *)
Class OrderedExactScalar (D : Type) {SD : Scalar D} : Type := {
  ordered_exact :: ExactScalar D;
  slt : D → D → Prop;
  slt_irrefl : ∀ a : D, ¬ slt a a;
  slt_trans : ∀ a b c : D, slt a b → slt b c → slt a c;
  slt_total : ∀ a b : D, slt a b ∨ a = b ∨ slt b a;
  slt_add_mono : ∀ a b c : D, slt a b → slt (a + c)%S (b + c)%S;
  slt_mul_pos : ∀ a b : D, slt s0 a → slt s0 b → slt s0 (a * b)%S
}.

Definition sle {D : Type} {SD : Scalar D} {OD : OrderedExactScalar D} (a b : D) : Prop :=
  slt a b ∨ a = b.

Infix "<" := slt : scalar_scope.
Infix "<=" := sle : scalar_scope.

(** What the recursion needs of [0.0] and [1.0]: on the [regular] values
    they are neutral for [+] and [*], and a product with [0.0] is a zero.
    In exact arithmetic every value is regular; in binary64 the regular
    values are the finite ones other than the negative zero, and both
    signed zeros count as zeros. *)
Class NeutralLaws (D : Type) {SD : Scalar D} : Type := {
  regular : D → Prop;
  is_zero : D → Prop;
  smul_1_l_regular : ∀ a : D, regular a → (s1 * a)%S = a;
  smul_1_r_regular : ∀ a : D, regular a → (a * s1)%S = a;
  smul_0_l_regular : ∀ a : D, regular a → is_zero (s0 * a)%S;
  smul_0_r_regular : ∀ a : D, regular a → is_zero (a * s0)%S;
  sadd_0_l_regular : ∀ a : D, regular a → (s0 + a)%S = a;
  sadd_zero_r_regular : ∀ a z : D, regular a → is_zero z → (a + z)%S = a;
  sadd_0_zero : ∀ z : D, is_zero z → (s0 + z)%S = s0;
  regular_s0 : regular s0;
  ssub_0_0 : (s0 - s0)%S = s0 :> D
}.

(** What the positivity of the innovation covariance rests on: [1.0] is
    regular and not negative, a sum of values that are not negative is not
    negative, a sum of such a value and a positive one is positive, and a
    positive value is not a zero.  Binary64 satisfies these laws with its
    own comparisons [0.0 <= a] and [0.0 < a] (NaN is neither), and so does
    every ordered field. *)
Class SignLaws (D : Type) {SD : Scalar D} {NL : NeutralLaws D} : Type := {
  is_nonneg : D → Prop;
  is_positive : D → Prop;
  regular_s1 : regular s1;
  is_nonneg_s1 : is_nonneg s1;
  is_nonneg_add : ∀ a b : D, is_nonneg a → is_nonneg b → is_nonneg (a + b)%S;
  is_positive_add : ∀ a b : D, is_nonneg a → is_positive b → is_positive (a + b)%S;
  is_zero_s0 : is_zero s0;
  is_positive_not_zero : ∀ a : D, is_positive a → ¬ is_zero a
}.

(** [for (int i = 0; i < n; i++) s = body(i, s);] *)
Definition for_loop {S : Type} (n : Z) (body : Z → S → S) (s : S) : S :=
  foldl (λ acc i, body i acc) s (seqZ 0 n).

(** 32-bit two's-complement wrap-around of an [int] result. *)
Definition INT_MAX : Z := 2147483647.
Definition INT_MIN : Z := -2147483648.
Definition wrap_int (z : Z) : Z := (z + 2147483648) `mod` 4294967296 - 2147483648.

Section Engine.
Context {D : Type} {SD : Scalar D}.

(** ** Matrix (kalman.cpp, class Matrix) *)

Record Matrix : Type := mkMatrix {
  rows_ : Z;
  cols_ : Z;
  data_ : list D
}.

(** [Matrix(int rows, int cols)]: [data_(rows * cols, 0.0)], the object the
    constructor builds when it returns; [Fallible.Matrix_new] below says
    when it does. *)
Definition Matrix_new (rows cols : Z) : Matrix :=
  mkMatrix rows cols (replicate (Z.to_nat (rows * cols)) s0).

(** [double operator()(int row, int col) const]: [data_[row * cols_ + col]]. *)
Definition Matrix_at (m : Matrix) (row col : Z) : D :=
  default s0 (data_ m !! Z.to_nat (row * cols_ m + col)).

(** [double& operator()(int row, int col)] used as the target of an
    assignment: [m(row, col) = v]. *)
Definition Matrix_set (m : Matrix) (row col : Z) (v : D) : Matrix :=
  mkMatrix (rows_ m) (cols_ m) (<[Z.to_nat (row * cols_ m + col) := v]> (data_ m)).

Definition Matrix_rows (m : Matrix) : Z := rows_ m.
Definition Matrix_cols (m : Matrix) : Z := cols_ m.

(** The innermost loop of [operator*]:
    [double sum = 0.0; for k < cols_: sum += self(i, k) * other(k, j);] *)
Definition dot_row_col (a b : Matrix) (i j : Z) : D :=
  for_loop (cols_ a)
    (λ k sum, (sum + Matrix_at a i k * Matrix_at b k j)%S) s0.

(** [Matrix operator*(const Matrix& other) const]. *)
Definition Matrix_mul (a b : Matrix) : Matrix :=
  if bool_decide (cols_ a ≠ rows_ b) then Matrix_new 0 0
  else
    for_loop (rows_ a) (λ i result,
      for_loop (cols_ b) (λ j result,
        Matrix_set result i j (dot_row_col a b i j)) result)
      (Matrix_new (rows_ a) (cols_ b)).

(** [Matrix operator+(const Matrix& other) const]. *)
Definition Matrix_add (a b : Matrix) : Matrix :=
  if bool_decide (rows_ a ≠ rows_ b ∨ cols_ a ≠ cols_ b) then Matrix_new 0 0
  else
    for_loop (rows_ a) (λ i result,
      for_loop (cols_ a) (λ j result,
        Matrix_set result i j (Matrix_at a i j + Matrix_at b i j)%S) result)
      (Matrix_new (rows_ a) (cols_ a)).

(** [Matrix operator-(const Matrix& other) const]. *)
Definition Matrix_sub (a b : Matrix) : Matrix :=
  if bool_decide (rows_ a ≠ rows_ b ∨ cols_ a ≠ cols_ b) then Matrix_new 0 0
  else
    for_loop (rows_ a) (λ i result,
      for_loop (cols_ a) (λ j result,
        Matrix_set result i j (Matrix_at a i j - Matrix_at b i j)%S) result)
      (Matrix_new (rows_ a) (cols_ a)).

(** [Matrix transpose() const]. *)
Definition Matrix_transpose (a : Matrix) : Matrix :=
  for_loop (rows_ a) (λ i result,
    for_loop (cols_ a) (λ j result,
      Matrix_set result j i (Matrix_at a i j)) result)
    (Matrix_new (cols_ a) (rows_ a)).

(** [for (int i = 0; i < n; i++) m(i, i) = v;], the loop shared by
    [Matrix::identity] and the three set-up loops of the constructor. *)
Definition fill_diagonal (n : Z) (v : D) (m : Matrix) : Matrix :=
  for_loop n (λ i m, Matrix_set m i i v) m.

(** [static Matrix identity(int size)]. *)
Definition Matrix_identity (size : Z) : Matrix :=
  fill_diagonal size s1 (Matrix_new size size).

(** ** KalmanFilter (kalman.cpp, class KalmanFilter) *)

Record KalmanFilter : Type := mkKalmanFilter {
  dimensions_ : Z;
  state_ : Matrix;               (* x *)
  process_noise_ : Matrix;       (* Q *)
  measurement_noise_ : Matrix;   (* R *)
  state_covariance_ : Matrix;    (* P *)
  transition_matrix_ : Matrix;   (* F *)
  measurement_matrix_ : Matrix;  (* H *)
  estimated_state_ : list D      (* output buffer *)
}.

(** [KalmanFilter(int dimensions, double process_noise, double measurement_noise)]:
    the member initialisers build zero matrices, the body overwrites F and
    H with the identity and fills the diagonals of Q, R and P. *)
Definition KalmanFilter_new (dimensions : Z) (process_noise measurement_noise : D)
    : KalmanFilter :=
  mkKalmanFilter
    dimensions
    (Matrix_new dimensions 1)
    (fill_diagonal dimensions process_noise (Matrix_new dimensions dimensions))
    (fill_diagonal dimensions measurement_noise (Matrix_new dimensions dimensions))
    (fill_diagonal dimensions s1 (Matrix_new dimensions dimensions))
    (Matrix_identity dimensions)
    (Matrix_identity dimensions)
    (replicate (Z.to_nat dimensions) s0).

(** The locals of [update], in the order the source computes them. *)

(** [Matrix z(dimensions_, 1); for i: z(i, 0) = measurements[i];] *)
Definition measurement_column (f : KalmanFilter) (measurements : list D) : Matrix :=
  for_loop (dimensions_ f)
    (λ i z, Matrix_set z i 0 (default s0 (measurements !! Z.to_nat i)))
    (Matrix_new (dimensions_ f) 1).

(** [predicted_state = transition_matrix_ * state_] *)
Definition predicted_state (f : KalmanFilter) : Matrix :=
  Matrix_mul (transition_matrix_ f) (state_ f).

(** [predicted_covariance =
      transition_matrix_ * state_covariance_ * transition_transpose + process_noise_] *)
Definition predicted_covariance (f : KalmanFilter) : Matrix :=
  let transition_transpose := Matrix_transpose (transition_matrix_ f) in
  Matrix_add
    (Matrix_mul (Matrix_mul (transition_matrix_ f) (state_covariance_ f))
                transition_transpose)
    (process_noise_ f).

(** [innovation_covariance = predicted_covariance + measurement_noise_] *)
Definition innovation_covariance (f : KalmanFilter) : Matrix :=
  Matrix_add (predicted_covariance f) (measurement_noise_ f).

(** [Matrix inv(n, n); for i: inv(i, i) = 1.0 / s(i, i);] *)
Definition diagonal_inverse (n : Z) (s : Matrix) : Matrix :=
  for_loop n (λ i inv, Matrix_set inv i i (s1 / Matrix_at s i i)%S)
    (Matrix_new n n).

Definition inv_innovation_covariance (f : KalmanFilter) : Matrix :=
  diagonal_inverse (dimensions_ f) (innovation_covariance f).

(** [kalman_gain = predicted_covariance * inv_innovation_covariance] *)
Definition kalman_gain (f : KalmanFilter) : Matrix :=
  Matrix_mul (predicted_covariance f) (inv_innovation_covariance f).

(** [for i: estimated_state_[i] = state_(i, 0);] *)
Definition copy_out (n : Z) (x : Matrix) (buf : list D) : list D :=
  for_loop n (λ i buf, <[Z.to_nat i := Matrix_at x i 0]> buf) buf.

(** [const double* update(const double* measurements, int count)].
    The result is the filter after the call together with what the returned
    pointer designates: [None] for [nullptr], otherwise the contents of the
    output buffer [estimated_state_] (the pointer aliases that buffer). *)
Definition KalmanFilter_update (f : KalmanFilter) (measurements : list D) (count : Z)
    : KalmanFilter * option (list D) :=
  if bool_decide (count ≠ dimensions_ f) then (f, None)
  else
    let z := measurement_column f measurements in
    let predicted_state := predicted_state f in
    let predicted_covariance := predicted_covariance f in
    let kalman_gain := kalman_gain f in
    let innovation := Matrix_sub z predicted_state in
    let state' := Matrix_add predicted_state (Matrix_mul kalman_gain innovation) in
    let identity := Matrix_identity (dimensions_ f) in
    let temp := Matrix_sub identity kalman_gain in
    let state_covariance' := Matrix_mul temp predicted_covariance in
    let estimated_state' := copy_out (dimensions_ f) state' (estimated_state_ f) in
    (mkKalmanFilter (dimensions_ f) state' (process_noise_ f) (measurement_noise_ f)
       state_covariance' (transition_matrix_ f) (measurement_matrix_ f)
       estimated_state',
     Some estimated_state').

(** ** The registry and the C API *)

(** [static std::unordered_map<int, KalmanFilter*> g_filters;
    static int g_next_handle = 1;] *)
Record Registry : Type := mkRegistry {
  g_filters : gmap Z KalmanFilter;
  g_next_handle : Z
}.

Definition registry_init : Registry := mkRegistry ∅ 1.

(** [int kf_create(int dimensions, double process_noise, double measurement_noise)],
    for the calls in which [new KalmanFilter(...)] returns;
    [Fallible.kf_create] below says when it does. *)
Definition kf_create (reg : Registry) (dimensions : Z)
    (process_noise measurement_noise : D) : Registry * Z :=
  if bool_decide (dimensions ≤ 0) then (reg, 0)
  else
    let filter := KalmanFilter_new dimensions process_noise measurement_noise in
    let handle := g_next_handle reg in
    (mkRegistry (<[handle := filter]> (g_filters reg)) (wrap_int (handle + 1)),
     handle).

(** [double* kf_update(int handle, const double* measurements, int count)] *)
Definition kf_update (reg : Registry) (handle : Z) (measurements : list D) (count : Z)
    : Registry * option (list D) :=
  match g_filters reg !! handle with
  | None => (reg, None)
  | Some filter =>
      let '(filter', out) := KalmanFilter_update filter measurements count in
      (mkRegistry (<[handle := filter']> (g_filters reg)) (g_next_handle reg), out)
  end.

(** [void kf_destroy(int handle)] *)
Definition kf_destroy (reg : Registry) (handle : Z) : Registry :=
  match g_filters reg !! handle with
  | None => reg
  | Some _ => mkRegistry (delete handle (g_filters reg)) (g_next_handle reg)
  end.

End Engine.

Arguments Matrix D : clear implicits.
Arguments KalmanFilter D : clear implicits.
Arguments Registry D : clear implicits.

(** ** The calls that construct a matrix, with the constructor's failure

    [Matrix(int rows, int cols)] computes [rows * cols] as an [int] and
    hands it, converted to [size_t], to the constructor of
    [std::vector<double>].  A product outside the range of [int] is
    undefined (the wasm32 target wraps it: for [46341 * 46341] the wrapped
    count is negative); a negative count, once converted to [size_t],
    exceeds [max_size()], and the constructor of the vector throws
    [std::length_error].  Nothing in [kalman.cpp] catches an exception.

    In this module a call returns [None] when it does not hand a value back
    to its caller: an exception leaves it, or its behaviour is undefined.
    When a call returns [Some], the value is the one the function of the
    same name above computes. *)
Module Fallible.
Section FallibleEngine.
Context {D : Type} {SD : Scalar D}.

(** [Matrix(int rows, int cols)]: [data_(rows * cols, 0.0)], the count an
    [int]. *)
Definition Matrix_new (rows cols : Z) : option (Matrix D) :=
  if bool_decide (0 ≤ rows * cols ≤ INT_MAX) then Some (Matrix_new rows cols)
  else None.

(** [Matrix operator*(const Matrix& other) const]. *)
Definition Matrix_mul (a b : Matrix D) : option (Matrix D) :=
  if bool_decide (cols_ a ≠ rows_ b) then Matrix_new 0 0
  else
    result ← Matrix_new (rows_ a) (cols_ b);
    Some (for_loop (rows_ a) (λ i result,
            for_loop (cols_ b) (λ j result,
              Matrix_set result i j (dot_row_col a b i j)) result) result).

(** [Matrix operator+(const Matrix& other) const]. *)
Definition Matrix_add (a b : Matrix D) : option (Matrix D) :=
  if bool_decide (rows_ a ≠ rows_ b ∨ cols_ a ≠ cols_ b) then Matrix_new 0 0
  else
    result ← Matrix_new (rows_ a) (cols_ a);
    Some (for_loop (rows_ a) (λ i result,
            for_loop (cols_ a) (λ j result,
              Matrix_set result i j (Matrix_at a i j + Matrix_at b i j)%S) result)
            result).

(** [Matrix operator-(const Matrix& other) const]. *)
Definition Matrix_sub (a b : Matrix D) : option (Matrix D) :=
  if bool_decide (rows_ a ≠ rows_ b ∨ cols_ a ≠ cols_ b) then Matrix_new 0 0
  else
    result ← Matrix_new (rows_ a) (cols_ a);
    Some (for_loop (rows_ a) (λ i result,
            for_loop (cols_ a) (λ j result,
              Matrix_set result i j (Matrix_at a i j - Matrix_at b i j)%S) result)
            result).

(** [static Matrix identity(int size)]. *)
Definition Matrix_identity (size : Z) : option (Matrix D) :=
  result ← Matrix_new size size;
  Some (fill_diagonal size s1 result).

(** [KalmanFilter(int dimensions, double process_noise, double measurement_noise)]:
    the members are initialised in the order of their declaration, then
    the body runs.  [estimated_state_(dimensions)] converts [dimensions]
    itself to [size_t]. *)
Definition KalmanFilter_new (dimensions : Z) (process_noise measurement_noise : D)
    : option (KalmanFilter D) :=
  state ← Matrix_new dimensions 1;
  process_noise_0 ← Matrix_new dimensions dimensions;
  measurement_noise_0 ← Matrix_new dimensions dimensions;
  state_covariance_0 ← Matrix_new dimensions dimensions;
  _ ← Matrix_new dimensions dimensions;
  _ ← Matrix_new dimensions dimensions;
  estimated_state ←
    (if bool_decide (0 ≤ dimensions) then Some (replicate (Z.to_nat dimensions) s0)
     else None);
  transition_matrix ← Matrix_identity dimensions;
  measurement_matrix ← Matrix_identity dimensions;
  Some (mkKalmanFilter
          dimensions
          state
          (fill_diagonal dimensions process_noise process_noise_0)
          (fill_diagonal dimensions measurement_noise measurement_noise_0)
          (fill_diagonal dimensions s1 state_covariance_0)
          transition_matrix
          measurement_matrix
          estimated_state).

(** [int kf_create(int dimensions, double process_noise, double measurement_noise)]:
    [new KalmanFilter(...)] comes before the handle is taken from the
    counter, so that a constructor that throws leaves the registry as it
    was. *)
Definition kf_create (reg : Registry D) (dimensions : Z)
    (process_noise measurement_noise : D) : option (Registry D * Z) :=
  if bool_decide (dimensions ≤ 0) then Some (reg, 0)
  else
    filter ← KalmanFilter_new dimensions process_noise measurement_noise;
    let handle := g_next_handle reg in
    Some (mkRegistry (<[handle := filter]> (g_filters reg)) (wrap_int (handle + 1)),
          handle).

End FallibleEngine.
End Fallible.

(** ** The two scalar structures *)

(** IEEE-754 binary64, the arithmetic the compiled code performs. *)
#[export] Instance float_scalar : Scalar float := {|
  s0 := 0%float; s1 := 1%float;
  sadd := PrimFloat.add; ssub := PrimFloat.sub;
  smul := PrimFloat.mul; sdiv := PrimFloat.div
|}.

(** Exact rational arithmetic. *)
#[export] Instance Qc_scalar : Scalar Qc := {|
  s0 := 0%Qc; s1 := 1%Qc;
  sadd := Qcplus; ssub := Qcminus;
  smul := Qcmult; sdiv := Qcdiv
|}.

(** Binary64 values by their IEEE-754 class: the finite values other than
    the negative zero, and the two zeros. *)
Definition float_regular (a : float) : Prop :=
  match Prim2SF a with
  | S754_zero false | S754_finite _ _ _ => True
  | _ => False
  end.

Definition float_is_zero (z : float) : Prop := ∃ s, Prim2SF z = S754_zero s.


(** The noise values of the demo, [0.001] and [0.1], as exact rationals. *)
Definition exact_0_001 : Qc := Q2Qc (1 # 1000)%Q.
Definition exact_0_1 : Qc := Q2Qc (1 # 10)%Q.

(** The doubles nearest to the decimal literals [0.001] and [0.1]. *)
Definition double_0_001 : float := 0x1.0624dd2f1a9fcp-10%float.
Definition double_0_1 : float := 0x1.999999999999ap-4%float.


(** ** Specification vocabulary *)

Section Vocabulary.
Context {D : Type} {SD : Scalar D}.

(** A matrix object that respects the class invariant
    [len(store) = rows * cols] at the shape [r × c]. *)
Definition matrix_ok (r c : Z) (m : Matrix D) : Prop :=
  rows_ m = r ∧ cols_ m = c ∧ length (data_ m) = Z.to_nat (r * c).

(** The data-model invariant of an Estimator: [n > 0], every member has
    the shape the constructor gave it, and F = H = I. *)
Definition filter_ok (f : KalmanFilter D) : Prop :=
  0 < dimensions_ f
  ∧ matrix_ok (dimensions_ f) 1 (state_ f)
  ∧ matrix_ok (dimensions_ f) (dimensions_ f) (process_noise_ f)
  ∧ matrix_ok (dimensions_ f) (dimensions_ f) (measurement_noise_ f)
  ∧ matrix_ok (dimensions_ f) (dimensions_ f) (state_covariance_ f)
  ∧ transition_matrix_ f = Matrix_identity (dimensions_ f)
  ∧ measurement_matrix_ f = Matrix_identity (dimensions_ f)
  ∧ length (estimated_state_ f) = Z.to_nat (dimensions_ f).

(** Every entry of the [r × c] matrix is a regular value. *)
Definition regular_entries {NL : NeutralLaws D} (r c : Z) (m : Matrix D) : Prop :=
  ∀ i j, 0 ≤ i < r → 0 ≤ j < c → regular (Matrix_at m i j).

(** Mathematical matrices: entry functions, compared on an index range. *)
Definition mat : Type := Z → Z → D.

Definition mat_eq (r c : Z) (A B : mat) : Prop :=
  ∀ i j, 0 ≤ i < r → 0 ≤ j < c → A i j = B i j.

Definition entries (m : Matrix D) : mat := Matrix_at m.

(** The measurement vector as an [n × 1] column. *)
Definition column (z : list D) : mat := λ i _, default s0 (z !! Z.to_nat i).

(** [Σ_{k<n} t k], summed from [0.0] in increasing [k]. *)
Definition sum_upto (n : Z) (t : Z → D) : D :=
  foldl (λ acc k, (acc + t k)%S) s0 (seqZ 0 n).

Definition spec_add (A B : mat) : mat := λ i j, (A i j + B i j)%S.
Definition spec_sub (A B : mat) : mat := λ i j, (A i j - B i j)%S.
Definition spec_mul (n : Z) (A B : mat) : mat :=
  λ i j, sum_upto n (λ k, (A i k * B k j)%S).
Definition spec_identity : mat := λ i j, if bool_decide (i = j) then s1 else s0.
Definition spec_scaled_identity (v : D) : mat :=
  λ i j, if bool_decide (i = j) then v else s0.
Definition spec_zero : mat := λ _ _, s0.

(** "Invert S by inverting only its diagonal entries". *)
Definition spec_diag_inverse (S : mat) : mat :=
  λ i j, if bool_decide (i = j) then (s1 / S i i)%S else s0.

(** The recursion of spec §4.2, steps 2 to 7, with [predicted_x = x] and
    [predicted_P = P + Q]. *)
Definition spec_predicted_P (P Q : mat) : mat := spec_add P Q.
Definition spec_S (P Q R : mat) : mat := spec_add (spec_predicted_P P Q) R.
Definition spec_K (n : Z) (P Q R : mat) : mat :=
  spec_mul n (spec_predicted_P P Q) (spec_diag_inverse (spec_S P Q R)).
Definition spec_new_x (n : Z) (x P Q R z : mat) : mat :=
  spec_add x (spec_mul n (spec_K n P Q R) (spec_sub z x)).
Definition spec_new_P (n : Z) (P Q R : mat) : mat :=
  spec_mul n (spec_sub spec_identity (spec_K n P Q R)) (spec_predicted_P P Q).

Definition is_diagonal (n : Z) (A : mat) : Prop :=
  ∀ i j, 0 ≤ i < n → 0 ≤ j < n → i ≠ j → A i j = s0.

(** The denominators of the divisions [1.0 / innovation_covariance(i, i)]
    that one call of [update] executes, in order. *)
Definition update_divisors (f : KalmanFilter D) : list D :=
  (λ i, Matrix_at (innovation_covariance f) i i) <$> seqZ 0 (dimensions_ f).

(** A sequence of [update] calls on one filter: each call carries the
    measurement buffer and the [count] argument. *)
Definition run_updates (f : KalmanFilter D) (calls : list (list D * Z))
    : KalmanFilter D :=
  foldl (λ f c, (KalmanFilter_update f c.1 c.2).1) f calls.

(** "Correctly-sized update calls" for a filter of dimension [n]. *)
Definition well_sized (n : Z) (calls : list (list D * Z)) : Prop :=
  Forall (λ c, Z.of_nat (length c.1) = c.2 ∧ c.2 = n) calls.

(** The invariant behind the diagonal-only inversion: a well-formed filter
    whose P, Q and R are diagonal. *)
Definition covariances_diagonal (f : KalmanFilter D) : Prop :=
  filter_ok f
  ∧ is_diagonal (dimensions_ f) (entries (state_covariance_ f))
  ∧ is_diagonal (dimensions_ f) (entries (process_noise_ f))
  ∧ is_diagonal (dimensions_ f) (entries (measurement_noise_ f)).


(** The diagonal entries that one call of [update] multiplies by the
    zeros off the diagonal: those of P, of the predicted covariance, of the
    inverse of S and of [I − K]. *)
Definition step_regular {NL : NeutralLaws D} (f : KalmanFilter D) : Prop :=
  ∀ i, 0 ≤ i < dimensions_ f →
    regular (entries (state_covariance_ f) i i)
    ∧ regular (entries (predicted_covariance f) i i)
    ∧ regular (entries (inv_innovation_covariance f) i i)
    ∧ regular (entries (Matrix_sub (Matrix_identity (dimensions_ f))
                          (kalman_gain f)) i i).

(** Those entries are regular in every update of the sequence, and so is
    the diagonal of the last P. *)
Fixpoint run_regular {NL : NeutralLaws D} (f : KalmanFilter D)
    (calls : list (list D * Z)) : Prop :=
  match calls with
  | [] => ∀ i, 0 ≤ i < dimensions_ f → regular (entries (state_covariance_ f) i i)
  | c :: calls =>
      step_regular f ∧ run_regular (KalmanFilter_update f c.1 c.2).1 calls
  end.

(** The values one call of [update] with the right count multiplies by a
    zero or adds to a zero, all regular: the diagonal entries of
    [step_regular], the state, and for each component the innovation [y],
    the gain [k], their product and the new variance. *)
Definition update_values_regular {NL : NeutralLaws D} (f : KalmanFilter D)
    (ms : list D) : Prop :=
  step_regular f
  ∧ regular_entries (dimensions_ f) 1 (state_ f)
  ∧ ∀ i, 0 ≤ i < dimensions_ f →
      let p := (entries (state_covariance_ f) i i
                + entries (process_noise_ f) i i)%S in
      let k := (p * (s1 / (p + entries (measurement_noise_ f) i i)))%S in
      let y := (column ms i 0 - entries (state_ f) i 0)%S in
      regular y ∧ regular k ∧ regular (k * y)%S ∧ regular ((s1 - k) * p)%S.

(** Calls of the C API and what each one returns or does. *)
Inductive Call : Type :=
  | CallCreate (dimensions : Z) (process_noise measurement_noise : D)
  | CallUpdate (handle : Z) (measurements : list D) (count : Z)
  | CallDestroy (handle : Z).

Inductive Event : Type :=
  | Created (handle : Z)          (* kf_create with dimensions > 0 returned [handle] *)
  | CreateFailed                  (* kf_create returned 0 for dimensions <= 0 *)
  | Updated (out : option (list D))
  | Destroyed (handle : Z)        (* kf_destroy released the filter of [handle] *)
  | DestroyIgnored (handle : Z).  (* kf_destroy found no filter for [handle] *)

Definition api_step (reg : Registry D) (c : Call) : Registry D * Event :=
  match c with
  | CallCreate dimensions pn mn =>
      let '(reg', h) := kf_create reg dimensions pn mn in
      (reg', if bool_decide (dimensions ≤ 0) then CreateFailed else Created h)
  | CallUpdate h ms count =>
      let '(reg', out) := kf_update reg h ms count in (reg', Updated out)
  | CallDestroy h =>
      (kf_destroy reg h,
       if bool_decide (is_Some (g_filters reg !! h)) then Destroyed h
       else DestroyIgnored h)
  end.

(** Runs the calls from [reg]; the trace lists the events oldest first. *)
Definition api_run (reg : Registry D) (calls : list Call) : Registry D * list Event :=
  foldl (λ '(reg, tr) c, let '(reg', e) := api_step reg c in (reg', tr ++ [e]))
        (reg, []) calls.

(** What the update calls of a trace returned, oldest first. *)
Definition update_results (tr : list Event) : list (option (list D)) :=
  omap (λ e, match e with Updated out => Some out | _ => None end) tr.

(** The scenario of the demo: one filter of dimension 1, then the same
    measurement fed [k] times through [kf_update]. *)
Definition constant_feed (pn mn m : D) (k : nat) : list Call :=
  CallCreate 1 pn mn :: replicate k (CallUpdate 1 [m] 1).

(** The handles the successful creates of a trace returned, oldest first. *)
Definition created_handles (tr : list Event) : list Z :=
  omap (λ e, match e with Created h => Some h | _ => None end) tr.

(** Claim C6 as a property of a trace: whenever a create returns [h], every
    handle returned earlier is smaller and no filter of handle [h] was
    destroyed earlier. *)
Definition handles_never_reused (tr : list Event) : Prop :=
  ∀ tr1 h tr2, tr = tr1 ++ Created h :: tr2 →
    (∀ h', Created h' ∈ tr1 → h' < h) ∧ Destroyed h ∉ tr1.

(** The invariant of every run from the initial registry: the counter is
    one plus the number of handles issued so far, modulo 2^32; the [i]-th
    handle issued is [wrap_int (1 + i)]; live handles were issued; a filter
    destroyed had been issued before. *)
Definition trace_invariant (reg : Registry D) (tr : list Event) : Prop :=
  g_next_handle reg = wrap_int (1 + Z.of_nat (length (created_handles tr)))
  ∧ (∀ (i : nat) h, created_handles tr !! i = Some h → h = wrap_int (1 + Z.of_nat i))
  ∧ (∀ h, is_Some (g_filters reg !! h) → h ∈ created_handles tr)
  ∧ (∀ tr1 h tr2, tr = tr1 ++ Destroyed h :: tr2 → h ∈ created_handles tr1).

End Vocabulary.

Arguments mat D : clear implicits.

(** ** More vocabulary for call traces *)

Section TraceVocabulary.
Context {D : Type} {SD : Scalar D}.

(** The handles whose filters the destroys of a trace released, oldest first. *)
Definition destroyed_handles (tr : list (Event (D:=D))) : list Z :=
  omap (λ e, match e with Destroyed h => Some h | _ => None end) tr.

End TraceVocabulary.

(** ** The output buffer of a filter

    [update] returns a pointer to the member [estimated_state_], which it
    fills from the state vector: the buffer mirrors the state. *)

Section BufferVocabulary.
Context {D : Type} {SD : Scalar D}.

Definition buffer_mirrors_state (f : KalmanFilter D) : Prop :=
  length (estimated_state_ f) = Z.to_nat (dimensions_ f)
  ∧ ∀ i, 0 ≤ i < dimensions_ f →
      estimated_state_ f !! Z.to_nat i = Some (Matrix_at (state_ f) i 0).

End BufferVocabulary.

(** * The demo of [src/wasm/cpp/kalman_demo.cpp]

    [demo_kalman_filter] runs the C API of [kalman.cpp] on binary64: it is
    embedded over the registry of [float] filters.  The noisy samples come
    from [generate_noisy_sine], which draws them from [rand] and [sin]; the
    array it returns is a parameter here.  It holds [count] elements; a read
    past its end, which the source leaves undefined, yields [0.0]. *)

(** The body of the loop of [demo_kalman_filter]; the state is the registry
    and the array [filtered_data].  [&input] is an array of one element. *)
Definition demo_filter_sample (handle : Z) (noisy_data : list float) (i : Z)
    (st : Registry float * list float) : Registry float * list float :=
  let '(reg, filtered_data) := st in
  let input := default 0%float (noisy_data !! Z.to_nat i) in
  let '(reg, output) := kf_update reg handle [input] 1 in
  (reg,
   <[Z.to_nat i := match output with
                   | Some output => default 0%float (output !! 0%nat)
                   | None => input
                   end]> filtered_data).

(** [double* demo_kalman_filter(int count)], from the array [noisy_data]
    that [generate_noisy_sine(count, 1.0, 1.0, 0.3)] returned: the registry
    after the call and the contents of the array returned.  The array
    [filtered_data] comes from [malloc]; every element is assigned before it
    is returned, so its initial contents do not matter. *)
Definition demo_kalman_filter (reg : Registry float) (noisy_data : list float)
    (count : Z) : Registry float * list float :=
  let '(reg, handle) := kf_create reg 1 double_0_001 double_0_1 in
  let filtered_data := replicate (Z.to_nat count) 0%float in
  let '(reg, filtered_data) :=
    for_loop count (demo_filter_sample handle noisy_data) (reg, filtered_data) in
  (kf_destroy reg handle, filtered_data).

(** The update calls the demo makes, one measurement per sample, and the
    filter it creates. *)
Definition demo_calls (noisy_data : list float) : list (list float * Z) :=
  (λ input, ([input], 1)) <$> noisy_data.

Definition demo_filter : KalmanFilter float :=
  KalmanFilter_new 1 double_0_001 double_0_1.

(** * The hand tracker of [src/wasm/cpp/hand_tracker.cpp]

    Conventions of the embedding.
    - The globals [g_initialized] and [landmark_filters] are a record
      [Tracker] that every function takes and returns.
    - [unsigned char* imageData] is the list of the bytes of the buffer.
    - An unchecked [v[i]] is [element_at]: a function that indexes a vector
      or a buffer returns an [option], and [None] stands for an access
      outside the bounds, which the source leaves undefined.
    - A pointer that may be null is an [option]; an object returned through
      a pointer is returned by value.
    - [int] is [Z]; the products [width * height] and [(y * width + x) * 4]
      are taken exactly: the embedding covers the images whose byte count
      fits an [int]. *)

(** ** The arithmetic of the tracker

    [float] is a scalar type [F] with the operations of [Scalar] and, in
    addition, the comparisons, the conversions and the library functions the
    tracker calls.  The embedding assumes no law about them.  Two
    expressions of the tracker are evaluated in [double]; they use the second
    scalar type [D] with the conversions between the two. *)
Class FloatOps (F : Type) : Type := {
  float_ops_scalar :: Scalar F;   (* 0.0f, 1.0f, +, -, *, / on float *)
  fltb : F → F → bool;            (* a < b *)
  feqb : F → F → bool;            (* a == b *)
  f_of_int : Z → F;               (* the conversion int → float *)
  flit : Q → F;                   (* a decimal literal with suffix f *)
  fsqrt : F → F;                  (* std::sqrt(float) *)
  fcos : F → F;                   (* std::cos(float) *)
  fsin : F → F;                   (* std::sin(float) *)
  facos : F → F                   (* std::acos(float) *)
}.

Class DoubleOps (F D : Type) {SD : Scalar D} : Type := {
  to_double : F → D;              (* the promotion float → double *)
  to_float : D → F;               (* the conversion double → float *)
  d_of_int : Z → D;               (* the conversion int → double *)
  dsqrt : D → D;                  (* std::sqrt(double) *)
  dpow : D → D → D;               (* std::pow(double, double) *)
  M_PI : D
}.

(** [a > b] is [b < a]. *)
Definition fgtb {F : Type} {FO : FloatOps F} (a b : F) : bool := fltb b a.

(** [struct Point3D { float x; float y; float z; }] *)
Record Point3D (F : Type) : Type := mkPoint3D {
  Point3D_x : F;
  Point3D_y : F;
  Point3D_z : F
}.
Arguments mkPoint3D {F} _ _ _.
Arguments Point3D_x {F} _.
Arguments Point3D_y {F} _.
Arguments Point3D_z {F} _.

(** [enum GestureType] and the integer value of each enumerator. *)
Inductive GestureType : Type :=
  | UNKNOWN | FIST | ONE_FINGER | TWO_FINGERS | THREE_FINGERS
  | FOUR_FINGERS | FIVE_FINGERS | OK_GESTURE | THUMB_UP.

Definition GestureType_value (g : GestureType) : Z :=
  match g with
  | UNKNOWN => -1 | FIST => 0 | ONE_FINGER => 1 | TWO_FINGERS => 2
  | THREE_FINGERS => 3 | FOUR_FINGERS => 4 | FIVE_FINGERS => 5
  | OK_GESTURE => 6 | THUMB_UP => 7
  end.

(** [struct HandLandmark { std::vector<Point3D> points; GestureType gesture; }] *)
Record HandLandmark (F : Type) : Type := mkHandLandmark {
  points : list (Point3D F);
  gesture : GestureType
}.
Arguments mkHandLandmark {F} _ _.
Arguments points {F} _.
Arguments gesture {F} _.

(** [struct HandTrackingResult { std::vector<HandLandmark> hands; float score; }] *)
Record HandTrackingResult (F : Type) : Type := mkHandTrackingResult {
  hands : list (HandLandmark F);
  score : F
}.
Arguments mkHandTrackingResult {F} _ _.
Arguments hands {F} _.
Arguments score {F} _.

(** [class LowPassFilter { float alpha; float prev_value; bool initialized; }] *)
Record LowPassFilter (F : Type) : Type := mkLowPassFilter {
  alpha : F;
  prev_value : F;
  initialized : bool
}.
Arguments mkLowPassFilter {F} _ _ _.
Arguments alpha {F} _.
Arguments prev_value {F} _.
Arguments initialized {F} _.

(** The globals [bool g_initialized = false;] and
    [std::vector<std::vector<LowPassFilter>> landmark_filters;] *)
Record Tracker (F : Type) : Type := mkTracker {
  g_initialized : bool;
  landmark_filters : list (list (LowPassFilter F))
}.
Arguments mkTracker {F} _ _.
Arguments g_initialized {F} _.
Arguments landmark_filters {F} _.

Definition NUM_LANDMARKS : Z := 21.

(** [v[i]] on a vector or a buffer, unchecked in the source: [None] stands
    for an access outside the bounds, which the source leaves undefined. *)
Definition element_at {A : Type} (v : list A) (i : Z) : option A :=
  if bool_decide (0 ≤ i) then v !! Z.to_nat i else None.

(** [v.resize(n)] with [x] the value-initialised element. *)
Definition resize {A : Type} (n : Z) (x : A) (v : list A) : list A :=
  take (Z.to_nat n) v ++ replicate (Z.to_nat n - length v) x.

(** [for (int i = 0; i < n; i += step) s = body(i, s);], [step > 0], for a
    bound [n <= INT_MAX - step]: the counter is an exact integer here, and
    in the source the last [i += step] overflows above that bound. *)
Definition for_loop_step {S : Type} (n step : Z) (body : Z → S → S) (s : S) : S :=
  for_loop ((n + step - 1) `div` step) (λ k acc, body (k * step) acc) s.

(** [for (int i = lo; i < hi; i++) s = body(i, s);] *)
Definition for_range {S : Type} (lo hi : Z) (body : Z → S → S) (s : S) : S :=
  foldl (λ acc i, body i acc) s (seqZ lo (hi - lo)).

(** The conversion of an [int] to the 32-bit [size_t] of the wasm32 target,
    as in the comparison [hand_index >= result->hands.size()]. *)
Definition to_size_t (z : Z) : Z := z `mod` 4294967296.

(** [bool is_skin_color(unsigned char r, unsigned char g, unsigned char b)]:
    the operands are promoted to [int]. *)
Definition is_skin_color (r g b : Z) : bool :=
  bool_decide (r > 95) && bool_decide (g > 40) && bool_decide (b > 20)
  && bool_decide (r > g) && bool_decide (r > b)
  && bool_decide (Z.abs (r - g) > 15).

(** ** LowPassFilter *)

Section LowPass.
Context {F : Type} {SF : Scalar F}.

(** [LowPassFilter(float alpha = 0.3f)]: [prev_value(0)], [initialized(false)]. *)
Definition LowPassFilter_new (alpha : F) : LowPassFilter F :=
  mkLowPassFilter alpha s0 false.

(** [float apply(float value)]: the filter after the call and the value
    returned. *)
Definition LowPassFilter_apply (f : LowPassFilter F) (value : F)
    : LowPassFilter F * F :=
  if negb (initialized f) then
    (mkLowPassFilter (alpha f) value true, value)
  else
    let filtered := (alpha f * value + (s1 - alpha f) * prev_value f)%S in
    (mkLowPassFilter (alpha f) filtered (initialized f), filtered).

(** [void reset()] *)
Definition LowPassFilter_reset (f : LowPassFilter F) : LowPassFilter F :=
  mkLowPassFilter (alpha f) (prev_value f) false.

(** A sequence of [apply] calls on one filter: the filter after the last
    call and the values returned, oldest first. *)
Definition LowPassFilter_run (f : LowPassFilter F) (values : list F)
    : LowPassFilter F * list F :=
  foldl (λ '(f, outs) value,
           let '(f', out) := LowPassFilter_apply f value in (f', outs ++ [out]))
        (f, []) values.

End LowPass.

Section HandTracker.
Context {F D : Type} {FO : FloatOps F} {SD : Scalar D} {DO : DoubleOps F D}.

(** The value-initialised filter: the default argument [alpha = 0.3f]. *)
Definition LowPassFilter_default : LowPassFilter F :=
  LowPassFilter_new (flit (3 # 10)).

(** ** calculate_angle *)

(** [std::max(a, b)] is [(a < b) ? b : a]; [std::min(a, b)] is
    [(b < a) ? b : a]. *)
Definition fmax (a b : F) : F := if fltb a b then b else a.
Definition fmin (a b : F) : F := if fltb b a then b else a.

(** The local [cosAngle] of [calculate_angle]:
    [std::min(1.0f, std::max(-1.0f, dot / (mag1 * mag2)))]. *)
Definition clamp_cosine (q : F) : F := fmin s1 (fmax (flit (-1)) q).

(** [float calculate_angle(float x1, float y1, float x2, float y2)].
    [acos(...) * 180.0f] is a [float], the division by the [double] [M_PI]
    is done in [double], and the result is converted back on return. *)
Definition calculate_angle (x1 y1 x2 y2 : F) : F :=
  let dot := (x1 * x2 + y1 * y2)%S in
  let mag1 := fsqrt (x1 * x1 + y1 * y1)%S in
  let mag2 := fsqrt (x2 * x2 + y2 * y2)%S in
  if feqb (mag1 * mag2)%S (f_of_int 0) then s0
  else
    let cosAngle := clamp_cosine (dot / (mag1 * mag2))%S in
    to_float (to_double (facos cosAngle * flit 180)%S / M_PI)%S.

(** ** initialize_hand_tracker *)

Definition tracker_init : Tracker F := mkTracker false [].

(** [int initialize_hand_tracker()]: the tracker after the call and the
    value returned. *)
Definition initialize_hand_tracker (t : Tracker F) : Tracker F * Z :=
  if g_initialized t then (t, 1)
  else
    let filters := resize 2 [] (landmark_filters t) in
    let filters :=
      for_loop 2 (λ i filters,
        alter (resize (NUM_LANDMARKS * 3) LowPassFilter_default) (Z.to_nat i) filters)
        filters in
    (mkTracker true filters, 1).

(** ** recognize_gesture *)

(** The angle at the base of a finger, between the directions to the wrist
    and to the tip: the five calls of [calculate_angle]. *)
Definition finger_angle (wrist base tip : Point3D F) : F :=
  calculate_angle
    (Point3D_x wrist - Point3D_x base)%S (Point3D_y wrist - Point3D_y base)%S
    (Point3D_x tip - Point3D_x base)%S (Point3D_y tip - Point3D_y base)%S.

Definition extension_threshold : F := flit 60.

(** [std::sqrt(std::pow(dx, 2) + std::pow(dy, 2))] assigned to a [float]:
    [std::pow(float, int)] is computed in [double]. *)
Definition thumb_index_distance (thumb_tip index_tip : Point3D F) : F :=
  to_float
    (dsqrt (dpow (to_double (Point3D_x thumb_tip - Point3D_x index_tip)%S) (d_of_int 2)
            + dpow (to_double (Point3D_y thumb_tip - Point3D_y index_tip)%S) (d_of_int 2))%S).

(** The cascade of tests that ends [recognize_gesture], on the five
    extension flags, [thumb_index_distance < 0.1f] and
    [thumb_tip.y < wrist.y]. *)
Definition gesture_of_fingers
    (thumb_extended index_extended middle_extended ring_extended pinky_extended : bool)
    (thumb_index_close thumb_above_wrist : bool) : GestureType :=
  if negb thumb_extended && negb index_extended && negb middle_extended
     && negb ring_extended && negb pinky_extended then FIST
  else if negb thumb_extended && index_extended && negb middle_extended
     && negb ring_extended && negb pinky_extended then ONE_FINGER
  else if negb thumb_extended && index_extended && middle_extended
     && negb ring_extended && negb pinky_extended then TWO_FINGERS
  else if negb thumb_extended && index_extended && middle_extended
     && ring_extended && negb pinky_extended then THREE_FINGERS
  else if negb thumb_extended && index_extended && middle_extended
     && ring_extended && pinky_extended then FOUR_FINGERS
  else if thumb_extended && index_extended && middle_extended
     && ring_extended && pinky_extended then FIVE_FINGERS
  else if thumb_index_close && middle_extended && ring_extended
     && pinky_extended then OK_GESTURE
  else if thumb_extended && negb index_extended && negb middle_extended
     && negb ring_extended && negb pinky_extended && thumb_above_wrist then THUMB_UP
  else UNKNOWN.

(** [GestureType recognize_gesture(HandTrackingResult* result, int hand_index)];
    [result = None] is the null pointer. *)
Definition recognize_gesture (result : option (HandTrackingResult F)) (hand_index : Z)
    : option GestureType :=
  match result with
  | None => Some UNKNOWN
  | Some result =>
      if bool_decide (to_size_t hand_index >= Z.of_nat (length (hands result)))
      then Some UNKNOWN
      else
        hand ← element_at (hands result) (to_size_t hand_index);
        if bool_decide (Z.of_nat (length (points hand)) < 21) then Some UNKNOWN
        else
          wrist ← element_at (points hand) 0;
          thumb_tip ← element_at (points hand) 4;
          index_tip ← element_at (points hand) 8;
          middle_tip ← element_at (points hand) 12;
          ring_tip ← element_at (points hand) 16;
          pinky_tip ← element_at (points hand) 20;
          thumb_base ← element_at (points hand) 2;
          index_base ← element_at (points hand) 5;
          middle_base ← element_at (points hand) 9;
          ring_base ← element_at (points hand) 13;
          pinky_base ← element_at (points hand) 17;
          let thumb_extended :=
            fgtb (finger_angle wrist thumb_base thumb_tip) extension_threshold in
          let index_extended :=
            fgtb (finger_angle wrist index_base index_tip) extension_threshold in
          let middle_extended :=
            fgtb (finger_angle wrist middle_base middle_tip) extension_threshold in
          let ring_extended :=
            fgtb (finger_angle wrist ring_base ring_tip) extension_threshold in
          let pinky_extended :=
            fgtb (finger_angle wrist pinky_base pinky_tip) extension_threshold in
          Some (gesture_of_fingers
                  thumb_extended index_extended middle_extended ring_extended
                  pinky_extended
                  (fltb (thumb_index_distance thumb_tip index_tip) (flit (1 # 10)))
                  (fltb (Point3D_y thumb_tip) (Point3D_y wrist)))
  end.

(** ** get_finger_tips *)



(** ** detect_hand_landmarks *)

(** The body of the sampling loops: one sampled pixel at column [x] of row
    [y]; the state is [(skin_pixels, center_x, center_y)].  The offset
    [(y * width + x) * 4] is an exact integer here and an [int] in the
    source: they agree for the images of [image_in_int_range]. *)
Definition sample_pixel (imageData : list Z) (width x y : Z) (acc : Z * F * F)
    : option (Z * F * F) :=
  let '(skin_pixels, center_x, center_y) := acc in
  let i := (y * width + x) * 4 in
  r ← element_at imageData i;
  g ← element_at imageData (i + 1);
  b ← element_at imageData (i + 2);
  if is_skin_color r g b then
    Some (skin_pixels + 1, (center_x + f_of_int x)%S, (center_y + f_of_int y)%S)
  else Some acc.

(** [for (y = 0; y < height; y += 10) for (x = 0; x < width; x += 10) ...] *)
Definition sample_image (imageData : list Z) (width height : Z) : option (Z * F * F) :=
  for_loop_step height 10 (λ y acc,
    for_loop_step width 10 (λ x acc, acc ≫= sample_pixel imageData width x y) acc)
    (Some (0, s0, s0)).

(** [landmark_filters[0][k].apply(v)] *)
Definition apply_landmark_filter (k : Z) (v : F) (t : Tracker F) : option (Tracker F * F) :=
  row ← element_at (landmark_filters t) 0;
  filter ← element_at row k;
  let '(filter', out) := LowPassFilter_apply filter v in
  Some (mkTracker (g_initialized t)
          (<[0%nat := <[Z.to_nat k := filter']> row]> (landmark_filters t)),
        out).

(** The three [apply] calls on the coordinates of the landmark [idx]. *)
Definition filter_point (idx : Z) (p : Point3D F) (t : Tracker F)
    : option (Tracker F * Point3D F) :=
  '(t, x) ← apply_landmark_filter (idx * 3) (Point3D_x p) t;
  '(t, y) ← apply_landmark_filter (idx * 3 + 1) (Point3D_y p) t;
  '(t, z) ← apply_landmark_filter (idx * 3 + 2) (Point3D_z p) t;
  Some (t, mkPoint3D x y z).

Definition joint_spacing : F := flit (3 # 100).
Definition thumb_angles : list F :=
  [flit (-7 # 10); flit (-5 # 10); flit (-3 # 10); flit (-1 # 10)].

(** The state of the landmark loops: the tracker (its filters), [hand.points]
    and [finger_bases]. *)
Definition thumb_landmark (wrist : Point3D F) (i : Z)
    (st : Tracker F * list (Point3D F)) : option (Tracker F * list (Point3D F)) :=
  let '(t, pts) := st in
  angle ← element_at thumb_angles i;
  let p := mkPoint3D
    (Point3D_x wrist + fcos angle * f_of_int (i + 1) * joint_spacing)%S
    (Point3D_y wrist - fsin angle * f_of_int (i + 1) * joint_spacing)%S
    (flit (1 # 100) * f_of_int i)%S in
  let idx := i + 1 in
  '(t, p) ← filter_point idx p t;
  Some (t, pts ++ [p]).

Definition finger_base (wrist : Point3D F) (finger : Z)
    (st : Tracker F * list (Point3D F) * list (Point3D F))
    : option (Tracker F * list (Point3D F) * list (Point3D F)) :=
  let '(t, pts, finger_bases) := st in
  let angle := (flit (-2 # 10) + f_of_int finger * flit (2 # 10))%S in
  let base := mkPoint3D
    (Point3D_x wrist + fcos angle * flit (15 # 100))%S
    (Point3D_y wrist - fsin angle * flit (15 # 100))%S
    s0 in
  let idx := 5 + finger * 4 in
  '(t, base) ← filter_point idx base t;
  Some (t, pts ++ [base], finger_bases ++ [base]).

Definition finger_joint (base : Point3D F) (baseAngle : F) (finger joint : Z)
    (st : Tracker F * list (Point3D F)) : option (Tracker F * list (Point3D F)) :=
  let '(t, pts) := st in
  let p := mkPoint3D
    (Point3D_x base + fcos baseAngle * f_of_int joint * joint_spacing)%S
    (Point3D_y base - fsin baseAngle * f_of_int joint * joint_spacing)%S
    (flit (1 # 100) * f_of_int joint)%S in
  let idx := 5 + finger * 4 + joint in
  '(t, p) ← filter_point idx p t;
  Some (t, pts ++ [p]).

Definition finger_joints (finger_bases : list (Point3D F)) (finger : Z)
    (st : Tracker F * list (Point3D F)) : option (Tracker F * list (Point3D F)) :=
  base ← element_at finger_bases finger;
  let baseAngle := (flit (-1 # 10) + f_of_int finger * flit (1 # 10))%S in
  for_range 1 4 (λ joint st, st ≫= finger_joint base baseAngle finger joint) (Some st).

(** [HandTrackingResult* detect_hand_landmarks(unsigned char* imageData,
    int width, int height)]: the tracker after the call and the result
    object the returned pointer designates. *)
Definition detect_hand_landmarks (t : Tracker F) (imageData : list Z) (width height : Z)
    : option (Tracker F * HandTrackingResult F) :=
  let t := if negb (g_initialized t) then (initialize_hand_tracker t).1 else t in
  let result := mkHandTrackingResult [] s0 in
  let total_pixels := width * height in
  '(skin_pixels, center_x, center_y) ← sample_image imageData width height;
  if bool_decide (skin_pixels < 10) then Some (t, result)
  else
    let center_x := (center_x / f_of_int skin_pixels)%S in
    let center_y := (center_y / f_of_int skin_pixels)%S in
    let wrist := mkPoint3D (center_x / f_of_int width)%S
                           (center_y / f_of_int height)%S s0 in
    '(t, wrist) ←
      (if bool_decide (Z.of_nat (length (landmark_filters t)) > 0) then
         '(t, x) ← apply_landmark_filter 0 (Point3D_x wrist) t;
         '(t, y) ← apply_landmark_filter 1 (Point3D_y wrist) t;
         '(t, z) ← apply_landmark_filter 2 (Point3D_z wrist) t;
         Some (t, mkPoint3D x y z)
       else Some (t, wrist));
    let pts := [wrist] in
    '(t, pts) ← for_loop 4 (λ i st, st ≫= thumb_landmark wrist i) (Some (t, pts));
    '(t, pts, finger_bases) ←
      for_loop 4 (λ finger st, st ≫= finger_base wrist finger) (Some (t, pts, []));
    '(t, pts) ←
      for_loop 4 (λ finger st, st ≫= finger_joints finger_bases finger) (Some (t, pts));
    gesture ← recognize_gesture (Some result) 0;
    let hand := mkHandLandmark pts gesture in
    Some (t, mkHandTrackingResult (hands result ++ [hand])
               (f_of_int skin_pixels / f_of_int (total_pixels `quot` 100))%S).

End HandTracker.

(** ** Specification vocabulary of the tracker *)

(** The number of flags that are set. *)
Definition count_true (flags : list bool) : Z :=
  Z.of_nat (length (filter (λ b, b = true) flags)).

Section TrackerVocabulary.
Context {F D : Type} {FO : FloatOps F} {SD : Scalar D} {DO : DoubleOps F D}.

(** The filters as [initialize_hand_tracker] sizes them: two hands, three
    coordinates for each of the [NUM_LANDMARKS] landmarks. *)
Definition filters_ok (filters : list (list (LowPassFilter F))) : Prop :=
  length filters = 2%nat
  ∧ Forall (λ row, length row = Z.to_nat (NUM_LANDMARKS * 3)) filters.

(** The invariant of the tracker's globals: once [g_initialized] is set the
    filters are sized. *)
Definition tracker_ok (t : Tracker F) : Prop :=
  g_initialized t = true → filters_ok (landmark_filters t).

(** What the landmark code does to the globals: the flag stays, the filters
    stay sized, and the filters of the second hand are not touched. *)
Definition tracker_step (t t' : Tracker F) : Prop :=
  g_initialized t' = g_initialized t
  ∧ filters_ok (landmark_filters t')
  ∧ landmark_filters t' !! 1%nat = landmark_filters t !! 1%nat.

(** The image buffer holds the [width * height] RGBA pixels. *)
Definition image_ok (imageData : list Z) (width height : Z) : Prop :=
  0 < width → 0 < height → width * height * 4 ≤ Z.of_nat (length imageData).

(** The [int] computations of [detect_hand_landmarks] stay in the range of
    [int], where the exact integers of the embedding are what the source
    computes: the counters of [y += 10] and [x += 10], which run up to the
    bound plus 9; [total_pixels = width * height]; and the byte offsets
    [(y * width + x) * 4] to [i + 2], which stay below
    [width * height * 4]. *)
Definition image_in_int_range (width height : Z) : Prop :=
  INT_MIN ≤ width ≤ INT_MAX - 10
  ∧ INT_MIN ≤ height ≤ INT_MAX - 10
  ∧ INT_MIN ≤ width * height ≤ INT_MAX
  ∧ (0 < width → 0 < height → width * height * 4 ≤ INT_MAX).

(** The extension flags [recognize_gesture] computes for a hand of at least
    21 points: thumb, index, middle, ring, pinky. *)
Definition hand_extended_fingers (hand : HandLandmark F) : list bool :=
  let point k := default (mkPoint3D s0 s0 s0) (points hand !! k) in
  (λ '(base, tip),
     fgtb (finger_angle (point 0%nat) (point base) (point tip)) extension_threshold)
    <$> [(2, 4); (5, 8); (9, 12); (13, 16); (17, 20)]%nat.

End TrackerVocabulary.

(** ** Runs of the tracker *)

(** Calls of the tracker's API that touch the globals. *)
Inductive TrackerCall : Type :=
  | CallInitialize
  | CallDetect (imageData : list Z) (width height : Z).

(** The [detect_hand_landmarks] calls of a run, oldest first. *)
Definition detect_calls (calls : list TrackerCall) : list (list Z * Z * Z) :=
  omap (λ c, match c with
             | CallInitialize => None
             | CallDetect imageData width height => Some (imageData, width, height)
             end) calls.

(** Every image of the calls fits its buffer, with dimensions whose [int]
    computations do not overflow. *)
Definition images_ok (calls : list TrackerCall) : Prop :=
  Forall (λ c, match c with
               | CallInitialize => True
               | CallDetect imageData width height =>
                   image_ok imageData width height
                   ∧ image_in_int_range width height
               end) calls.

Section TrackerRuns.
Context {F D : Type} {FO : FloatOps F} {SD : Scalar D} {DO : DoubleOps F D}.

(** Runs the calls from [t]: the tracker after the last call and the
    results of the [detect_hand_landmarks] calls, oldest first; [None] when
    some call reads or writes outside the bounds of a vector. *)
Definition tracker_run (t : Tracker F) (calls : list TrackerCall)
    : option (Tracker F * list (HandTrackingResult F)) :=
  foldl (λ st c,
           '(t, results) ← st;
           match c with
           | CallInitialize => Some ((initialize_hand_tracker t).1, results)
           | CallDetect imageData width height =>
               '(t, result) ← detect_hand_landmarks t imageData width height;
               Some (t, results ++ [result])
           end)
        (Some (t, [])) calls.

(** The invariant of the runs from the initial globals: the globals are the
    initial ones or they are initialised; once initialised the filters are
    sized and those of the second hand are the default filters; every result
    returned holds no hand or one hand of [NUM_LANDMARKS] points with the
    gesture [UNKNOWN]. *)
Definition run_invariant (t : Tracker F) (results : list (HandTrackingResult F)) : Prop :=
  (g_initialized t = false → t = tracker_init)
  ∧ (g_initialized t = true →
       filters_ok (landmark_filters t)
       ∧ landmark_filters t !! 1%nat
         = Some (replicate (Z.to_nat (NUM_LANDMARKS * 3)) LowPassFilter_default))
  ∧ Forall (λ result,
              hands result = []
              ∨ ∃ pts, hands result = [mkHandLandmark pts UNKNOWN]
                       ∧ length pts = Z.to_nat NUM_LANDMARKS) results.

End TrackerRuns.

(** ** IEEE-754 binary32 *)

(** The [float] of the compiled tracker: binary32 values as [spec_float],
    with the correctly rounded operations of [SpecFloat] at precision 24 and
    maximal exponent 128. *)
Definition binary32 : Type := spec_float.

Definition binary32_of_int (z : Z) : binary32 := SpecFloat.binary_normalize 24 128 z 0 false.

#[export] Instance binary32_scalar : Scalar binary32 := {|
  s0 := S754_zero false;
  s1 := binary32_of_int 1;
  sadd := SpecFloat.SFadd 24 128;
  ssub := SpecFloat.SFsub 24 128;
  smul := SpecFloat.SFmul 24 128;
  sdiv := SpecFloat.SFdiv 24 128
|}.

(** A decimal literal: the quotient of two integers that binary32 holds
    exactly, rounded once. *)
Definition binary32_literal (q : Q) : binary32 :=
  SpecFloat.SFdiv 24 128 (binary32_of_int (Qnum q)) (binary32_of_int (Zpos (Qden q))).

(** The operations of binary32, given the three functions of the
    mathematical library, which IEEE-754 does not define. *)
Definition binary32_ops (cosf sinf acosf : binary32 → binary32) : FloatOps binary32 := {|
  float_ops_scalar := binary32_scalar;
  fltb := SpecFloat.SFltb;
  feqb := SpecFloat.SFeqb;
  f_of_int := binary32_of_int;
  flit := binary32_literal;
  fsqrt := SpecFloat.SFsqrt 24 128;
  fcos := cosf;
  fsin := sinf;
  facos := acosf
|}.

(** The conversions between binary32 and binary64, and the functions of
    [double], given [pow]. *)
Definition binary32_to_double (x : binary32) : float := SF2Prim x.

Definition double_to_binary32 (d : float) : binary32 :=
  match Prim2SF d with
  | S754_finite s m e => SpecFloat.binary_round 24 128 s m e
  | x => x
  end.

Definition binary64_ops (pow : float → float → float) : DoubleOps binary32 float := {|
  to_double := binary32_to_double;
  to_float := double_to_binary32;
  d_of_int := λ z, SF2Prim (SpecFloat.binary_normalize 53 1024 z 0 false);
  dsqrt := PrimFloat.sqrt;
  dpow := pow;
  M_PI := 0x1.921fb54442d18p+1%float
|}.

(** Stand-ins for the functions of the mathematical library in the
    examples: the first terms of their series.  The theorems about the
    tracker hold for any such functions. *)
Definition series_cos (x : binary32) : binary32 :=
  (s1 - x * x / binary32_of_int 2)%S.
Definition series_sin (x : binary32) : binary32 := x.
Definition series_acos (x : binary32) : binary32 :=
  (binary32_literal (157 # 100) - x)%S.
Definition square_pow (x y : float) : float := (x * x)%float.

Definition example_float_ops : FloatOps binary32 :=
  binary32_ops series_cos series_sin series_acos.
Definition example_double_ops : DoubleOps binary32 float :=
  binary64_ops square_pow.

(** An image of 100 × 10 pixels of one skin colour, and a hand whose five
    fingers are straight: the wrist at the origin, every base at (0, 1) and
    every tip at (0, 2). *)
Definition example_image : list Z := mjoin (replicate 1000 [200; 100; 50; 255]).

Definition example_hand : HandLandmark binary32 :=
  let point (y : Z) := mkPoint3D (binary32_of_int 0) (binary32_of_int y) (binary32_of_int 0) in
  mkHandLandmark
    (point 0 :: mjoin (replicate 5 [point 1; point 1; point 2; point 2]))
    UNKNOWN.

(** * Proofs *)

(** ** Loops *)

Lemma for_loop_done {S : Type} (n : Z) (body : Z → S → S) (s : S) :
  n ≤ 0 → for_loop n body s = s.
Proof. intros Hn. unfold for_loop. by rewrite seqZ_nil. Qed.

Lemma for_loop_succ {S : Type} (n : Z) (body : Z → S → S) (s : S) :
  0 ≤ n → for_loop (n + 1) body s = body n (for_loop n body s).
Proof.
  intros Hn. unfold for_loop.
  rewrite seqZ_app by lia. rewrite foldl_app.
  rewrite (seqZ_cons (0 + n) 1) by lia.
  rewrite (seqZ_nil (Z.succ (0 + n))) by lia.
  simpl. by rewrite Z.add_0_l.
Qed.

(** Loop-invariant rule: [Inv k s] holds of the state before iteration [k]. *)
Lemma for_loop_invariant {S : Type} (Inv : Z → S → Prop) (n : Z)
    (body : Z → S → S) (s : S) :
  0 ≤ n →
  Inv 0 s →
  (∀ k acc, 0 ≤ k < n → Inv k acc → Inv (k + 1) (body k acc)) →
  Inv n (for_loop n body s).
Proof.
  intros Hn H0 Hstep.
  assert (Hgen : ∀ m : nat, Z.of_nat m ≤ n →
            Inv (Z.of_nat m) (for_loop (Z.of_nat m) body s)).
  { induction m as [|m IH]; intros Hm.
    - by rewrite for_loop_done.
    - rewrite Nat2Z.inj_succ, <- Z.add_1_r.
      rewrite for_loop_succ by lia. apply Hstep; [lia|]. apply IH. lia. }
  specialize (Hgen (Z.to_nat n)). rewrite Z2Nat.id in Hgen by done.
  apply Hgen. lia.
Qed.

Lemma for_loop_ext {S : Type} (n : Z) (body1 body2 : Z → S → S) (s : S) :
  (∀ k acc, 0 ≤ k < n → body1 k acc = body2 k acc) →
  for_loop n body1 s = for_loop n body2 s.
Proof.
  intros Hext. destruct (decide (0 ≤ n)) as [Hn|Hn].
  - apply (for_loop_invariant
             (λ k acc, acc = for_loop k body2 s) n body1 s Hn).
    + by rewrite for_loop_done.
    + intros k acc Hk ->. rewrite for_loop_succ by lia. by apply Hext.
  - by rewrite !for_loop_done by lia.
Qed.

Section MatrixFacts.
Context {D : Type} {SD : Scalar D}.
Implicit Types m a b : Matrix D.

(** ** Shapes and element access *)

Lemma matrix_ok_new (r c : Z) : matrix_ok r c (Matrix_new r c).
Proof. unfold matrix_ok, Matrix_new; simpl. by rewrite length_replicate. Qed.

Lemma matrix_ok_set r c m i j v :
  matrix_ok r c m → matrix_ok r c (Matrix_set m i j v).
Proof.
  intros (Hr & Hc & Hl). unfold matrix_ok, Matrix_set; simpl.
  by rewrite length_insert.
Qed.

Lemma offset_in_range (r c i j : Z) :
  0 ≤ i < r → 0 ≤ j < c → 0 ≤ i * c + j < r * c.
Proof. intros. nia. Qed.

Lemma offset_injective (c i j i' j' : Z) :
  0 ≤ j < c → 0 ≤ j' < c → i * c + j = i' * c + j' → i = i' ∧ j = j'.
Proof.
  intros Hj Hj' Heq.
  assert (i = i') as ->; [|lia].
  destruct (Z.lt_trichotomy i i') as [Hlt|[->|Hlt]]; [|done|].
  - assert ((i + 1) * c ≤ i' * c) by nia. lia.
  - assert ((i' + 1) * c ≤ i * c) by nia. lia.
Qed.

Lemma Matrix_at_new (r c i j : Z) : Matrix_at (Matrix_new r c) i j = s0.
Proof.
  unfold Matrix_at, Matrix_new; simpl.
  destruct (replicate _ _ !! _) as [x|] eqn:E; [|done].
  apply lookup_replicate in E as [-> _]. done.
Qed.

Lemma Matrix_at_set_same r c m i j v :
  matrix_ok r c m → 0 ≤ i < r → 0 ≤ j < c →
  Matrix_at (Matrix_set m i j v) i j = v.
Proof.
  intros (Hr & Hc & Hl) Hi Hj. unfold Matrix_at, Matrix_set; simpl.
  rewrite list_lookup_insert_eq; [done|].
  rewrite Hl, Hc. pose proof (offset_in_range r c i j Hi Hj). lia.
Qed.

Lemma Matrix_at_set_other r c m i j i' j' v :
  matrix_ok r c m → 0 ≤ i < r → 0 ≤ j < c → 0 ≤ i' < r → 0 ≤ j' < c →
  (i, j) ≠ (i', j') →
  Matrix_at (Matrix_set m i j v) i' j' = Matrix_at m i' j'.
Proof.
  intros (Hr & Hc & Hl) Hi Hj Hi' Hj' Hne. unfold Matrix_at, Matrix_set; simpl.
  rewrite list_lookup_insert_ne; [done|]. rewrite Hc.
  pose proof (offset_in_range r c i j Hi Hj).
  pose proof (offset_in_range r c i' j' Hi' Hj').
  intros Heq. apply Hne.
  destruct (offset_injective c i j i' j') as [-> ->]; [lia|lia|lia|done].
Qed.

(** Two well-formed matrices of one shape with the same entries are the
    same object. *)
Lemma matrix_ext r c a b :
  0 ≤ r → 0 ≤ c → matrix_ok r c a → matrix_ok r c b →
  mat_eq r c (entries a) (entries b) → a = b.
Proof.
  intros Hr Hc (Ha1 & Ha2 & Ha3) (Hb1 & Hb2 & Hb3) Heq.
  destruct a as [ra ca da], b as [rb cb db]; simpl in *; subst.
  f_equal. apply list_eq. intros k.
  destruct (decide (Z.of_nat k < r * c)) as [Hk|Hk].
  - assert (0 < c) by nia.
    specialize (Heq (Z.of_nat k / c) (Z.of_nat k `mod` c)).
    unfold entries, Matrix_at in Heq; simpl in Heq.
    pose proof (Z.div_mod (Z.of_nat k) c ltac:(lia)) as Hdm.
    pose proof (Z.mod_pos_bound (Z.of_nat k) c ltac:(lia)) as Hmod.
    assert (0 ≤ Z.of_nat k / c < r) as Hdiv.
    { split; [apply Z.div_pos; lia|]. apply Z.div_lt_upper_bound; lia. }
    replace (Z.to_nat (Z.of_nat k / c * c + Z.of_nat k `mod` c)) with k in Heq by lia.
    destruct (lookup_lt_is_Some_2 da k ltac:(lia)) as [x Hx].
    destruct (lookup_lt_is_Some_2 db k ltac:(lia)) as [y Hy].
    rewrite Hx, Hy in Heq |- *. simpl in Heq. f_equal. by apply Heq.
  - rewrite !lookup_ge_None_2 by lia. done.
Qed.

(** ** Loops that assign matrix elements *)

(** One loop that assigns [m(pi k, pj k) = f k] for [k < n], at pairwise
    distinct in-range positions. *)
Lemma loop_set_spec (r c n : Z) (pi pj : Z → Z) (f : Z → D) m :
  matrix_ok r c m →
  (∀ k, 0 ≤ k < n → 0 ≤ pi k < r ∧ 0 ≤ pj k < c) →
  (∀ k k', 0 ≤ k < n → 0 ≤ k' < n → pi k = pi k' → pj k = pj k' → k = k') →
  let m' := for_loop n (λ k acc, Matrix_set acc (pi k) (pj k) (f k)) m in
  matrix_ok r c m'
  ∧ (∀ k, 0 ≤ k < n → Matrix_at m' (pi k) (pj k) = f k)
  ∧ (∀ i j, 0 ≤ i < r → 0 ≤ j < c →
       (∀ k, 0 ≤ k < n → (pi k, pj k) ≠ (i, j)) →
       Matrix_at m' i j = Matrix_at m i j).
Proof.
  intros Hok Hrange Hinj m'. subst m'.
  destruct (decide (0 ≤ n)) as [Hn|Hn].
  2:{ rewrite for_loop_done by lia. split; [done|]. split; [intros; lia|done]. }
  pose (Inv := λ (t : Z) (acc : Matrix D),
    matrix_ok r c acc
    ∧ (∀ k, 0 ≤ k < t → Matrix_at acc (pi k) (pj k) = f k)
    ∧ (∀ i j, 0 ≤ i < r → 0 ≤ j < c →
         (∀ k, 0 ≤ k < t → (pi k, pj k) ≠ (i, j)) →
         Matrix_at acc i j = Matrix_at m i j)).
  assert (Inv n (for_loop n (λ k acc, Matrix_set acc (pi k) (pj k) (f k)) m))
    as (H1 & H2 & H3).
  { apply for_loop_invariant; [done| |].
    - split; [done|]. split; [intros; lia|done].
    - intros t acc Ht (Hacc & Hin & Hout).
      destruct (Hrange t Ht) as [Hpi Hpj].
      split; [by apply matrix_ok_set|]. split.
      + intros k Hk. destruct (decide (k = t)) as [->|Hkt].
        * by apply (Matrix_at_set_same r c).
        * destruct (Hrange k ltac:(lia)) as [Hpi' Hpj'].
          rewrite (Matrix_at_set_other r c) by
            (try done; intros [= E1 E2]; apply Hkt; symmetry;
             apply Hinj; (lia || done)).
          apply Hin. lia.
      + intros i j Hi Hj Hfree.
        rewrite (Matrix_at_set_other r c) by
          (try done; apply Hfree; lia).
        apply Hout; [done..|]. intros k Hk. apply Hfree. lia. }
  split; [done|]. split; [done|]. intros i j Hi Hj Hfree.
  by apply H3.
Qed.

(** Two nested loops that assign [m(pi i j, pj i j) = f i j] for [i < n1],
    [j < n2]. *)
Lemma nested_loop_set_spec (r c n1 n2 : Z) (pi pj : Z → Z → Z) (f : Z → Z → D) m :
  matrix_ok r c m →
  (∀ i j, 0 ≤ i < n1 → 0 ≤ j < n2 → 0 ≤ pi i j < r ∧ 0 ≤ pj i j < c) →
  (∀ i j i' j', 0 ≤ i < n1 → 0 ≤ j < n2 → 0 ≤ i' < n1 → 0 ≤ j' < n2 →
     pi i j = pi i' j' → pj i j = pj i' j' → i = i' ∧ j = j') →
  let m' := for_loop n1 (λ i acc,
              for_loop n2 (λ j acc, Matrix_set acc (pi i j) (pj i j) (f i j)) acc) m in
  matrix_ok r c m'
  ∧ (∀ i j, 0 ≤ i < n1 → 0 ≤ j < n2 → Matrix_at m' (pi i j) (pj i j) = f i j)
  ∧ (∀ p q, 0 ≤ p < r → 0 ≤ q < c →
       (∀ i j, 0 ≤ i < n1 → 0 ≤ j < n2 → (pi i j, pj i j) ≠ (p, q)) →
       Matrix_at m' p q = Matrix_at m p q).
Proof.
  intros Hok Hrange Hinj m'. subst m'.
  destruct (decide (0 ≤ n1)) as [Hn|Hn].
  2:{ rewrite for_loop_done by lia. split; [done|]. split; [intros; lia|done]. }
  pose (Inv := λ (t : Z) (acc : Matrix D),
    matrix_ok r c acc
    ∧ (∀ i j, 0 ≤ i < t → 0 ≤ j < n2 → Matrix_at acc (pi i j) (pj i j) = f i j)
    ∧ (∀ p q, 0 ≤ p < r → 0 ≤ q < c →
         (∀ i j, 0 ≤ i < t → 0 ≤ j < n2 → (pi i j, pj i j) ≠ (p, q)) →
         Matrix_at acc p q = Matrix_at m p q)).
  assert (Inv n1 (for_loop n1 (λ i acc,
              for_loop n2 (λ j acc, Matrix_set acc (pi i j) (pj i j) (f i j)) acc) m))
    as (H1 & H2 & H3).
  { apply for_loop_invariant; [done| |].
    - split; [done|]. split; [intros; lia|done].
    - intros t acc Ht (Hacc & Hin & Hout).
      destruct (loop_set_spec r c n2 (pi t) (pj t) (f t) acc Hacc)
        as (Hok' & Hin' & Hout').
      { intros j Hj. by apply Hrange. }
      { intros j j' Hj Hj' E1 E2.
        by destruct (Hinj t j t j' Ht Hj Ht Hj' E1 E2). }
      split; [done|]. split.
      + intros i j Hi Hj. destruct (decide (i = t)) as [->|Hit].
        * by apply Hin'.
        * destruct (Hrange i j ltac:(lia) Hj) as [Hpi Hpj].
          rewrite Hout'; [apply Hin; lia|done|done|].
          intros k Hk [= E1 E2].
          destruct (Hinj t k i j Ht Hk ltac:(lia) Hj E1 E2). lia.
      + intros p q Hp Hq Hfree.
        rewrite Hout'; [|done|done|].
        * apply Hout; [done..|]. intros i j Hi Hj. apply Hfree; lia.
        * intros k Hk. apply Hfree; lia. }
  split; [done|]. split; [done|]. intros p q Hp Hq Hfree. by apply H3.
Qed.

(** Assignments never change the shape, whatever the positions. *)
Lemma for_loop_preserves {S : Type} (P : S → Prop) (n : Z) (body : Z → S → S) (s : S) :
  P s → (∀ k acc, P acc → P (body k acc)) → P (for_loop n body s).
Proof.
  intros Hs Hbody. destruct (decide (0 ≤ n)) as [Hn|Hn].
  - apply (for_loop_invariant (λ _, P)); auto.
  - by rewrite for_loop_done by lia.
Qed.

(** ** Entries of the results of the matrix operations *)

Lemma Matrix_mul_ok a b :
  cols_ a = rows_ b → matrix_ok (rows_ a) (cols_ b) (Matrix_mul a b).
Proof.
  intros Hshape. unfold Matrix_mul.
  rewrite bool_decide_eq_false_2 by (intros ?; done).
  apply (for_loop_preserves (matrix_ok _ _)); [apply matrix_ok_new|].
  intros i acc Hacc.
  apply (for_loop_preserves (matrix_ok _ _)); [done|].
  intros. by apply matrix_ok_set.
Qed.

Lemma Matrix_mul_entries a b i j :
  cols_ a = rows_ b → 0 ≤ i < rows_ a → 0 ≤ j < cols_ b →
  Matrix_at (Matrix_mul a b) i j
  = sum_upto (cols_ a) (λ k, (Matrix_at a i k * Matrix_at b k j)%S).
Proof.
  intros Hshape Hi Hj. unfold Matrix_mul.
  rewrite bool_decide_eq_false_2 by (intros ?; done).
  destruct (nested_loop_set_spec (rows_ a) (cols_ b) (rows_ a) (cols_ b)
              (λ i _, i) (λ _ j, j) (dot_row_col a b)
              (Matrix_new (rows_ a) (cols_ b))) as (_ & Hin & _).
  - apply matrix_ok_new.
  - done.
  - done.
  - by rewrite (Hin i j Hi Hj).
Qed.

Lemma Matrix_add_ok a b :
  rows_ a = rows_ b → cols_ a = cols_ b →
  matrix_ok (rows_ a) (cols_ a) (Matrix_add a b).
Proof.
  intros Hr Hc. unfold Matrix_add.
  rewrite bool_decide_eq_false_2 by (intros [?|?]; done).
  apply (for_loop_preserves (matrix_ok _ _)); [apply matrix_ok_new|].
  intros i acc Hacc.
  apply (for_loop_preserves (matrix_ok _ _)); [done|].
  intros. by apply matrix_ok_set.
Qed.

Lemma Matrix_add_entries a b i j :
  rows_ a = rows_ b → cols_ a = cols_ b → 0 ≤ i < rows_ a → 0 ≤ j < cols_ a →
  Matrix_at (Matrix_add a b) i j = (Matrix_at a i j + Matrix_at b i j)%S.
Proof.
  intros Hr Hc Hi Hj. unfold Matrix_add.
  rewrite bool_decide_eq_false_2 by (intros [?|?]; done).
  destruct (nested_loop_set_spec (rows_ a) (cols_ a) (rows_ a) (cols_ a)
              (λ i _, i) (λ _ j, j)
              (λ i j, (Matrix_at a i j + Matrix_at b i j)%S)
              (Matrix_new (rows_ a) (cols_ a))) as (_ & Hin & _).
  - apply matrix_ok_new.
  - done.
  - done.
  - by rewrite (Hin i j Hi Hj).
Qed.

Lemma Matrix_sub_ok a b :
  rows_ a = rows_ b → cols_ a = cols_ b →
  matrix_ok (rows_ a) (cols_ a) (Matrix_sub a b).
Proof.
  intros Hr Hc. unfold Matrix_sub.
  rewrite bool_decide_eq_false_2 by (intros [?|?]; done).
  apply (for_loop_preserves (matrix_ok _ _)); [apply matrix_ok_new|].
  intros i acc Hacc.
  apply (for_loop_preserves (matrix_ok _ _)); [done|].
  intros. by apply matrix_ok_set.
Qed.

Lemma Matrix_sub_entries a b i j :
  rows_ a = rows_ b → cols_ a = cols_ b → 0 ≤ i < rows_ a → 0 ≤ j < cols_ a →
  Matrix_at (Matrix_sub a b) i j = (Matrix_at a i j - Matrix_at b i j)%S.
Proof.
  intros Hr Hc Hi Hj. unfold Matrix_sub.
  rewrite bool_decide_eq_false_2 by (intros [?|?]; done).
  destruct (nested_loop_set_spec (rows_ a) (cols_ a) (rows_ a) (cols_ a)
              (λ i _, i) (λ _ j, j)
              (λ i j, (Matrix_at a i j - Matrix_at b i j)%S)
              (Matrix_new (rows_ a) (cols_ a))) as (_ & Hin & _).
  - apply matrix_ok_new.
  - done.
  - done.
  - by rewrite (Hin i j Hi Hj).
Qed.

Lemma Matrix_transpose_ok a : matrix_ok (cols_ a) (rows_ a) (Matrix_transpose a).
Proof.
  unfold Matrix_transpose.
  apply (for_loop_preserves (matrix_ok _ _)); [apply matrix_ok_new|].
  intros i acc Hacc.
  apply (for_loop_preserves (matrix_ok _ _)); [done|].
  intros. by apply matrix_ok_set.
Qed.

Lemma Matrix_transpose_entries a i j :
  0 ≤ i < rows_ a → 0 ≤ j < cols_ a →
  Matrix_at (Matrix_transpose a) j i = Matrix_at a i j.
Proof.
  intros Hi Hj. unfold Matrix_transpose.
  destruct (nested_loop_set_spec (cols_ a) (rows_ a) (rows_ a) (cols_ a)
              (λ _ j, j) (λ i _, i) (Matrix_at a)
              (Matrix_new (cols_ a) (rows_ a))) as (_ & Hin & _).
  - apply matrix_ok_new.
  - done.
  - intros; done.
  - by rewrite (Hin i j Hi Hj).
Qed.

Lemma fill_diagonal_ok r c n v m :
  matrix_ok r c m → matrix_ok r c (fill_diagonal n v m).
Proof.
  intros Hok. unfold fill_diagonal.
  apply (for_loop_preserves (matrix_ok _ _)); [done|].
  intros. by apply matrix_ok_set.
Qed.

Lemma fill_diagonal_entries n v i j :
  0 ≤ i < n → 0 ≤ j < n →
  Matrix_at (fill_diagonal n v (Matrix_new n n)) i j
  = if bool_decide (i = j) then v else s0.
Proof.
  intros Hi Hj. unfold fill_diagonal.
  destruct (loop_set_spec n n n (λ k, k) (λ k, k) (λ _, v) (Matrix_new n n))
    as (_ & Hin & Hout).
  - apply matrix_ok_new.
  - done.
  - done.
  - case_bool_decide as Hij.
    + subst j. by rewrite (Hin i Hi).
    + rewrite Hout; [apply Matrix_at_new|done|done|].
      intros k Hk [= -> ->]. done.
Qed.

Lemma Matrix_identity_ok n : matrix_ok n n (Matrix_identity n).
Proof. apply fill_diagonal_ok, matrix_ok_new. Qed.

Lemma Matrix_identity_entries n i j :
  0 ≤ i < n → 0 ≤ j < n → Matrix_at (Matrix_identity n) i j = spec_identity i j.
Proof. apply fill_diagonal_entries. Qed.

Lemma diagonal_inverse_ok n s : matrix_ok n n (diagonal_inverse n s).
Proof.
  unfold diagonal_inverse.
  apply (for_loop_preserves (matrix_ok _ _)); [apply matrix_ok_new|].
  intros. by apply matrix_ok_set.
Qed.

Lemma diagonal_inverse_entries n s i j :
  0 ≤ i < n → 0 ≤ j < n →
  Matrix_at (diagonal_inverse n s) i j = spec_diag_inverse (Matrix_at s) i j.
Proof.
  intros Hi Hj. unfold diagonal_inverse, spec_diag_inverse.
  destruct (loop_set_spec n n n (λ k, k) (λ k, k)
              (λ k, (s1 / Matrix_at s k k)%S) (Matrix_new n n))
    as (_ & Hin & Hout).
  - apply matrix_ok_new.
  - done.
  - done.
  - case_bool_decide as Hij.
    + subst j. by rewrite (Hin i Hi).
    + rewrite Hout; [apply Matrix_at_new|done|done|].
      intros k Hk [= -> ->]. done.
Qed.

Lemma measurement_column_ok (f : KalmanFilter D) z :
  matrix_ok (dimensions_ f) 1 (measurement_column f z).
Proof.
  unfold measurement_column.
  apply (for_loop_preserves (matrix_ok _ _)); [apply matrix_ok_new|].
  intros. by apply matrix_ok_set.
Qed.

Lemma measurement_column_entries (f : KalmanFilter D) z i :
  0 ≤ i < dimensions_ f →
  Matrix_at (measurement_column f z) i 0 = column z i 0.
Proof.
  intros Hi. unfold measurement_column, column.
  destruct (loop_set_spec (dimensions_ f) 1 (dimensions_ f) (λ k, k) (λ _, 0)
              (λ k, default s0 (z !! Z.to_nat k)) (Matrix_new (dimensions_ f) 1))
    as (_ & Hin & _).
  - apply matrix_ok_new.
  - intros; lia.
  - done.
  - by rewrite (Hin i Hi).
Qed.

Lemma spec_identity_sym (i j : Z) : spec_identity (D:=D) i j = spec_identity j i.
Proof.
  unfold spec_identity. destruct (decide (i = j)) as [->|Hne]; [done|].
  by rewrite !bool_decide_eq_false_2 by congruence.
Qed.

Lemma Matrix_transpose_identity (n : Z) :
  0 ≤ n → Matrix_transpose (Matrix_identity (D:=D) n) = Matrix_identity n.
Proof.
  intros Hn. pose proof (Matrix_identity_ok n) as Hok.
  destruct Hok as (Hr & Hc & Hl).
  apply (matrix_ext n n); [done|done| |done|].
  - pose proof (Matrix_transpose_ok (Matrix_identity (D:=D) n)) as Ht.
    by rewrite Hr, Hc in Ht.
  - intros i j Hi Hj. unfold entries.
    rewrite Matrix_transpose_entries by lia.
    rewrite !Matrix_identity_entries by done. apply spec_identity_sym.
Qed.

(** ** Sums *)

Lemma sum_upto_ext (n : Z) (t t' : Z → D) :
  (∀ k, 0 ≤ k < n → t k = t' k) → sum_upto n t = sum_upto n t'.
Proof.
  intros Hext. apply (for_loop_ext n (λ k acc, (acc + t k)%S)).
  intros k acc Hk. by rewrite Hext.
Qed.

Lemma spec_mul_ext (r c n : Z) (A A' B B' : mat D) :
  mat_eq r n A A' → mat_eq n c B B' →
  mat_eq r c (spec_mul n A B) (spec_mul n A' B').
Proof.
  intros HA HB i j Hi Hj. unfold spec_mul. apply sum_upto_ext.
  intros k Hk. by rewrite HA, HB.
Qed.

Lemma spec_add_ext (r c : Z) (A A' B B' : mat D) :
  mat_eq r c A A' → mat_eq r c B B' → mat_eq r c (spec_add A B) (spec_add A' B').
Proof. intros HA HB i j Hi Hj. unfold spec_add. by rewrite HA, HB. Qed.

Lemma spec_sub_ext (r c : Z) (A A' B B' : mat D) :
  mat_eq r c A A' → mat_eq r c B B' → mat_eq r c (spec_sub A B) (spec_sub A' B').
Proof. intros HA HB i j Hi Hj. unfold spec_sub. by rewrite HA, HB. Qed.

Lemma spec_diag_inverse_ext (n : Z) (S S' : mat D) :
  mat_eq n n S S' → mat_eq n n (spec_diag_inverse S) (spec_diag_inverse S').
Proof.
  intros HS i j Hi Hj. unfold spec_diag_inverse.
  case_bool_decide; [|done]. by rewrite HS.
Qed.

Lemma mat_eq_trans (r c : Z) (A B C : mat D) :
  mat_eq r c A B → mat_eq r c B C → mat_eq r c A C.
Proof. intros H1 H2 i j Hi Hj. by rewrite H1, H2. Qed.

Lemma mat_eq_refl (r c : Z) (A : mat D) : mat_eq r c A A.
Proof. by intros i j _ _. Qed.

(** The operations of the class compute the textbook operations. *)
Lemma Matrix_mul_spec a b :
  cols_ a = rows_ b →
  mat_eq (rows_ a) (cols_ b) (entries (Matrix_mul a b))
    (spec_mul (cols_ a) (entries a) (entries b)).
Proof. intros Hs i j Hi Hj. by apply Matrix_mul_entries. Qed.

Lemma Matrix_add_spec a b :
  rows_ a = rows_ b → cols_ a = cols_ b →
  mat_eq (rows_ a) (cols_ a) (entries (Matrix_add a b))
    (spec_add (entries a) (entries b)).
Proof. intros Hr Hc i j Hi Hj. by apply Matrix_add_entries. Qed.

Lemma Matrix_sub_spec a b :
  rows_ a = rows_ b → cols_ a = cols_ b →
  mat_eq (rows_ a) (cols_ a) (entries (Matrix_sub a b))
    (spec_sub (entries a) (entries b)).
Proof. intros Hr Hc i j Hi Hj. by apply Matrix_sub_entries. Qed.

(** ** Shapes and entries, from the class invariant of the operands *)

Lemma Matrix_mul_shape (r n c : Z) a b :
  matrix_ok r n a → matrix_ok n c b →
  matrix_ok r c (Matrix_mul a b)
  ∧ mat_eq r c (entries (Matrix_mul a b)) (spec_mul n (entries a) (entries b)).
Proof.
  intros (Har & Hac & _) (Hbr & Hbc & _).
  pose proof (Matrix_mul_ok a b ltac:(congruence)) as Hok.
  pose proof (Matrix_mul_spec a b ltac:(congruence)) as Hsp.
  rewrite Har, Hbc in Hok. rewrite Har, Hbc, Hac in Hsp. done.
Qed.

Lemma Matrix_add_shape (r c : Z) a b :
  matrix_ok r c a → matrix_ok r c b →
  matrix_ok r c (Matrix_add a b)
  ∧ mat_eq r c (entries (Matrix_add a b)) (spec_add (entries a) (entries b)).
Proof.
  intros (Har & Hac & _) (Hbr & Hbc & _).
  pose proof (Matrix_add_ok a b ltac:(congruence) ltac:(congruence)) as Hok.
  pose proof (Matrix_add_spec a b ltac:(congruence) ltac:(congruence)) as Hsp.
  rewrite Har, Hac in Hok, Hsp. done.
Qed.

Lemma Matrix_sub_shape (r c : Z) a b :
  matrix_ok r c a → matrix_ok r c b →
  matrix_ok r c (Matrix_sub a b)
  ∧ mat_eq r c (entries (Matrix_sub a b)) (spec_sub (entries a) (entries b)).
Proof.
  intros (Har & Hac & _) (Hbr & Hbc & _).
  pose proof (Matrix_sub_ok a b ltac:(congruence) ltac:(congruence)) as Hok.
  pose proof (Matrix_sub_spec a b ltac:(congruence) ltac:(congruence)) as Hsp.
  rewrite Har, Hac in Hok, Hsp. done.
Qed.

Lemma Matrix_transpose_shape (r c : Z) a :
  matrix_ok r c a → matrix_ok c r (Matrix_transpose a).
Proof.
  intros (Har & Hac & _). pose proof (Matrix_transpose_ok a) as Hok.
  by rewrite Har, Hac in Hok.
Qed.

(** The copy of the state into the output buffer. *)
Lemma copy_out_spec (n : Z) (x : Matrix D) (buf : list D) :
  length buf = Z.to_nat n →
  length (copy_out n x buf) = Z.to_nat n
  ∧ ∀ i, 0 ≤ i < n → copy_out n x buf !! Z.to_nat i = Some (Matrix_at x i 0).
Proof.
  intros Hlen. unfold copy_out.
  destruct (decide (0 ≤ n)) as [Hn|Hn].
  2:{ rewrite for_loop_done by lia. split; [done|]. intros; lia. }
  apply (for_loop_invariant
           (λ k acc, length acc = Z.to_nat n
                     ∧ ∀ i, 0 ≤ i < k → acc !! Z.to_nat i = Some (Matrix_at x i 0))
           n _ buf Hn).
  - split; [done|]. intros; lia.
  - intros k acc Hk [Hl Hacc]. split; [by rewrite length_insert|].
    intros i Hi. destruct (decide (i = k)) as [->|Hne].
    + apply list_lookup_insert_eq. lia.
    + rewrite list_lookup_insert_ne by lia. apply Hacc. lia.
Qed.

(** The locals of [update] have the shapes the algorithm expects: no
    operation of the recursion takes its mismatch branch. *)
Lemma update_locals_ok (f : KalmanFilter D) ms :
  filter_ok f →
  matrix_ok (dimensions_ f) 1 (measurement_column f ms)
  ∧ matrix_ok (dimensions_ f) 1 (predicted_state f)
  ∧ matrix_ok (dimensions_ f) (dimensions_ f) (predicted_covariance f)
  ∧ matrix_ok (dimensions_ f) (dimensions_ f) (innovation_covariance f)
  ∧ matrix_ok (dimensions_ f) (dimensions_ f) (inv_innovation_covariance f)
  ∧ matrix_ok (dimensions_ f) (dimensions_ f) (kalman_gain f).
Proof.
  intros (Hn & Hx & HQ & HR & HP & HF & HH & Hbuf).
  set (n := dimensions_ f) in *.
  pose proof (Matrix_identity_ok n) as HI.
  assert (matrix_ok n n (predicted_covariance f)) as HpP.
  { unfold predicted_covariance. rewrite HF.
    apply Matrix_add_shape; [|done].
    apply (Matrix_mul_shape n n n); [|by apply Matrix_transpose_shape].
    by apply (Matrix_mul_shape n n n). }
  assert (matrix_ok n n (inv_innovation_covariance f)) as Hinv.
  { apply diagonal_inverse_ok. }
  split; [apply measurement_column_ok|].
  split; [unfold predicted_state; rewrite HF; by apply (Matrix_mul_shape n n 1)|].
  split; [done|].
  split; [unfold innovation_covariance; by apply Matrix_add_shape|].
  split; [done|].
  unfold kalman_gain. by apply (Matrix_mul_shape n n n).
Qed.

(** [update] with the right count returns a result and keeps the
    data-model invariant, in any arithmetic. *)
Lemma update_preserves_ok (f : KalmanFilter D) ms :
  filter_ok f →
  filter_ok (KalmanFilter_update f ms (dimensions_ f)).1
  ∧ dimensions_ (KalmanFilter_update f ms (dimensions_ f)).1 = dimensions_ f
  ∧ process_noise_ (KalmanFilter_update f ms (dimensions_ f)).1 = process_noise_ f
  ∧ measurement_noise_ (KalmanFilter_update f ms (dimensions_ f)).1
    = measurement_noise_ f
  ∧ transition_matrix_ (KalmanFilter_update f ms (dimensions_ f)).1
    = transition_matrix_ f
  ∧ measurement_matrix_ (KalmanFilter_update f ms (dimensions_ f)).1
    = measurement_matrix_ f
  ∧ (KalmanFilter_update f ms (dimensions_ f)).2
    = Some (estimated_state_ (KalmanFilter_update f ms (dimensions_ f)).1)
  ∧ ∀ i, 0 ≤ i < dimensions_ f →
      estimated_state_ (KalmanFilter_update f ms (dimensions_ f)).1 !! Z.to_nat i
      = Some (Matrix_at (state_ (KalmanFilter_update f ms (dimensions_ f)).1) i 0).
Proof.
  intros Hok.
  destruct (update_locals_ok f ms Hok) as (Hz & Hpx & HpP & HS & Hinv & HK).
  destruct Hok as (Hn & Hx & HQ & HR & HP & HF & HH & Hbuf).
  unfold KalmanFilter_update.
  rewrite bool_decide_eq_false_2 by (intros ?; done). simpl.
  set (n := dimensions_ f) in *.
  pose proof (Matrix_identity_ok n) as HI.
  set (x' := Matrix_add _ _).
  assert (matrix_ok n 1 x') as Hx'.
  { apply Matrix_add_shape; [done|].
    apply (Matrix_mul_shape n n 1); [done|]. by apply Matrix_sub_shape. }
  destruct (copy_out_spec n x' (estimated_state_ f) Hbuf) as [Hlen Hout].
  split.
  { unfold filter_ok; simpl. fold n. split; [done|]. split; [done|].
    split; [done|]. split; [done|]. split; [|done].
    apply (Matrix_mul_shape n n n); [|done]. by apply Matrix_sub_shape. }
  repeat (split; [done|]). done.
Qed.




(** The locals of [update] are the matrices of the spec recursion. *)
Lemma update_locals_spec (f : KalmanFilter D) :
  filter_ok f →
  predicted_covariance f = Matrix_add (state_covariance_ f) (process_noise_ f) →
  let n := dimensions_ f in
  let P := entries (state_covariance_ f) in
  let Q := entries (process_noise_ f) in
  let R := entries (measurement_noise_ f) in
  mat_eq n n (entries (predicted_covariance f)) (spec_predicted_P P Q)
  ∧ mat_eq n n (entries (innovation_covariance f)) (spec_S P Q R)
  ∧ mat_eq n n (entries (inv_innovation_covariance f))
      (spec_diag_inverse (spec_S P Q R))
  ∧ mat_eq n n (entries (kalman_gain f)) (spec_K n P Q R).
Proof.
  intros Hok HpPeq n P Q R.
  destruct (update_locals_ok f [] Hok) as (_ & _ & HpP & HS & Hinv & HK).
  destruct Hok as (Hn & Hx & HQ & HR & HP & HF & HH & Hbuf). fold n in HP, HQ, HR.
  assert (mat_eq n n (entries (predicted_covariance f)) (spec_predicted_P P Q)) as E1.
  { rewrite HpPeq. by apply Matrix_add_shape. }
  assert (mat_eq n n (entries (innovation_covariance f)) (spec_S P Q R)) as E2.
  { unfold innovation_covariance, spec_S.
    eapply mat_eq_trans; [by apply Matrix_add_shape|].
    apply spec_add_ext; [done|apply mat_eq_refl]. }
  assert (mat_eq n n (entries (inv_innovation_covariance f))
            (spec_diag_inverse (spec_S P Q R))) as E3.
  { eapply mat_eq_trans; [|by apply spec_diag_inverse_ext].
    intros i j Hi Hj. by apply diagonal_inverse_entries. }
  split; [done|]. split; [done|]. split; [done|].
  unfold kalman_gain, spec_K.
  eapply mat_eq_trans; [by apply (Matrix_mul_shape n n n)|].
  by apply spec_mul_ext.
Qed.

Lemma measurement_column_spec (f : KalmanFilter D) ms :
  mat_eq (dimensions_ f) 1 (entries (measurement_column f ms)) (column ms).
Proof.
  intros i j Hi Hj. assert (j = 0) as -> by lia.
  by apply measurement_column_entries.
Qed.

(** One call of [update] with the right count, when the predict step is
    neutral. *)
Lemma update_spec (f : KalmanFilter D) ms :
  filter_ok f →
  predicted_state f = state_ f →
  predicted_covariance f = Matrix_add (state_covariance_ f) (process_noise_ f) →
  let n := dimensions_ f in
  let x := entries (state_ f) in
  let P := entries (state_covariance_ f) in
  let Q := entries (process_noise_ f) in
  let R := entries (measurement_noise_ f) in
  let f' := (KalmanFilter_update f ms n).1 in
  mat_eq n 1 (entries (state_ f')) (spec_new_x n x P Q R (column ms))
  ∧ mat_eq n n (entries (state_covariance_ f')) (spec_new_P n P Q R).
Proof.
  intros Hok Hpxeq HpPeq n x P Q R f'.
  destruct (update_locals_ok f ms Hok) as (Hz & Hpx & HpP & HS & Hinv & HK).
  destruct (update_locals_spec f Hok HpPeq) as (EpP & ES & Einv & EK).
  pose proof (measurement_column_spec f ms) as Ez.
  destruct Hok as (Hn & Hx & HQ & HR & HP & HF & HH & Hbuf).
  fold n in Hz, Hpx, HpP, HS, Hinv, HK, EpP, ES, Einv, EK, Ez, Hx |- *.
  fold P Q R in EpP, ES, Einv, EK.
  subst f'. unfold KalmanFilter_update.
  rewrite bool_decide_eq_false_2 by (intros ?; done). simpl.
  pose proof (Matrix_identity_ok n) as HI.
  assert (matrix_ok n 1 (Matrix_sub (measurement_column f ms) (predicted_state f))
          ∧ mat_eq n 1
              (entries (Matrix_sub (measurement_column f ms) (predicted_state f)))
              (spec_sub (column ms) x)) as [Hy Ey].
  { split; [by apply Matrix_sub_shape|].
    eapply mat_eq_trans; [by apply Matrix_sub_shape|].
    apply spec_sub_ext; [done|]. rewrite Hpxeq. apply mat_eq_refl. }
  split.
  - unfold spec_new_x.
    eapply mat_eq_trans.
    { apply Matrix_add_shape; [done|]. by apply (Matrix_mul_shape n n 1). }
    apply spec_add_ext; [rewrite Hpxeq; apply mat_eq_refl|].
    eapply mat_eq_trans; [by apply (Matrix_mul_shape n n 1)|].
    by apply spec_mul_ext.
  - unfold spec_new_P.
    eapply mat_eq_trans.
    { apply (Matrix_mul_shape n n n); [|done]. by apply Matrix_sub_shape. }
    apply spec_mul_ext; [|done].
    eapply mat_eq_trans; [by apply Matrix_sub_shape|].
    apply spec_sub_ext; [|done].
    intros i j Hi Hj. by apply Matrix_identity_entries.
Qed.

End MatrixFacts.

(** ** The registry: updates, destruction and their frame *)

Section RegistryFacts.
Context {D : Type} {SD : Scalar D}.
Implicit Types reg : Registry D.
Implicit Types f : KalmanFilter D.

Lemma update_mismatch f ms count :
  count ≠ dimensions_ f → KalmanFilter_update f ms count = (f, None).
Proof.
  intros Hne. unfold KalmanFilter_update. by rewrite bool_decide_eq_true_2.
Qed.

Lemma registry_eq reg reg' :
  g_filters reg = g_filters reg' → g_next_handle reg = g_next_handle reg' →
  reg = reg'.
Proof. destruct reg, reg'; simpl; intros -> ->; done. Qed.

Lemma kf_update_unknown reg h ms count :
  g_filters reg !! h = None → kf_update reg h ms count = (reg, None).
Proof. intros Hh. unfold kf_update. by rewrite Hh. Qed.

Lemma kf_update_known reg h f ms count :
  g_filters reg !! h = Some f →
  kf_update reg h ms count
  = (mkRegistry (<[h := (KalmanFilter_update f ms count).1]> (g_filters reg))
       (g_next_handle reg),
     (KalmanFilter_update f ms count).2).
Proof.
  intros Hh. unfold kf_update. rewrite Hh.
  by destruct (KalmanFilter_update f ms count).
Qed.

Lemma kf_destroy_unknown reg h :
  g_filters reg !! h = None → kf_destroy reg h = reg.
Proof. intros Hh. unfold kf_destroy. by rewrite Hh. Qed.

Lemma kf_destroy_lookup reg h h' :
  g_filters (kf_destroy reg h) !! h'
  = if decide (h = h') then None else g_filters reg !! h'.
Proof.
  unfold kf_destroy. destruct (g_filters reg !! h) eqn:Hh; simpl.
  - rewrite lookup_delete. by destruct (decide (h = h')).
  - case_decide; [by subst|done].
Qed.

Lemma kf_destroy_counter reg h :
  g_next_handle (kf_destroy reg h) = g_next_handle reg.
Proof. unfold kf_destroy. by destruct (g_filters reg !! h). Qed.

Lemma kf_update_counter reg h ms count :
  g_next_handle (kf_update reg h ms count).1 = g_next_handle reg.
Proof.
  unfold kf_update. destruct (g_filters reg !! h); [|done].
  by destruct (KalmanFilter_update _ ms count).
Qed.

Lemma kf_update_lookup_other reg h h' ms count :
  h ≠ h' →
  g_filters (kf_update reg h ms count).1 !! h' = g_filters reg !! h'.
Proof.
  intros Hne. unfold kf_update. destruct (g_filters reg !! h); [|done].
  destruct (KalmanFilter_update _ ms count); simpl.
  by rewrite lookup_insert_ne.
Qed.

Lemma kf_update_dom reg h ms count :
  dom (g_filters (kf_update reg h ms count).1) = dom (g_filters reg).
Proof.
  unfold kf_update. destruct (g_filters reg !! h) as [f|] eqn:Hh; [|done].
  destruct (KalmanFilter_update f ms count); simpl.
  rewrite dom_insert_L. apply elem_of_dom_2 in Hh.
  apply set_eq. intros h'. rewrite elem_of_union, elem_of_singleton.
  split; [intros [->|?]; done|by right].
Qed.

End RegistryFacts.

(** ** The constructor *)

Section ConstructorFacts.
Context {D : Type} {SD : Scalar D}.

Lemma KalmanFilter_new_ok dimensions (pn mn : D) :
  0 < dimensions → filter_ok (KalmanFilter_new dimensions pn mn).
Proof.
  intros Hd. unfold filter_ok, KalmanFilter_new; simpl.
  split; [done|]. split; [apply matrix_ok_new|].
  repeat (split; [apply fill_diagonal_ok, matrix_ok_new|]).
  split; [done|]. split; [done|]. by rewrite length_replicate.
Qed.

Lemma KalmanFilter_new_entries dimensions (pn mn : D) :
  let f := KalmanFilter_new dimensions pn mn in
  mat_eq dimensions 1 (entries (state_ f)) spec_zero
  ∧ mat_eq dimensions dimensions (entries (process_noise_ f)) (spec_scaled_identity pn)
  ∧ mat_eq dimensions dimensions (entries (measurement_noise_ f)) (spec_scaled_identity mn)
  ∧ mat_eq dimensions dimensions (entries (state_covariance_ f)) spec_identity
  ∧ mat_eq dimensions dimensions (entries (transition_matrix_ f)) spec_identity
  ∧ mat_eq dimensions dimensions (entries (measurement_matrix_ f)) spec_identity.
Proof.
  simpl. split; [intros i j _ _; apply Matrix_at_new|].
  repeat split; intros i j Hi Hj; by apply fill_diagonal_entries.
Qed.

Lemma is_diagonal_eq (n : Z) (A B : mat D) :
  mat_eq n n A B → is_diagonal n B → is_diagonal n A.
Proof. intros Heq HB i j Hi Hj Hne. rewrite Heq by done. by apply HB. Qed.

(** A fresh filter has diagonal covariances. *)
Lemma covariances_diagonal_new (n : Z) (pn mn : D) :
  0 < n → covariances_diagonal (KalmanFilter_new n pn mn).
Proof.
  intros Hn. destruct (KalmanFilter_new_entries n pn mn)
    as (_ & HQ & HR & HP & _).
  split; [by apply KalmanFilter_new_ok|]. simpl in *.
  split; [apply (is_diagonal_eq n _ _ HP)|split].
  - intros i j _ _ Hne. unfold spec_identity. by rewrite bool_decide_eq_false_2.
  - apply (is_diagonal_eq n _ _ HQ). intros i j _ _ Hne.
    unfold spec_scaled_identity. by rewrite bool_decide_eq_false_2.
  - apply (is_diagonal_eq n _ _ HR). intros i j _ _ Hne.
    unfold spec_scaled_identity. by rewrite bool_decide_eq_false_2.
Qed.

End ConstructorFacts.

(** ** The handle counter and call traces *)

Lemma wrap_int_id (z : Z) : INT_MIN ≤ z ≤ INT_MAX → wrap_int z = z.
Proof.
  unfold INT_MIN, INT_MAX, wrap_int. intros Hz.
  rewrite Z.mod_small by lia. lia.
Qed.

Lemma wrap_int_succ (z : Z) : wrap_int (wrap_int z + 1) = wrap_int (z + 1).
Proof.
  unfold wrap_int. f_equal.
  replace ((z + 2147483648) `mod` 4294967296 - 2147483648 + 1 + 2147483648)
    with ((z + 2147483648) `mod` 4294967296 + 1) by lia.
  rewrite Z.add_mod_idemp_l by lia. f_equal. lia.
Qed.

Section TraceFacts.
Context {D : Type} {SD : Scalar D}.
Implicit Types reg : Registry D.
Implicit Types tr : list (Event (D:=D)).
Implicit Types calls : list (Call (D:=D)).

Lemma api_run_nil reg : api_run reg [] = (reg, []).
Proof. reflexivity. Qed.

Lemma api_run_snoc reg calls c :
  api_run reg (calls ++ [c])
  = ((api_step (api_run reg calls).1 c).1,
     (api_run reg calls).2 ++ [(api_step (api_run reg calls).1 c).2]).
Proof.
  unfold api_run. rewrite foldl_snoc.
  destruct (foldl _ _ calls) as [reg' tr]; simpl.
  by destruct (api_step reg' c).
Qed.

Lemma created_handles_app tr1 tr2 :
  created_handles (tr1 ++ tr2) = created_handles tr1 ++ created_handles tr2.
Proof. apply omap_app. Qed.

Lemma elem_of_created_handles tr h : h ∈ created_handles tr ↔ Created h ∈ tr.
Proof.
  unfold created_handles. rewrite list_elem_of_omap. split.
  - intros (e & He & Hf). destruct e; simplify_eq. done.
  - intros He. by exists (Created h).
Qed.

Lemma kf_create_failed reg dimensions pn mn :
  dimensions ≤ 0 → kf_create reg dimensions pn mn = (reg, 0).
Proof. intros Hd. unfold kf_create. by rewrite bool_decide_eq_true_2. Qed.

Lemma kf_create_succeeded reg dimensions pn mn :
  0 < dimensions →
  kf_create reg dimensions pn mn
  = (mkRegistry
       (<[g_next_handle reg := KalmanFilter_new dimensions pn mn]> (g_filters reg))
       (wrap_int (g_next_handle reg + 1)),
     g_next_handle reg).
Proof. intros Hd. unfold kf_create. by rewrite bool_decide_eq_false_2 by lia. Qed.

(** What one API call does to the counter, to the set of live handles and
    to the trace. *)
Lemma api_step_create_ok reg dimensions pn mn :
  0 < dimensions →
  api_step reg (CallCreate dimensions pn mn)
  = (mkRegistry
       (<[g_next_handle reg := KalmanFilter_new dimensions pn mn]> (g_filters reg))
       (wrap_int (g_next_handle reg + 1)),
     Created (g_next_handle reg)).
Proof.
  intros Hd. unfold api_step. rewrite kf_create_succeeded by done.
  by rewrite bool_decide_eq_false_2 by lia.
Qed.

Lemma api_step_create_failed reg dimensions pn mn :
  dimensions ≤ 0 →
  api_step reg (CallCreate dimensions pn mn) = (reg, CreateFailed).
Proof.
  intros Hd. unfold api_step. rewrite kf_create_failed by done.
  by rewrite bool_decide_eq_true_2.
Qed.

Lemma snoc_split_inv {A} (l l1 l2 : list A) (x y : A) :
  l ++ [x] = l1 ++ y :: l2 →
  (l2 = [] ∧ l = l1 ∧ x = y) ∨ (∃ l2', l2 = l2' ++ [x] ∧ l = l1 ++ y :: l2').
Proof.
  intros Heq. destruct l2 as [|z l2 _] using rev_ind.
  - left. apply app_inj_tail in Heq as [-> ->]. done.
  - right. exists l2.
    rewrite app_comm_cons, app_assoc in Heq.
    apply app_inj_tail in Heq as [-> ->]. done.
Qed.

Lemma trace_invariant_step reg tr c :
  trace_invariant reg tr →
  trace_invariant (api_step reg c).1 (tr ++ [(api_step reg c).2]).
Proof.
  intros (Hcnt & Hidx & Hlive & Hdes).
  assert (∀ e, (∀ h, e ≠ Created h) → created_handles (tr ++ [e]) = created_handles tr)
    as Hsame.
  { intros e He. rewrite created_handles_app. unfold created_handles at 2; simpl.
    destruct e; simpl; rewrite ?app_nil_r; try done. by destruct (He handle). }
  assert (∀ e reg', (∀ h, e ≠ Created h) → (∀ h, e ≠ Destroyed h) →
            g_next_handle reg' = g_next_handle reg →
            (∀ h, is_Some (g_filters reg' !! h) → is_Some (g_filters reg !! h)) →
            trace_invariant reg' (tr ++ [e])) as Hquiet.
  { intros e reg' He1 He2 Hc Hl. unfold trace_invariant.
    rewrite (Hsame e He1). split; [by rewrite Hc|]. split; [done|].
    split; [by auto|]. intros tr1 h tr2 Hsplit.
    apply snoc_split_inv in Hsplit as [(_ & _ & ->)|(l2' & -> & ->)].
    - by destruct (He2 h).
    - by apply (Hdes _ _ l2'). }
  destruct c as [dimensions pn mn|h ms count|h].
  - destruct (decide (0 < dimensions)) as [Hd|Hd].
    + rewrite api_step_create_ok by done; simpl. unfold trace_invariant; simpl.
      rewrite created_handles_app. unfold created_handles at 2 4 6; simpl.
      rewrite length_app; simpl. split; [|split; [|split]].
      * rewrite Hcnt, wrap_int_succ. f_equal. lia.
      * intros i h' Hi.
        destruct (decide (i < length (created_handles tr))%nat) as [Hlt|Hge].
        -- rewrite lookup_app_l in Hi by done. by apply Hidx.
        -- rewrite lookup_app_r in Hi by lia.
           destruct (i - length (created_handles tr))%nat as [|?] eqn:E;
             simpl in Hi; [|done].
           injection Hi as <-. rewrite Hcnt. f_equal. lia.
      * intros h' Hh'. rewrite elem_of_app.
        destruct (decide (h' = g_next_handle reg)) as [->|Hne].
        -- right. apply list_elem_of_singleton. done.
        -- left. apply Hlive. by rewrite lookup_insert_ne in Hh'.
      * intros tr1 h' tr2 Hsplit.
        apply snoc_split_inv in Hsplit as [(_ & _ & ?)|(l2' & -> & ->)]; [done|].
        by apply (Hdes _ _ l2').
    + rewrite api_step_create_failed by lia; simpl.
      apply Hquiet; try done.
  - unfold api_step.
    destruct (kf_update reg h ms count) as [reg' out] eqn:Hup; simpl.
    apply Hquiet; try done.
    + replace reg' with (kf_update reg h ms count).1 by (by rewrite Hup).
      apply kf_update_counter.
    + intros h'. replace reg' with (kf_update reg h ms count).1 by (by rewrite Hup).
      rewrite <- !elem_of_dom, kf_update_dom. done.
  - unfold api_step; simpl. case_bool_decide as Hh.
    + unfold trace_invariant. rewrite Hsame by done.
      rewrite kf_destroy_counter. split; [done|]. split; [done|]. split.
      * intros h'. rewrite kf_destroy_lookup. case_decide; [by intros [? ?]|].
        apply Hlive.
      * intros tr1 h' tr2 Hsplit.
        apply snoc_split_inv in Hsplit as [(_ & -> & [= ->])|(l2' & -> & ->)].
        -- by apply Hlive.
        -- by apply (Hdes _ _ l2').
    + apply Hquiet; try done.
      * apply kf_destroy_counter.
      * intros h'. rewrite kf_destroy_lookup. case_decide; [by intros [? ?]|done].
Qed.

Lemma trace_invariant_run calls :
  trace_invariant (api_run registry_init calls).1 (api_run registry_init calls).2.
Proof.
  induction calls as [|c calls IH] using rev_ind.
  - rewrite api_run_nil; simpl. unfold trace_invariant; simpl.
    split; [done|]. split; [done|]. split.
    + intros h [? Hh]. by rewrite lookup_empty in Hh.
    + intros tr1 h tr2 Hsplit. by destruct tr1.
  - rewrite api_run_snoc; simpl. by apply trace_invariant_step.
Qed.

(** Before the counter wraps, the handles issued are 1, 2, 3, ... *)
Lemma issued_handle_before_wrap calls (i : nat) h :
  Z.of_nat (length (created_handles (api_run registry_init calls).2)) ≤ INT_MAX →
  created_handles (api_run registry_init calls).2 !! i = Some h →
  h = 1 + Z.of_nat i.
Proof.
  intros Hk Hi. destruct (trace_invariant_run calls) as (_ & Hidx & _).
  rewrite (Hidx i h Hi). apply wrap_int_id.
  apply lookup_lt_Some in Hi. unfold INT_MIN, INT_MAX in *. lia.
Qed.

Lemma counter_before_wrap calls :
  Z.of_nat (length (created_handles (api_run registry_init calls).2)) < INT_MAX →
  g_next_handle (api_run registry_init calls).1
  = 1 + Z.of_nat (length (created_handles (api_run registry_init calls).2)).
Proof.
  intros Hk. destruct (trace_invariant_run calls) as (Hcnt & _).
  rewrite Hcnt. apply wrap_int_id. unfold INT_MIN, INT_MAX in *. lia.
Qed.

(** [n] successful creates in a row issue [n] handles. *)
Lemma run_creates_length (n : nat) dimensions pn mn :
  0 < dimensions →
  length (created_handles
            (api_run registry_init (replicate n (CallCreate dimensions pn mn))).2) = n.
Proof.
  intros Hd. induction n as [|n IH]; [done|].
  rewrite replicate_S_end, api_run_snoc.
  rewrite api_step_create_ok by done; simpl.
  rewrite created_handles_app, length_app, IH. simpl. lia.
Qed.

Lemma run_creates_counter (n : Z) dimensions pn mn :
  0 ≤ n → 0 < dimensions →
  g_next_handle
    (api_run registry_init (replicate (Z.to_nat n) (CallCreate dimensions pn mn))).1
  = wrap_int (1 + n).
Proof.
  intros Hn Hd.
  destruct (trace_invariant_run (replicate (Z.to_nat n) (CallCreate dimensions pn mn)))
    as (Hcnt & _).
  rewrite Hcnt, run_creates_length by done. f_equal. lia.
Qed.

(** Before the counter wraps, a handle that was never issued, the handle 0
    and a handle whose filter was destroyed are not mapped. *)
Lemma unissued_handle_unmapped calls h :
  h ∉ created_handles (api_run registry_init calls).2 →
  g_filters (api_run registry_init calls).1 !! h = None.
Proof.
  intros Hh. destruct (trace_invariant_run calls) as (_ & _ & Hlive & _).
  destruct (g_filters (api_run registry_init calls).1 !! h) eqn:E; [|done].
  destruct Hh. apply Hlive. by rewrite E.
Qed.

Lemma zero_handle_unmapped calls :
  Z.of_nat (length (created_handles (api_run registry_init calls).2)) ≤ INT_MAX →
  g_filters (api_run registry_init calls).1 !! 0 = None.
Proof.
  intros Hk. apply unissued_handle_unmapped. intros Hin.
  apply list_elem_of_lookup in Hin as [i Hi].
  pose proof (issued_handle_before_wrap calls i 0 Hk Hi). lia.
Qed.

Lemma destroyed_handle_unmapped calls h :
  Z.of_nat (length (created_handles (api_run registry_init calls).2)) ≤ INT_MAX →
  Destroyed h ∈ (api_run registry_init calls).2 →
  g_filters (api_run registry_init calls).1 !! h = None.
Proof.
  revert h. induction calls as [|c calls IH] using rev_ind; intros h Hk Hin.
  { rewrite api_run_nil in Hin. by apply elem_of_nil in Hin. }
  destruct (trace_invariant_run calls) as (_ & _ & _ & Hdes).
  pose proof (issued_handle_before_wrap calls) as Hidx.
  rewrite api_run_snoc in Hk, Hin |- *. simpl in Hk, Hin |- *.
  set (reg := (api_run registry_init calls).1) in *.
  set (tr := (api_run registry_init calls).2) in *.
  rewrite created_handles_app, length_app in Hk.
  assert (Z.of_nat (length (created_handles tr)) ≤ INT_MAX) as Hk' by lia.
  apply elem_of_app in Hin as [Hin|Hin].
  - specialize (IH h Hk' Hin).
    destruct c as [dimensions pn mn|h' ms count|h'].
    + destruct (decide (0 < dimensions)) as [Hd|Hd].
      * rewrite api_step_create_ok in Hk |- * by done. simpl in Hk |- *.
        rewrite lookup_insert_ne; [done|].
        apply list_elem_of_split in Hin as (l1 & l2 & Htr).
        pose proof (Hdes l1 h l2 Htr) as Hcr.
        assert (h ∈ created_handles tr) as Hcr'.
        { rewrite Htr, created_handles_app, elem_of_app. by left. }
        apply list_elem_of_lookup in Hcr' as [i Hi].
        pose proof (Hidx i h Hk' Hi) as ->.
        apply lookup_lt_Some in Hi.
        assert (g_next_handle reg = 1 + Z.of_nat (length (created_handles tr)))
          as Hcnt by (apply counter_before_wrap; fold tr; lia).
        lia.
      * by rewrite api_step_create_failed by lia.
    + unfold api_step.
      destruct (kf_update reg h' ms count) as [reg' out] eqn:Hup; simpl.
      replace reg' with (kf_update reg h' ms count).1 by (by rewrite Hup).
      apply not_elem_of_dom. rewrite kf_update_dom. by apply not_elem_of_dom.
    + unfold api_step; simpl. rewrite kf_destroy_lookup. by case_decide.
  - apply list_elem_of_singleton in Hin.
    destruct c as [dimensions pn mn|h' ms count|h'].
    + unfold api_step in Hin.
      destruct (kf_create reg dimensions pn mn); simpl in Hin.
      by case_bool_decide.
    + unfold api_step in Hin.
      by destruct (kf_update reg h' ms count).
    + unfold api_step in Hin |- *; simpl in Hin |- *.
      case_bool_decide; [|done]. injection Hin as ->.
      rewrite kf_destroy_lookup. by rewrite decide_True.
Qed.

End TraceFacts.

(** ** The constructor's failure *)

Section FallibleFacts.
Context {D : Type} {SD : Scalar D}.
Implicit Types a b : Matrix D.

Lemma fallible_Matrix_new_returns (rows cols : Z) :
  0 ≤ rows * cols ≤ INT_MAX →
  Fallible.Matrix_new (D:=D) rows cols = Some (Matrix_new rows cols).
Proof. intros H. unfold Fallible.Matrix_new. by rewrite bool_decide_eq_true_2. Qed.

Lemma fallible_Matrix_new_fails (rows cols : Z) :
  ¬ (0 ≤ rows * cols ≤ INT_MAX) → Fallible.Matrix_new (D:=D) rows cols = None.
Proof. intros H. unfold Fallible.Matrix_new. by rewrite bool_decide_eq_false_2. Qed.

Lemma fallible_Matrix_new_empty :
  Fallible.Matrix_new (D:=D) 0 0 = Some (mkMatrix 0 0 []).
Proof. reflexivity. Qed.

Lemma fallible_Matrix_mul_mismatch a b :
  cols_ a ≠ rows_ b → Fallible.Matrix_mul a b = Some (mkMatrix 0 0 []).
Proof. intros H. unfold Fallible.Matrix_mul. by rewrite bool_decide_eq_true_2. Qed.

Lemma fallible_Matrix_mul_returns a b :
  cols_ a = rows_ b → 0 ≤ rows_ a * cols_ b ≤ INT_MAX →
  Fallible.Matrix_mul a b = Some (Matrix_mul a b).
Proof.
  intros Hs Hn. unfold Fallible.Matrix_mul, Matrix_mul.
  rewrite !bool_decide_eq_false_2 by (intros ?; done).
  by rewrite fallible_Matrix_new_returns.
Qed.

Lemma fallible_Matrix_mul_fails a b :
  cols_ a = rows_ b → ¬ (0 ≤ rows_ a * cols_ b ≤ INT_MAX) →
  Fallible.Matrix_mul a b = None.
Proof.
  intros Hs Hn. unfold Fallible.Matrix_mul.
  rewrite bool_decide_eq_false_2 by (intros ?; done).
  by rewrite fallible_Matrix_new_fails.
Qed.

Lemma fallible_Matrix_add_sub_mismatch a b :
  ¬ (rows_ a = rows_ b ∧ cols_ a = cols_ b) →
  Fallible.Matrix_add a b = Some (mkMatrix 0 0 [])
  ∧ Fallible.Matrix_sub a b = Some (mkMatrix 0 0 []).
Proof.
  intros H. unfold Fallible.Matrix_add, Fallible.Matrix_sub.
  rewrite !bool_decide_eq_true_2; [done|..];
    destruct (decide (rows_ a = rows_ b)); auto;
    destruct (decide (cols_ a = cols_ b)); auto; by destruct H.
Qed.

Lemma fallible_Matrix_add_sub_returns a b :
  rows_ a = rows_ b → cols_ a = cols_ b → 0 ≤ rows_ a * cols_ a ≤ INT_MAX →
  Fallible.Matrix_add a b = Some (Matrix_add a b)
  ∧ Fallible.Matrix_sub a b = Some (Matrix_sub a b).
Proof.
  intros Hr Hc Hn.
  unfold Fallible.Matrix_add, Fallible.Matrix_sub, Matrix_add, Matrix_sub.
  rewrite !bool_decide_eq_false_2 by (intros [?|?]; done).
  by rewrite fallible_Matrix_new_returns.
Qed.

Lemma fallible_Matrix_identity_returns (size : Z) :
  0 ≤ size * size ≤ INT_MAX →
  Fallible.Matrix_identity (D:=D) size = Some (Matrix_identity size).
Proof.
  intros H. unfold Fallible.Matrix_identity.
  by rewrite fallible_Matrix_new_returns.
Qed.

Lemma fallible_KalmanFilter_new_returns (dimensions : Z) (pn mn : D) :
  0 ≤ dimensions → dimensions * dimensions ≤ INT_MAX →
  Fallible.KalmanFilter_new dimensions pn mn
  = Some (KalmanFilter_new dimensions pn mn).
Proof.
  intros Hd Hn. unfold Fallible.KalmanFilter_new.
  rewrite (fallible_Matrix_new_returns dimensions 1) by nia.
  rewrite (fallible_Matrix_new_returns dimensions dimensions) by nia.
  rewrite fallible_Matrix_identity_returns by nia.
  rewrite bool_decide_eq_true_2 by done. reflexivity.
Qed.

Lemma fallible_KalmanFilter_new_fails (dimensions : Z) (pn mn : D) :
  dimensions < 0 ∨ INT_MAX < dimensions * dimensions →
  Fallible.KalmanFilter_new dimensions pn mn = None.
Proof.
  intros H. unfold Fallible.KalmanFilter_new.
  destruct (decide (0 ≤ dimensions * 1 ≤ INT_MAX)) as [H1|H1].
  - rewrite (fallible_Matrix_new_returns dimensions 1) by done.
    rewrite (fallible_Matrix_new_fails dimensions dimensions) by lia. reflexivity.
  - by rewrite (fallible_Matrix_new_fails dimensions 1).
Qed.

Lemma fallible_kf_create_failed (reg : Registry D) dimensions (pn mn : D) :
  dimensions ≤ 0 → Fallible.kf_create reg dimensions pn mn = Some (reg, 0).
Proof. intros H. unfold Fallible.kf_create. by rewrite bool_decide_eq_true_2. Qed.

Lemma fallible_kf_create_returns (reg : Registry D) dimensions (pn mn : D) :
  0 < dimensions → dimensions * dimensions ≤ INT_MAX →
  Fallible.kf_create reg dimensions pn mn = Some (kf_create reg dimensions pn mn).
Proof.
  intros Hd Hn. unfold Fallible.kf_create, kf_create.
  rewrite !bool_decide_eq_false_2 by lia.
  rewrite fallible_KalmanFilter_new_returns by lia. reflexivity.
Qed.

Lemma fallible_kf_create_fails (reg : Registry D) dimensions (pn mn : D) :
  0 < dimensions → INT_MAX < dimensions * dimensions →
  Fallible.kf_create reg dimensions pn mn = None.
Proof.
  intros Hd Hn. unfold Fallible.kf_create.
  rewrite bool_decide_eq_false_2 by lia.
  rewrite fallible_KalmanFilter_new_fails by (by right). reflexivity.
Qed.

End FallibleFacts.

(** ** Neutral elements *)

Section NeutralFacts.
Context {D : Type} {SD : Scalar D} {NL : NeutralLaws D}.
Implicit Types f : KalmanFilter D.
Implicit Types m : Matrix D.

(** A sum whose terms are zeros, except one regular term. *)
Lemma sum_upto_single_regular (n i : Z) (t : Z → D) :
  0 ≤ i < n → regular (t i) →
  (∀ k, 0 ≤ k < n → k ≠ i → is_zero (t k)) →
  sum_upto n t = t i.
Proof.
  intros Hi Hreg Hz.
  assert ((λ k acc, if bool_decide (k ≤ i) then acc = s0 else acc = t i)
            n (sum_upto n t)) as Hinv.
  { apply (for_loop_invariant
             (λ k acc, if bool_decide (k ≤ i) then acc = s0 else acc = t i) n
             (λ k acc, (acc + t k)%S) s0 ltac:(lia)).
    - by rewrite bool_decide_eq_true_2 by lia.
    - intros k acc Hk Hacc.
      destruct (decide (k < i)) as [Hlt|Hge].
      + rewrite bool_decide_eq_true_2 in Hacc |- * by lia.
        rewrite Hacc. apply sadd_0_zero, Hz; lia.
      + destruct (decide (k = i)) as [->|Hne].
        * rewrite bool_decide_eq_true_2 in Hacc by lia.
          rewrite bool_decide_eq_false_2 by lia. rewrite Hacc.
          by apply sadd_0_l_regular.
        * rewrite bool_decide_eq_false_2 in Hacc |- * by lia.
          rewrite Hacc. apply sadd_zero_r_regular; [done|]. apply Hz; lia. }
  simpl in Hinv. by rewrite bool_decide_eq_false_2 in Hinv by lia.
Qed.

(** Multiplying a matrix of regular entries by the identity object of the
    class gives back the same matrix object. *)
Lemma Matrix_mul_identity_l (n c : Z) m :
  0 ≤ n → 0 ≤ c → matrix_ok n c m → regular_entries n c m →
  Matrix_mul (Matrix_identity n) m = m.
Proof.
  intros Hn Hc Hm Hreg. pose proof (Matrix_identity_ok (D:=D) n) as (Hr & Hc' & _).
  destruct Hm as (Hmr & Hmc & Hml).
  apply (matrix_ext n c); [done|done| |done|].
  - pose proof (Matrix_mul_ok (Matrix_identity n) m) as Hmul.
    rewrite Hr, Hmc in Hmul. apply Hmul. congruence.
  - intros i j Hi Hj. unfold entries.
    rewrite Matrix_mul_entries by congruence. rewrite Hc'.
    rewrite (sum_upto_ext n _ (λ k, (spec_identity i k * Matrix_at m k j)%S))
      by (intros k Hk; by rewrite Matrix_identity_entries).
    unfold spec_identity. rewrite (sum_upto_single_regular n i).
    + rewrite bool_decide_eq_true_2 by done. by apply smul_1_l_regular, Hreg.
    + done.
    + rewrite bool_decide_eq_true_2 by done.
      rewrite smul_1_l_regular by (by apply Hreg). by apply Hreg.
    + intros k Hk Hne. rewrite bool_decide_eq_false_2 by done.
      by apply smul_0_l_regular, Hreg.
Qed.

Lemma Matrix_mul_identity_r (r n : Z) m :
  0 ≤ r → 0 ≤ n → matrix_ok r n m → regular_entries r n m →
  Matrix_mul m (Matrix_identity n) = m.
Proof.
  intros Hr0 Hn Hm Hreg. pose proof (Matrix_identity_ok (D:=D) n) as (Hr & Hc' & _).
  destruct Hm as (Hmr & Hmc & Hml).
  apply (matrix_ext r n); [done|done| |done|].
  - pose proof (Matrix_mul_ok m (Matrix_identity n)) as Hmul.
    rewrite Hmr, Hc' in Hmul. apply Hmul. congruence.
  - intros i j Hi Hj. unfold entries.
    rewrite Matrix_mul_entries by congruence. rewrite Hmc.
    rewrite (sum_upto_ext n _ (λ k, (Matrix_at m i k * spec_identity k j)%S))
      by (intros k Hk; by rewrite Matrix_identity_entries).
    unfold spec_identity. rewrite (sum_upto_single_regular n j).
    + rewrite bool_decide_eq_true_2 by done. by apply smul_1_r_regular, Hreg.
    + done.
    + rewrite bool_decide_eq_true_2 by done.
      rewrite smul_1_r_regular by (by apply Hreg). by apply Hreg.
    + intros k Hk Hne. rewrite bool_decide_eq_false_2 by done.
      by apply smul_0_r_regular, Hreg.
Qed.

(** With F = I and a regular state, the predict step returns the state
    object itself; with a regular covariance it returns [P + Q]. *)
Lemma predicted_state_neutral f :
  filter_ok f → regular_entries (dimensions_ f) 1 (state_ f) →
  predicted_state f = state_ f.
Proof.
  intros (Hn & Hx & _ & _ & _ & HF & _) Hreg. unfold predicted_state. rewrite HF.
  apply (Matrix_mul_identity_l (dimensions_ f) 1); [lia|lia|done|done].
Qed.

Lemma predicted_covariance_neutral f :
  filter_ok f →
  regular_entries (dimensions_ f) (dimensions_ f) (state_covariance_ f) →
  predicted_covariance f = Matrix_add (state_covariance_ f) (process_noise_ f).
Proof.
  intros (Hn & _ & _ & _ & HP & HF & _) Hreg. unfold predicted_covariance. rewrite HF.
  rewrite Matrix_transpose_identity by lia.
  rewrite (Matrix_mul_identity_l (dimensions_ f) (dimensions_ f)) by (lia || done).
  by rewrite (Matrix_mul_identity_r (dimensions_ f) (dimensions_ f)) by (lia || done).
Qed.

(** ** Diagonal matrices over regular values *)

Lemma sum_upto_zeros (n : Z) (t : Z → D) :
  (∀ k, 0 ≤ k < n → is_zero (t k)) → sum_upto n t = s0.
Proof.
  intros Hz. destruct (decide (0 ≤ n)) as [Hn|Hn].
  - apply (for_loop_invariant (λ _ acc, acc = s0) n
             (λ k acc, (acc + t k)%S) s0 Hn); [done|].
    intros k acc Hk ->. by apply sadd_0_zero, Hz.
  - unfold sum_upto. by rewrite seqZ_nil by lia.
Qed.

Lemma spec_add_diagonal_regular (n : Z) (A B : mat D) :
  is_diagonal n A → is_diagonal n B → is_diagonal n (spec_add A B).
Proof.
  intros HA HB i j Hi Hj Hne. unfold spec_add. rewrite HA, HB by done.
  apply sadd_0_l_regular, regular_s0.
Qed.

Lemma spec_sub_diagonal_regular (n : Z) (A B : mat D) :
  is_diagonal n A → is_diagonal n B → is_diagonal n (spec_sub A B).
Proof.
  intros HA HB i j Hi Hj Hne. unfold spec_sub. rewrite HA, HB by done.
  apply ssub_0_0.
Qed.

Lemma spec_mul_diagonal_regular (n : Z) (A B : mat D) :
  is_diagonal n A → is_diagonal n B →
  (∀ i, 0 ≤ i < n → regular (A i i)) →
  (∀ i, 0 ≤ i < n → regular (B i i)) →
  is_diagonal n (spec_mul n A B).
Proof.
  intros HA HB RA RB i j Hi Hj Hne. unfold spec_mul. apply sum_upto_zeros.
  intros k Hk. destruct (decide (k = i)) as [->|Hki].
  - rewrite (HB i j) by done. by apply smul_0_r_regular, RA.
  - rewrite (HA i k) by done. destruct (decide (k = j)) as [->|Hkj].
    + by apply smul_0_l_regular, RB.
    + rewrite (HB k j) by done. apply smul_0_l_regular, regular_s0.
Qed.

(** A diagonal matrix with a regular diagonal has regular entries. *)
Lemma diagonal_regular_entries (n : Z) m :
  is_diagonal n (entries m) → (∀ i, 0 ≤ i < n → regular (entries m i i)) →
  regular_entries n n m.
Proof.
  intros Hd Hr i j Hi Hj. destruct (decide (i = j)) as [->|Hne].
  - by apply Hr.
  - change (regular (entries m i j)). rewrite Hd by done. apply regular_s0.
Qed.

(** With a regular diagonal of P, the predicted and the innovation
    covariance are diagonal. *)
Lemma covariances_diagonal_locals_regular f :
  covariances_diagonal f →
  (∀ i, 0 ≤ i < dimensions_ f → regular (entries (state_covariance_ f) i i)) →
  predicted_covariance f = Matrix_add (state_covariance_ f) (process_noise_ f)
  ∧ is_diagonal (dimensions_ f) (entries (predicted_covariance f))
  ∧ is_diagonal (dimensions_ f) (entries (innovation_covariance f)).
Proof.
  intros (Hok & DP & DQ & DR) RP.
  pose proof (predicted_covariance_neutral f Hok
                (diagonal_regular_entries _ _ DP RP)) as HpP.
  destruct (update_locals_spec f Hok HpP) as (EpP & ES & _).
  split; [done|].
  split; [apply (is_diagonal_eq _ _ _ EpP); by apply spec_add_diagonal_regular|].
  apply (is_diagonal_eq _ _ _ ES).
  apply spec_add_diagonal_regular; [|done]. by apply spec_add_diagonal_regular.
Qed.

(** One update keeps the invariant when the diagonal entries it uses are
    regular. *)
Lemma covariances_diagonal_update_regular f ms count :
  covariances_diagonal f → step_regular f →
  covariances_diagonal (KalmanFilter_update f ms count).1.
Proof.
  intros Hdiag Hreg. destruct (decide (count = dimensions_ f)) as [->|Hne].
  2:{ by rewrite update_mismatch. }
  destruct (covariances_diagonal_locals_regular f Hdiag) as (HpP & DpP & DS).
  { intros i Hi. by destruct (Hreg i Hi). }
  destruct Hdiag as (Hok & DP & DQ & DR).
  destruct (update_locals_ok f ms Hok) as (_ & _ & OpP & _ & Oinv & OK).
  destruct (update_preserves_ok f ms Hok) as (Hok' & Hd & HQ' & HR' & _).
  split; [done|]. rewrite Hd, HQ', HR'. split; [|done].
  set (n := dimensions_ f) in *.
  pose proof (Matrix_identity_ok (D:=D) n) as OI.
  assert (is_diagonal n (entries (kalman_gain f))) as DK.
  { unfold kalman_gain.
    eapply is_diagonal_eq; [by apply (Matrix_mul_shape n n n)|].
    apply spec_mul_diagonal_regular; [done| | |].
    - intros i j Hi Hj Hne. unfold entries, inv_innovation_covariance.
      rewrite diagonal_inverse_entries by done. unfold spec_diag_inverse.
      by rewrite bool_decide_eq_false_2.
    - intros i Hi. by destruct (Hreg i Hi) as (_ & ? & _).
    - intros i Hi. by destruct (Hreg i Hi) as (_ & _ & ? & _). }
  assert (is_diagonal n (entries (Matrix_sub (Matrix_identity n) (kalman_gain f))))
    as DIK.
  { eapply is_diagonal_eq; [by apply Matrix_sub_shape|].
    apply spec_sub_diagonal_regular; [|done].
    intros i j Hi Hj Hne. unfold entries.
    rewrite Matrix_identity_entries by done. unfold spec_identity.
    by rewrite bool_decide_eq_false_2. }
  unfold KalmanFilter_update.
  rewrite bool_decide_eq_false_2 by (intros ?; done). simpl. fold n.
  eapply is_diagonal_eq.
  { apply (Matrix_mul_shape n n n); [|done]. by apply Matrix_sub_shape. }
  apply spec_mul_diagonal_regular; [done|done| |].
  - intros i Hi. by destruct (Hreg i Hi) as (_ & _ & _ & ?).
  - intros i Hi. by destruct (Hreg i Hi) as (_ & ? & _).
Qed.

Lemma covariances_diagonal_run_regular f calls :
  covariances_diagonal f → run_regular f calls →
  covariances_diagonal (run_updates f calls)
  ∧ ∀ i, 0 ≤ i < dimensions_ (run_updates f calls) →
      regular (entries (state_covariance_ (run_updates f calls)) i i).
Proof.
  revert f. induction calls as [|c calls IH]; intros f Hf Hreg; [done|].
  destruct Hreg as [Hstep Hrest]. simpl. apply IH; [|done].
  by apply covariances_diagonal_update_regular.
Qed.

Lemma run_regular_take f calls (k : nat) :
  run_regular f calls → run_regular f (take k calls).
Proof.
  revert f k. induction calls as [|c calls IH]; intros f k Hreg.
  - by destruct k.
  - destruct Hreg as [Hstep Hrest]. destruct k as [|k]; simpl.
    + intros i Hi. by destruct (Hstep i Hi).
    + split; [done|]. by apply IH.
Qed.

End NeutralFacts.

(** ** Signs: the divisors of an update are positive *)

Section SignFacts.
Context {D : Type} {SD : Scalar D} {NL : NeutralLaws D} {SL : SignLaws D}.
Implicit Types f : KalmanFilter D.







End SignFacts.

(** ** Exact arithmetic *)

Section ExactFacts.
Context {D : Type} {SD : Scalar D} {ED : ExactScalar D}.
Implicit Types f : KalmanFilter D.
Implicit Types m : Matrix D.

Lemma scalar_ring_theory :
  ring_theory s0 s1 sadd smul ssub (λ a, (s0 - a)%S) (@eq D).
Proof.
  constructor.
  - apply sadd_0_l.
  - apply sadd_comm.
  - apply sadd_assoc.
  - apply smul_1_l.
  - apply smul_comm.
  - apply smul_assoc.
  - apply smul_add_distr_r.
  - apply ssub_def.
  - apply sadd_opp_r.
Qed.

Lemma scalar_field_theory :
  field_theory s0 s1 sadd smul ssub (λ a, (s0 - a)%S) sdiv (λ a, (s1 / a)%S) (@eq D).
Proof.
  constructor.
  - apply scalar_ring_theory.
  - apply s1_neq_s0.
  - apply sdiv_def.
  - apply sinv_l.
Qed.

Add Field scalar_field : scalar_field_theory.

Lemma sum_upto_zero (n : Z) (t : Z → D) :
  (∀ k, 0 ≤ k < n → t k = s0) → sum_upto n t = s0.
Proof.
  intros Hz. destruct (decide (0 ≤ n)) as [Hn|Hn].
  - apply (for_loop_invariant (λ _ acc, acc = s0) n
             (λ k acc, (acc + t k)%S) s0 Hn); [done|].
    intros k acc Hk ->. rewrite Hz by done. ring.
  - unfold sum_upto. by rewrite seqZ_nil by lia.
Qed.

(** A sum with at most one non-zero term. *)
Lemma sum_upto_single (n i : Z) (t : Z → D) :
  0 ≤ i < n → (∀ k, 0 ≤ k < n → k ≠ i → t k = s0) → sum_upto n t = t i.
Proof.
  intros Hi Hz.
  assert ((λ k acc, if bool_decide (k ≤ i) then acc = s0 else acc = t i)
            n (sum_upto n t)) as Hinv.
  { apply (for_loop_invariant
             (λ k acc, if bool_decide (k ≤ i) then acc = s0 else acc = t i) n
             (λ k acc, (acc + t k)%S) s0 ltac:(lia)).
    - by rewrite bool_decide_eq_true_2 by lia.
    - intros k acc Hk Hacc.
      destruct (decide (k < i)) as [Hlt|Hge].
      + rewrite bool_decide_eq_true_2 in Hacc |- * by lia.
        rewrite Hacc, Hz by lia. ring.
      + destruct (decide (k = i)) as [->|Hne].
        * rewrite bool_decide_eq_true_2 in Hacc by lia.
          rewrite bool_decide_eq_false_2 by lia. rewrite Hacc. ring.
        * rewrite bool_decide_eq_false_2 in Hacc |- * by lia.
          rewrite Hacc, (Hz k) by lia. ring. }
  simpl in Hinv. by rewrite bool_decide_eq_false_2 in Hinv by lia.
Qed.

(** Exact arithmetic satisfies the neutral-element laws, with every value
    regular. *)
#[export] Instance exact_neutral : NeutralLaws D.
Proof.
  refine {| regular := λ _, True; is_zero := λ z, z = s0 |}.
  - intros a _. ring.
  - intros a _. ring.
  - intros a _. ring.
  - intros a _. ring.
  - intros a _. ring.
  - intros a z _ ->. ring.
  - intros z ->. ring.
  - exact I.
  - ring.
Defined.

(** With F = I, the predict step leaves the state object alone and adds Q
    to the covariance. *)
Lemma predicted_state_exact f : filter_ok f → predicted_state f = state_ f.
Proof. intros Hok. by apply predicted_state_neutral. Qed.

Lemma predicted_covariance_exact f :
  filter_ok f →
  predicted_covariance f = Matrix_add (state_covariance_ f) (process_noise_ f).
Proof. intros Hok. by apply predicted_covariance_neutral. Qed.

Lemma update_locals_exact f :
  filter_ok f →
  let n := dimensions_ f in
  let P := entries (state_covariance_ f) in
  let Q := entries (process_noise_ f) in
  let R := entries (measurement_noise_ f) in
  mat_eq n n (entries (predicted_covariance f)) (spec_predicted_P P Q)
  ∧ mat_eq n n (entries (innovation_covariance f)) (spec_S P Q R)
  ∧ mat_eq n n (entries (inv_innovation_covariance f))
      (spec_diag_inverse (spec_S P Q R))
  ∧ mat_eq n n (entries (kalman_gain f)) (spec_K n P Q R).
Proof.
  intros Hok. apply update_locals_spec; [done|]. by apply predicted_covariance_exact.
Qed.

Lemma update_exact f ms :
  filter_ok f →
  let n := dimensions_ f in
  let x := entries (state_ f) in
  let P := entries (state_covariance_ f) in
  let Q := entries (process_noise_ f) in
  let R := entries (measurement_noise_ f) in
  let f' := (KalmanFilter_update f ms n).1 in
  mat_eq n 1 (entries (state_ f')) (spec_new_x n x P Q R (column ms))
  ∧ mat_eq n n (entries (state_covariance_ f')) (spec_new_P n P Q R).
Proof.
  intros Hok. apply update_spec; [done| |].
  - by apply predicted_state_exact.
  - by apply predicted_covariance_exact.
Qed.

(** ** Diagonal matrices *)

Lemma spec_identity_diagonal (n : Z) : is_diagonal n (spec_identity (D:=D)).
Proof.
  intros i j _ _ Hne. unfold spec_identity. by rewrite bool_decide_eq_false_2.
Qed.

Lemma spec_scaled_identity_diagonal (n : Z) (v : D) :
  is_diagonal n (spec_scaled_identity v).
Proof.
  intros i j _ _ Hne. unfold spec_scaled_identity.
  by rewrite bool_decide_eq_false_2.
Qed.

Lemma spec_diag_inverse_diagonal (n : Z) (S : mat D) :
  is_diagonal n (spec_diag_inverse S).
Proof.
  intros i j _ _ Hne. unfold spec_diag_inverse.
  by rewrite bool_decide_eq_false_2.
Qed.

Lemma spec_add_diagonal (n : Z) (A B : mat D) :
  is_diagonal n A → is_diagonal n B → is_diagonal n (spec_add A B).
Proof.
  intros HA HB i j Hi Hj Hne. unfold spec_add. rewrite HA, HB by done. ring.
Qed.

Lemma spec_sub_diagonal (n : Z) (A B : mat D) :
  is_diagonal n A → is_diagonal n B → is_diagonal n (spec_sub A B).
Proof.
  intros HA HB i j Hi Hj Hne. unfold spec_sub. rewrite HA, HB by done. ring.
Qed.

Lemma spec_mul_diagonal (n : Z) (A B : mat D) :
  is_diagonal n A → is_diagonal n B → is_diagonal n (spec_mul n A B).
Proof.
  intros HA HB i j Hi Hj Hne. unfold spec_mul. apply sum_upto_zero.
  intros k Hk. destruct (decide (k = i)) as [->|Hki].
  - rewrite (HB i j) by done. ring.
  - rewrite (HA i k) by done. ring.
Qed.

(** The diagonal of a product with a diagonal factor. *)
Lemma spec_mul_diagonal_entry_l (n : Z) (A B : mat D) i :
  is_diagonal n A → 0 ≤ i < n → spec_mul n A B i i = (A i i * B i i)%S.
Proof.
  intros HA Hi. unfold spec_mul.
  rewrite (sum_upto_single n i); [done|done|].
  intros k Hk Hne. rewrite (HA i k) by done. ring.
Qed.


(** For a diagonal matrix with non-zero diagonal, [diagonal_inverse]
    builds the inverse matrix. *)
Lemma diagonal_inverse_is_inverse (n : Z) m :
  0 ≤ n → matrix_ok n n m → is_diagonal n (entries m) →
  (∀ i, 0 ≤ i < n → entries m i i ≠ s0) →
  Matrix_mul m (diagonal_inverse n m) = Matrix_identity n
  ∧ Matrix_mul (diagonal_inverse n m) m = Matrix_identity n.
Proof.
  intros Hn Hm Hdiag Hnz.
  pose proof (diagonal_inverse_ok n m) as Hinv.
  pose proof (Matrix_identity_ok n) as HI.
  assert (mat_eq n n (entries (diagonal_inverse n m))
            (spec_diag_inverse (entries m))) as Einv.
  { intros i j Hi Hj. by apply diagonal_inverse_entries. }
  assert (∀ A B : mat D, is_diagonal n A → is_diagonal n B →
            (∀ i, 0 ≤ i < n → (A i i * B i i)%S = s1) →
            mat_eq n n (spec_mul n A B) spec_identity) as Hprod.
  { intros A B HA HB Hone i j Hi Hj. unfold spec_identity.
    case_bool_decide as Hij.
    - subst j. rewrite spec_mul_diagonal_entry_l by done. by apply Hone.
    - by apply spec_mul_diagonal. }
  split.
  - apply (matrix_ext n n); [done|done| |done|].
    { by apply (Matrix_mul_shape n n n). }
    eapply mat_eq_trans; [by apply (Matrix_mul_shape n n n)|].
    eapply mat_eq_trans; [apply spec_mul_ext; [apply mat_eq_refl|exact Einv]|].
    eapply mat_eq_trans; [|intros i j Hi Hj; symmetry;
                            by apply Matrix_identity_entries].
    apply Hprod; [done|apply spec_diag_inverse_diagonal|].
    intros i Hi. unfold spec_diag_inverse.
    rewrite bool_decide_eq_true_2 by done. field. by apply Hnz.
  - apply (matrix_ext n n); [done|done| |done|].
    { by apply (Matrix_mul_shape n n n). }
    eapply mat_eq_trans; [by apply (Matrix_mul_shape n n n)|].
    eapply mat_eq_trans; [apply spec_mul_ext; [exact Einv|apply mat_eq_refl]|].
    eapply mat_eq_trans; [|intros i j Hi Hj; symmetry;
                            by apply Matrix_identity_entries].
    apply Hprod; [apply spec_diag_inverse_diagonal|done|].
    intros i Hi. unfold spec_diag_inverse.
    rewrite bool_decide_eq_true_2 by done. field. by apply Hnz.
Qed.

(** ** The diagonal invariant *)

Lemma covariances_diagonal_locals f :
  covariances_diagonal f →
  is_diagonal (dimensions_ f) (entries (predicted_covariance f))
  ∧ is_diagonal (dimensions_ f) (entries (innovation_covariance f))
  ∧ is_diagonal (dimensions_ f) (entries (kalman_gain f)).
Proof.
  intros (Hok & HP & HQ & HR).
  destruct (update_locals_exact f Hok) as (EpP & ES & _ & EK).
  assert (is_diagonal (dimensions_ f)
            (spec_predicted_P (entries (state_covariance_ f))
               (entries (process_noise_ f)))) as DpP.
  { by apply spec_add_diagonal. }
  split; [by apply (is_diagonal_eq _ _ _ EpP)|].
  split; [apply (is_diagonal_eq _ _ _ ES); by apply spec_add_diagonal|].
  apply (is_diagonal_eq _ _ _ EK).
  apply spec_mul_diagonal; [done|apply spec_diag_inverse_diagonal].
Qed.

Lemma covariances_diagonal_update f ms count :
  covariances_diagonal f →
  covariances_diagonal (KalmanFilter_update f ms count).1.
Proof.
  intros Hdiag. destruct (decide (count = dimensions_ f)) as [->|Hne].
  2:{ by rewrite update_mismatch. }
  destruct (covariances_diagonal_locals f Hdiag) as (DpP & DS & DK).
  destruct Hdiag as (Hok & HP & HQ & HR).
  destruct (update_exact f ms Hok) as (_ & EP').
  destruct (update_locals_exact f Hok) as (EpP & _ & _ & EK).
  destruct (update_preserves_ok f ms Hok) as (Hok' & Hd & HQ' & HR' & _).
  split; [done|]. rewrite Hd, HQ', HR'. split; [|done].
  apply (is_diagonal_eq _ _ _ EP'). unfold spec_new_P.
  apply spec_mul_diagonal.
  - apply spec_sub_diagonal; [apply spec_identity_diagonal|].
    apply spec_mul_diagonal; [by apply spec_add_diagonal|].
    apply spec_diag_inverse_diagonal.
  - by apply spec_add_diagonal.
Qed.

Lemma covariances_diagonal_run f calls :
  covariances_diagonal f → covariances_diagonal (run_updates f calls).
Proof.
  revert f. induction calls as [|c calls IH]; intros f Hf; [done|].
  simpl. apply IH. by apply covariances_diagonal_update.
Qed.

Lemma run_updates_dimensions f calls :
  filter_ok f → dimensions_ (run_updates f calls) = dimensions_ f.
Proof.
  revert f. induction calls as [|c calls IH]; intros f Hf; [done|].
  simpl. destruct (decide (c.2 = dimensions_ f)) as [Hc|Hc].
  - rewrite Hc. destruct (update_preserves_ok f c.1 Hf) as (Hok' & Hd & _).
    rewrite IH by done. done.
  - rewrite update_mismatch by done. simpl. by apply IH.
Qed.

(** In exact arithmetic every value is regular. *)
Lemma run_regular_exact f calls : run_regular f calls.
Proof.
  revert f. induction calls as [|c calls IH]; intros f; simpl.
  - by intros.
  - split; [|apply IH]. intros i Hi. by repeat split.
Qed.

End ExactFacts.

(** ** Ordered exact arithmetic *)

Section OrderedFacts.
Context {D : Type} {SD : Scalar D} {OD : OrderedExactScalar D}.
Implicit Types f : KalmanFilter D.
Implicit Types a b c : D.

Add Field ordered_scalar_field : (scalar_field_theory (D:=D)).

Lemma slt_neq a b : (a < b)%S → b ≠ a.
Proof. intros Hlt ->. by apply (slt_irrefl a). Qed.


Lemma slt_0_1 : (s0 < s1)%S.
Proof.
  destruct (slt_total (s0 : D) s1) as [H|[H|H]]; [done| |].
  - destruct (s1_neq_s0 (D:=D)). done.
  - pose proof (slt_add_mono _ _ (s0 - s1)%S H) as Hm.
    replace (s1 + (s0 - s1))%S with (s0 : D) in Hm by ring.
    replace (s0 + (s0 - s1))%S with (s0 - s1 : D)%S in Hm by ring.
    pose proof (slt_mul_pos _ _ Hm Hm) as Hsq.
    replace ((s0 - s1) * (s0 - s1))%S with (s1 : D) in Hsq by ring. done.
Qed.


Lemma sadd_nonneg_pos a b : (s0 <= a)%S → (s0 < b)%S → (s0 < a + b)%S.
Proof.
  intros [Ha|<-] Hb.
  - apply (slt_trans _ b); [done|].
    pose proof (slt_add_mono _ _ b Ha) as Hm.
    by replace (s0 + b)%S with b in Hm by ring.
  - by replace (s0 + b)%S with b by ring.
Qed.

Lemma sadd_nonneg a b : (s0 <= a)%S → (s0 <= b)%S → (s0 <= a + b)%S.
Proof.
  intros Ha [Hb|<-].
  - left. by apply sadd_nonneg_pos.
  - by replace (a + s0)%S with a by ring.
Qed.








End OrderedFacts.

(** An ordered field satisfies the sign laws with its order. *)
#[export] Instance exact_signs {D : Type} {SD : Scalar D} {OD : OrderedExactScalar D} :
  SignLaws D (NL := exact_neutral).
Proof.
  refine {| is_nonneg := λ a, (s0 <= a)%S; is_positive := λ a, (s0 < a)%S |}.
  - exact I.
  - left. apply slt_0_1.
  - apply sadd_nonneg.
  - apply sadd_nonneg_pos.
  - reflexivity.
  - intros a Ha Hz. simpl in Hz. by apply (slt_neq _ _ Ha).
Defined.

(** ** Binary64 satisfies the neutral-element laws *)

Section Binary64.

Lemma digits2_pos_shift (m : positive) (k : nat) :
  Z.pos (SpecFloat.digits2_pos (Nat.iter k xO m))
  = Z.pos (SpecFloat.digits2_pos m) + Z.of_nat k.
Proof.
  induction k as [|k IH]; [simpl; lia|].
  rewrite Nat2Z.inj_succ. cbn [Nat.iter nat_rect SpecFloat.digits2_pos].
  rewrite Pos2Z.inj_succ.
  change (nat_rect _ m (λ _, xO) k) with (Nat.iter k xO m).
  rewrite IH. lia.
Qed.

Lemma iter_shr_1_shift (m : positive) :
  SpecFloat.iter_pos SpecFloat.shr_1 52
    (SpecFloat.shr_record_of_loc (Z.pos (Nat.iter 52 xO m)) SpecFloat.loc_Exact)
  = {| SpecFloat.shr_m := Z.pos m;
       SpecFloat.shr_r := false;
       SpecFloat.shr_s := false |}.
Proof. reflexivity. Qed.

(** Rounding [m · 2^52 · 2^(e - 52)] gives back the float [(m, e)]. *)
Lemma binary_round_unit (s : bool) (m : positive) (e : Z) :
  SpecFloat.valid_binary prec emax (S754_finite s m e) = true →
  SpecFloat.binary_round_aux prec emax s (Z.pos (Nat.iter 52 xO m)) (-52 + e)
    SpecFloat.loc_Exact
  = S754_finite s m e.
Proof.
  intros Hv. simpl in Hv. unfold SpecFloat.bounded in Hv.
  apply andb_prop in Hv as [Hc Hb].
  unfold SpecFloat.canonical_mantissa in Hc. apply Z.eqb_eq in Hc.
  unfold SpecFloat.binary_round_aux, SpecFloat.shr_fexp, SpecFloat.Zdigits2.
  rewrite (digits2_pos_shift m 52).
  replace (Z.pos (SpecFloat.digits2_pos m) + Z.of_nat 52 + (-52 + e))
    with (Z.pos (SpecFloat.digits2_pos m) + e) by lia.
  rewrite Hc.
  replace (e - (-52 + e)) with 52 by lia.
  unfold SpecFloat.shr at 1.
  rewrite !iter_shr_1_shift.
  cbn [SpecFloat.shr_m SpecFloat.loc_of_shr_record SpecFloat.round_nearest_even].
  replace (-52 + e + 52) with e by lia.
  unfold SpecFloat.Zdigits2. rewrite Hc, Z.sub_diag.
  cbn [SpecFloat.shr SpecFloat.shr_record_of_loc SpecFloat.shr_m].
  by rewrite Hb.
Qed.

Lemma float_mul_1_l (a : float) : (1 * a)%float = a.
Proof.
  apply Prim2SF_inj. rewrite mul_spec.
  pose proof (Prim2SF_valid a) as Hv.
  change (Prim2SF 1) with (S754_finite false 4503599627370496 (-52)).
  destruct (Prim2SF a) as [s|s| |s m e]; try reflexivity.
  unfold SF64mul, SFmul.
  change (Pos.mul 4503599627370496 m) with (Nat.iter 52 xO m).
  cbn [xorb]. by apply binary_round_unit.
Qed.

Lemma float_mul_1_r (a : float) : (a * 1)%float = a.
Proof.
  apply Prim2SF_inj. rewrite mul_spec.
  pose proof (Prim2SF_valid a) as Hv.
  change (Prim2SF 1) with (S754_finite false 4503599627370496 (-52)).
  destruct (Prim2SF a) as [s|s| |s m e];
    [by destruct s|by destruct s|done|].
  unfold SF64mul, SFmul.
  rewrite Pos.mul_comm, Z.add_comm.
  change (Pos.mul 4503599627370496 m) with (Nat.iter 52 xO m).
  replace (xorb s false) with s by (by destruct s).
  by apply binary_round_unit.
Qed.

Lemma float_mul_0_l (a : float) : float_regular a → float_is_zero (0 * a)%float.
Proof.
  unfold float_regular, float_is_zero. intros Ha. rewrite mul_spec.
  change (Prim2SF 0) with (S754_zero false).
  destruct (Prim2SF a) as [s|s| |s m e]; try done; simpl; eauto.
Qed.

Lemma float_mul_0_r (a : float) : float_regular a → float_is_zero (a * 0)%float.
Proof.
  unfold float_regular, float_is_zero. intros Ha. rewrite mul_spec.
  change (Prim2SF 0) with (S754_zero false).
  destruct (Prim2SF a) as [s|s| |s m e]; try done; simpl; eauto.
Qed.

Lemma float_add_0_l (a : float) : float_regular a → (0 + a)%float = a.
Proof.
  unfold float_regular. intros Ha. apply Prim2SF_inj. rewrite add_spec.
  change (Prim2SF 0) with (S754_zero false).
  by destruct (Prim2SF a) as [[|]|s| |s m e].
Qed.

Lemma float_add_zero_r (a z : float) :
  float_regular a → float_is_zero z → (a + z)%float = a.
Proof.
  unfold float_regular, float_is_zero. intros Ha [sz Hz].
  apply Prim2SF_inj. rewrite add_spec, Hz.
  destruct (Prim2SF a) as [[|]|s| |s m e]; try done. by destruct sz.
Qed.

Lemma float_add_0_zero (z : float) : float_is_zero z → (0 + z)%float = 0%float.
Proof.
  unfold float_is_zero. intros [sz Hz]. apply Prim2SF_inj. rewrite add_spec, Hz.
  change (Prim2SF 0) with (S754_zero false). by destruct sz.
Qed.

(** *** The order of binary64 on sums *)












End Binary64.

#[export] Instance float_neutral : NeutralLaws float := {|
  regular := float_regular;
  is_zero := float_is_zero;
  smul_1_l_regular := λ a _, float_mul_1_l a;
  smul_1_r_regular := λ a _, float_mul_1_r a;
  smul_0_l_regular := float_mul_0_l;
  smul_0_r_regular := float_mul_0_r;
  sadd_0_l_regular := float_add_0_l;
  sadd_zero_r_regular := float_add_zero_r;
  sadd_0_zero := float_add_0_zero;
  regular_s0 := I;
  ssub_0_0 := eq_refl
|}.


(** ** The rationals are an exact, ordered scalar structure *)



(** Closes [∀ i, 0 ≤ i < n → ...] about a concrete binary64 filter of
    dimension 1 or 2 by evaluating each case. *)
Ltac regular_by_evaluation :=
  let i := fresh "i" in
  let Hi := fresh "Hi" in
  let Hd := fresh "Hd" in
  intros i Hi;
  match type of Hi with
  | _ ≤ _ < ?d =>
      first [ assert (d = 1) as Hd by (vm_compute; reflexivity)
            | assert (d = 2) as Hd by (vm_compute; reflexivity) ];
      rewrite Hd in Hi
  end;
  first [ assert (i = 0) as -> by lia
        | assert (i = 0 ∨ i = 1) as [-> | ->] by lia ];
  vm_compute; tauto.

(** * The claims *)

(** ** C9: dimension mismatches of the matrix operations *)

(** C9, as the code has it.  [multiply(A, B)] with [A.cols != B.rows]
    returns the empty 0×0 matrix, and so do [add(A, B)] and
    [subtract(A, B)] on operands whose shapes are not identical; nothing
    else is signalled.  On matching shapes the operation returns the matrix
    its loops fill, of the expected shape (row count, column count and a
    backing store of [rows * cols] elements), provided the element count of
    the result, an [int] product, lies in [0 .. INT_MAX]; for [add] and
    [subtract] that is the element count of the left operand, which every
    constructed operand satisfies.  When the element count of a product's
    result overflows or is negative, [multiply] does not return a
    matrix. *)
Theorem matrix_shape_mismatch_policy {D : Type} {SD : Scalar D} (a b : Matrix D) :
  Fallible.Matrix_new (D:=D) 0 0 = Some (mkMatrix 0 0 [])
  ∧ (cols_ a ≠ rows_ b → Fallible.Matrix_mul a b = Some (mkMatrix 0 0 []))
  ∧ (cols_ a = rows_ b → 0 ≤ rows_ a * cols_ b ≤ INT_MAX →
       Fallible.Matrix_mul a b = Some (Matrix_mul a b)
       ∧ matrix_ok (rows_ a) (cols_ b) (Matrix_mul a b))
  ∧ (cols_ a = rows_ b → ¬ (0 ≤ rows_ a * cols_ b ≤ INT_MAX) →
       Fallible.Matrix_mul a b = None)
  ∧ (¬ (rows_ a = rows_ b ∧ cols_ a = cols_ b) →
       Fallible.Matrix_add a b = Some (mkMatrix 0 0 [])
       ∧ Fallible.Matrix_sub a b = Some (mkMatrix 0 0 []))
  ∧ (rows_ a = rows_ b ∧ cols_ a = cols_ b → 0 ≤ rows_ a * cols_ a ≤ INT_MAX →
       Fallible.Matrix_add a b = Some (Matrix_add a b)
       ∧ matrix_ok (rows_ a) (cols_ a) (Matrix_add a b)
       ∧ Fallible.Matrix_sub a b = Some (Matrix_sub a b)
       ∧ matrix_ok (rows_ a) (cols_ a) (Matrix_sub a b)).
Proof.
  split; [reflexivity|]. split; [apply fallible_Matrix_mul_mismatch|].
  split; [|split; [apply fallible_Matrix_mul_fails|split]].
  - intros Hs Hn. split; [by apply fallible_Matrix_mul_returns|].
    by apply Matrix_mul_ok.
  - apply fallible_Matrix_add_sub_mismatch.
  - intros [Hr Hc] Hn.
    destruct (fallible_Matrix_add_sub_returns a b Hr Hc Hn) as [-> ->].
    split; [done|]. split; [by apply Matrix_add_ok|].
    split; [done|]. by apply Matrix_sub_ok.
Qed.

(** A 2 × 2 and a 2 × 1 matrix of binary64 values: their product is
    returned with the shape 2 × 1, their sum is the empty matrix, and the
    sum of the first with itself is returned. *)
Lemma matrix_shape_mismatch_policy_witness :
  let a := mkMatrix 2 2 [1; 2; 3; 4]%float in
  let b := mkMatrix 2 1 [5; 6]%float in
  Fallible.Matrix_mul a b = Some (Matrix_mul a b)
  ∧ matrix_ok 2 1 (Matrix_mul a b)
  ∧ Fallible.Matrix_add a b = Some (mkMatrix 0 0 [])
  ∧ Fallible.Matrix_add a a = Some (Matrix_add a a).
Proof.
  intros a b.
  destruct (matrix_shape_mismatch_policy a b) as (_ & _ & Hmul & _ & Hmis & _).
  destruct (matrix_shape_mismatch_policy a a) as (_ & _ & _ & _ & _ & Hadd).
  destruct (Hmul eq_refl ltac:(vm_compute; split; discriminate)) as [H1 H2].
  destruct (Hmis ltac:(vm_compute; intros [_ H]; discriminate H)) as [H3 _].
  destruct (Hadd (conj eq_refl eq_refl) ltac:(vm_compute; split; discriminate))
    as (H4 & _).
  split; [exact H1|]. split; [exact H2|]. split; [exact H3|exact H4].
Defined.

(** C9 as stated fails on the code.  The −1 × 0 and the 0 × 5 matrix are
    both constructed (their element count is 0) and their shapes match, but
    the constructor of the −1 × 5 result of their product is handed the
    count −5 and throws.  Likewise for the product of the 46341 × 1 and the
    1 × 46341 matrix: the element count [46341 * 46341] of its result
    overflows [int]. *)
Lemma matrix_product_throws_counterexample :
  let a : Matrix float := mkMatrix (-1) 0 [] in
  let b : Matrix float := mkMatrix 0 5 [] in
  let c : Matrix float := Matrix_new 46341 1 in
  let d : Matrix float := Matrix_new 1 46341 in
  Fallible.Matrix_new (-1) 0 = Some a
  ∧ Fallible.Matrix_new 0 5 = Some b
  ∧ cols_ a = rows_ b
  ∧ Fallible.Matrix_mul a b = None
  ∧ Fallible.Matrix_new 46341 1 = Some c
  ∧ Fallible.Matrix_new 1 46341 = Some d
  ∧ cols_ c = rows_ d
  ∧ Fallible.Matrix_mul c d = None.
Proof.
  intros a b c d.
  split; [reflexivity|]. split; [reflexivity|]. split; [reflexivity|].
  split; [reflexivity|].
  split; [by apply fallible_Matrix_new_returns|].
  split; [by apply fallible_Matrix_new_returns|].
  split; [reflexivity|].
  apply fallible_Matrix_mul_fails; [reflexivity|].
  unfold c, d, Matrix_new, INT_MAX. cbn [rows_ cols_]. lia.
Qed.

(** ** C3: a measurement of the wrong length *)

(** C3. When [count] differs from the filter's dimensions, [update]
    returns the null result and the filter object is unchanged as a whole
    (x, P, Q, R, F, H and the output buffer), so every later call behaves as
    if the mismatched one had not happened; through the C API the registry
    is unchanged as well. *)
Theorem update_rejects_wrong_count {D : Type} {SD : Scalar D}
    (f : KalmanFilter D) (ms : list D) (count : Z) :
  count ≠ dimensions_ f →
  KalmanFilter_update f ms count = (f, None)
  ∧ (∀ ms' count',
       KalmanFilter_update (KalmanFilter_update f ms count).1 ms' count'
       = KalmanFilter_update f ms' count')
  ∧ (∀ reg h, g_filters reg !! h = Some f →
       kf_update reg h ms count = (reg, None)
       ∧ ∀ ms' count',
           kf_update (kf_update reg h ms count).1 h ms' count'
           = kf_update reg h ms' count').
Proof.
  intros Hne. pose proof (update_mismatch f ms count Hne) as Hup.
  split; [done|]. split; [by rewrite Hup|].
  intros reg h Hh.
  assert (kf_update reg h ms count = (reg, None)) as Hreg.
  { rewrite (kf_update_known reg h f) by done. rewrite Hup; simpl.
    f_equal. apply registry_eq; simpl; [|done]. by apply insert_id. }
  split; [done|]. intros ms' count'. by rewrite Hreg.
Qed.

(** A one-dimensional binary64 filter given two measurements. *)
Lemma update_rejects_wrong_count_witness :
  let f := KalmanFilter_new 1 double_0_001 double_0_1 in
  2 ≠ dimensions_ f
  ∧ KalmanFilter_update f [1%float; 2%float] 2 = (f, None)
  ∧ KalmanFilter_update (KalmanFilter_update f [1%float; 2%float] 2).1 [1%float] 1
    = KalmanFilter_update f [1%float] 1.
Proof.
  intros f.
  assert (2 ≠ dimensions_ f) as Hne by (simpl; lia).
  destruct (update_rejects_wrong_count f [1%float; 2%float] 2 Hne)
    as (Hnull & Hnext & _).
  split; [exact Hne|]. split; [exact Hnull|]. exact (Hnext [1%float] 1).
Defined.

(** ** C7: handles that are not live *)

(** C7. For a handle [h] that is not mapped to a live filter, [kf_update]
    returns the null result and leaves the registry (map, filters and
    counter) as it was, and [kf_destroy] does nothing.  Calling
    [kf_destroy] twice with one handle is the same as calling it once,
    whatever the handle.  Such handles are: in every run from the initial
    registry a handle that no create has returned, and, before the counter
    wraps, the value 0 and every handle whose filter was destroyed. *)
Theorem invalid_handle_is_harmless {D : Type} {SD : Scalar D}
    (reg : Registry D) (h : Z) :
  (g_filters reg !! h = None →
     (∀ ms count, kf_update reg h ms count = (reg, None))
     ∧ kf_destroy reg h = reg)
  ∧ g_filters (kf_destroy reg h) !! h = None
  ∧ kf_destroy (kf_destroy reg h) h = kf_destroy reg h
  ∧ (∀ calls : list (Call (D:=D)),
       (h ∉ created_handles (api_run registry_init calls).2 →
          g_filters (api_run registry_init calls).1 !! h = None)
       ∧ (Z.of_nat (length (created_handles (api_run registry_init calls).2))
          ≤ INT_MAX →
            g_filters (api_run registry_init calls).1 !! 0 = None
            ∧ (Destroyed h ∈ (api_run registry_init calls).2 →
                 g_filters (api_run registry_init calls).1 !! h = None))).
Proof.
  assert (g_filters (kf_destroy reg h) !! h = None) as Hgone.
  { rewrite kf_destroy_lookup. by rewrite decide_True. }
  split; [|split; [done|split]].
  - intros Hh. split; [intros; by apply kf_update_unknown|].
    by apply kf_destroy_unknown.
  - by apply kf_destroy_unknown.
  - intros calls. split; [apply unissued_handle_unmapped|].
    intros Hk. split; [by apply zero_handle_unmapped|].
    by apply destroyed_handle_unmapped.
Qed.

(** The handle 1 after its filter was destroyed: updating it fails and
    destroying it again changes nothing. *)
Lemma invalid_handle_is_harmless_witness :
  let reg := (api_run registry_init
                [CallCreate 1 double_0_001 double_0_1; CallDestroy 1]).1 in
  g_filters reg !! 1 = None
  ∧ kf_update reg 1 [1%float] 1 = (reg, None)
  ∧ kf_destroy reg 1 = reg.
Proof.
  intros reg.
  assert (g_filters reg !! 1 = None) as Hh by (vm_compute; reflexivity).
  destruct (invalid_handle_is_harmless reg 1) as (Hdead & _).
  destruct (Hdead Hh) as [Hup Hde].
  split; [exact Hh|]. split; [exact (Hup [1%float] 1)|exact Hde].
Defined.

(** ** C10: per-handle isolation *)

(** C10. [kf_update(h, ...)] leaves the counter, the set of live handles
    and the filter of every other handle unchanged; [kf_destroy(h)] leaves
    the counter and every other handle's filter unchanged and removes at
    most the mapping of [h]. *)
Theorem registry_frame {D : Type} {SD : Scalar D}
    (reg : Registry D) (h : Z) (ms : list D) (count : Z) :
  (g_next_handle (kf_update reg h ms count).1 = g_next_handle reg
   ∧ dom (g_filters (kf_update reg h ms count).1) = dom (g_filters reg)
   ∧ ∀ h', h' ≠ h →
       g_filters (kf_update reg h ms count).1 !! h' = g_filters reg !! h')
  ∧ (g_next_handle (kf_destroy reg h) = g_next_handle reg
     ∧ dom (g_filters (kf_destroy reg h)) = dom (g_filters reg) ∖ {[h]}
     ∧ ∀ h', h' ≠ h →
         g_filters (kf_destroy reg h) !! h' = g_filters reg !! h').
Proof.
  split; [split; [|split]|split; [|split]].
  - apply kf_update_counter.
  - apply kf_update_dom.
  - intros h' Hne. by apply kf_update_lookup_other.
  - apply kf_destroy_counter.
  - apply set_eq. intros h'. rewrite elem_of_difference, !elem_of_dom.
    rewrite kf_destroy_lookup, elem_of_singleton.
    case_decide; subst.
    + split; [by intros [? ?]|]. intros [_ Hne]. done.
    + split; [intros ?; split; [done|congruence]|by intros [? _]].
  - intros h' Hne. rewrite kf_destroy_lookup. by rewrite decide_False.
Qed.

(** ** C6: handles are issued in increasing order *)

(** C6, as the code has it.  The counter is a 32-bit [int]: in every run
    from the initial registry that issues at most [INT_MAX = 2^31 - 1]
    handles, the handles returned by the successful creates are exactly
    1, 2, 3, ... in that order (strictly increasing, pairwise distinct,
    starting at 1), whatever destroy and update calls are interleaved, and
    no create returns a handle whose filter was destroyed earlier. *)
Theorem handles_increase_until_wrap {D : Type} {SD : Scalar D}
    (calls : list (Call (D:=D))) :
  Z.of_nat (length (created_handles (api_run registry_init calls).2)) ≤ INT_MAX →
  created_handles (api_run registry_init calls).2
  = seqZ 1 (Z.of_nat (length (created_handles (api_run registry_init calls).2)))
  ∧ handles_never_reused (api_run registry_init calls).2.
Proof.
  intros Hk.
  pose proof (issued_handle_before_wrap calls) as Hidx.
  destruct (trace_invariant_run calls) as (_ & _ & _ & Hdes).
  set (tr := (api_run registry_init calls).2) in *.
  split.
  - apply list_eq. intros i.
    destruct (decide (i < length (created_handles tr))%nat) as [Hlt|Hge].
    + destruct (lookup_lt_is_Some_2 _ _ Hlt) as [h Hh].
      rewrite Hh, (Hidx i h Hk Hh). symmetry. apply lookup_seqZ_lt. lia.
    + rewrite lookup_ge_None_2 by lia. symmetry. apply lookup_seqZ_ge. lia.
  - intros tr1 h tr2 Hsplit.
    assert (created_handles tr
            = created_handles tr1 ++ h :: created_handles tr2) as Hch.
    { rewrite Hsplit, created_handles_app. done. }
    assert (h = 1 + Z.of_nat (length (created_handles tr1))) as Hh.
    { apply (Hidx _ _ Hk). rewrite Hch.
      rewrite lookup_app_r by lia. by rewrite Nat.sub_diag. }
    assert (∀ h', h' ∈ created_handles tr1 → h' < h) as Hsmall.
    { intros h' Hin. apply list_elem_of_lookup in Hin as [i Hi].
      pose proof (lookup_lt_Some _ _ _ Hi) as Hlt.
      rewrite (Hidx i h' Hk); [lia|].
      rewrite Hch. by rewrite lookup_app_l. }
    split.
    + intros h' Hin. apply Hsmall. by apply elem_of_created_handles.
    + intros Hin. apply list_elem_of_split in Hin as (l1 & l2 & ->).
      specialize (Hdes l1 h (l2 ++ Created h :: tr2)).
      rewrite Hsplit, <- app_assoc in Hdes. specialize (Hdes eq_refl).
      assert (h < h); [|lia]. apply Hsmall.
      rewrite created_handles_app, elem_of_app. by left.
Qed.

(** A run of the API on binary64 scalars: two creates, the first filter
    destroyed, an update, one more create. *)
Lemma handles_increase_until_wrap_witness :
  let calls := [CallCreate 1 double_0_001 double_0_1;
                CallCreate 2 double_0_001 double_0_1;
                CallDestroy 1;
                CallUpdate 2 [1%float; 1%float] 2;
                CallCreate 1 double_0_001 double_0_1] in
  created_handles (api_run registry_init calls).2 = [1; 2; 3]
  ∧ handles_never_reused (api_run registry_init calls).2.
Proof.
  intros calls.
  destruct (handles_increase_until_wrap calls) as [H1 H2].
  - vm_compute. discriminate.
  - split; [|exact H2]. vm_compute. reflexivity.
Defined.

(** C6 as stated fails on the code: the create that follows the
    [2^31 - 1]-th one returns [INT_MIN], which is below every handle issued
    before it. *)
Lemma handles_wrap_counterexample :
  ¬ handles_never_reused
      (api_run registry_init
         (replicate (Z.to_nat 2147483647) (CallCreate 1 double_0_001 double_0_1)
          ++ [CallCreate 1 double_0_001 double_0_1])).2.
Proof.
  intros Hnever.
  pose proof (run_creates_counter 2147483647 1 double_0_001 double_0_1
                ltac:(lia) ltac:(lia)) as Hcnt.
  pose proof (run_creates_length (Z.to_nat 2147483647) 1 double_0_001 double_0_1
                ltac:(lia)) as Hlen.
  destruct (trace_invariant_run
              (replicate (Z.to_nat 2147483647) (CallCreate 1 double_0_001 double_0_1)))
    as (_ & Hidx & _).
  assert (0 < Z.to_nat 2147483647)%nat as Hpos by lia.
  set (N := Z.to_nat 2147483647) in *. clearbody N.
  rewrite api_run_snoc in Hnever.
  rewrite api_step_create_ok in Hnever by lia. simpl in Hnever.
  set (run := api_run registry_init (replicate N (CallCreate 1 double_0_001 double_0_1)))
    in *.
  destruct (Hnever run.2 (g_next_handle run.1) [] eq_refl) as [Hlt _].
  destruct (lookup_lt_is_Some_2 (created_handles run.2) 0%nat ltac:(lia))
    as [h0 Hh0].
  pose proof (Hidx 0%nat h0 Hh0) as ->.
  specialize (Hlt (wrap_int (1 + Z.of_nat 0))).
  rewrite Hcnt in Hlt.
  assert (wrap_int (1 + Z.of_nat 0) < wrap_int (1 + 2147483647)) as Habs.
  { apply Hlt. apply elem_of_created_handles.
    apply list_elem_of_lookup. by exists 0%nat. }
  vm_compute in Habs. discriminate.
Qed.

(** ** C5: creation *)

(** C5, as the code has it.  In every registry reached from the initial one
    by a run that has issued fewer than [INT_MAX = 2^31 - 1] handles: a call
    of [kf_create] that returns, returns 0 exactly when [dimensions <= 0];
    with [dimensions <= 0] it returns 0 and changes nothing; with
    [dimensions > 0] whose square exceeds [INT_MAX] (46341 and above) the
    element count [dimensions * dimensions] overflows in the constructor
    and the call has no defined result; for [dimensions > 0] whose square
    fits an [int] and any noise values it returns the positive
    handle held by the counter and stores under it a new filter that
    satisfies the data-model invariant, with [x] the zero vector of length
    [dimensions], [F = H = identity(dimensions)], [Q] and [R] the noise
    values on the diagonal and zero elsewhere, and
    [P = identity(dimensions)]. *)
Theorem kf_create_spec {D : Type} {SD : Scalar D}
    (calls : list (Call (D:=D))) (dimensions : Z) (pn mn : D) :
  Z.of_nat (length (created_handles (api_run registry_init calls).2)) < INT_MAX →
  let reg := (api_run registry_init calls).1 in
  let f := KalmanFilter_new dimensions pn mn in
  (∀ reg' h, Fallible.kf_create reg dimensions pn mn = Some (reg', h) →
     (h = 0 ↔ dimensions ≤ 0))
  ∧ (dimensions ≤ 0 → Fallible.kf_create reg dimensions pn mn = Some (reg, 0))
  ∧ (0 < dimensions → INT_MAX < dimensions * dimensions →
       Fallible.kf_create reg dimensions pn mn = None)
  ∧ (0 < dimensions → dimensions * dimensions ≤ INT_MAX →
       Fallible.kf_create reg dimensions pn mn
       = Some (kf_create reg dimensions pn mn)
       ∧ 0 < (kf_create reg dimensions pn mn).2
       ∧ (kf_create reg dimensions pn mn).2 = g_next_handle reg
       ∧ g_filters (kf_create reg dimensions pn mn).1
         = <[(kf_create reg dimensions pn mn).2 := f]> (g_filters reg)
       ∧ g_filters (kf_create reg dimensions pn mn).1
           !! (kf_create reg dimensions pn mn).2 = Some f
       ∧ filter_ok f
       ∧ dimensions_ f = dimensions
       ∧ matrix_ok dimensions 1 (state_ f)
       ∧ mat_eq dimensions 1 (entries (state_ f)) spec_zero
       ∧ transition_matrix_ f = Matrix_identity dimensions
       ∧ measurement_matrix_ f = Matrix_identity dimensions
       ∧ mat_eq dimensions dimensions (entries (Matrix_identity dimensions))
           spec_identity
       ∧ mat_eq dimensions dimensions (entries (process_noise_ f))
           (spec_scaled_identity pn)
       ∧ mat_eq dimensions dimensions (entries (measurement_noise_ f))
           (spec_scaled_identity mn)
       ∧ state_covariance_ f = Matrix_identity dimensions).
Proof.
  intros Hk reg f.
  pose proof (counter_before_wrap calls Hk) as Hcnt. fold reg in Hcnt.
  assert (0 < g_next_handle reg) as Hpos by lia.
  split; [|split; [|split]].
  - intros reg' h E. destruct (decide (dimensions ≤ 0)) as [Hd|Hd].
    + rewrite fallible_kf_create_failed in E by done. by injection E as _ <-.
    + destruct (decide (dimensions * dimensions ≤ INT_MAX)) as [Hn|Hn].
      * rewrite fallible_kf_create_returns in E by lia.
        rewrite kf_create_succeeded in E by lia. injection E as _ <-. lia.
      * rewrite fallible_kf_create_fails in E by lia. discriminate E.
  - apply fallible_kf_create_failed.
  - apply fallible_kf_create_fails.
  - intros Hd Hn. split; [by apply fallible_kf_create_returns|].
    rewrite kf_create_succeeded by done; simpl.
    destruct (KalmanFilter_new_entries dimensions pn mn)
      as (Hx & HQ & HR & HP & HF & HH).
    pose proof (KalmanFilter_new_ok dimensions pn mn Hd) as Hok.
    split; [done|]. split; [done|]. split; [done|].
    split; [by rewrite lookup_insert_eq|]. split; [done|]. split; [done|].
    split; [apply Hok|]. split; [done|]. split; [done|]. split; [done|].
    split; [done|]. split; [done|]. split; done.
Qed.

(** In the registry left by one create and its destroy:
    [kf_create(2, 0.001, 0.1)], [kf_create(0, ...)] and
    [kf_create(46341, ...)]. *)
Lemma kf_create_spec_witness :
  let calls := [CallCreate 1 double_0_001 double_0_1; CallDestroy 1] in
  let reg := (api_run registry_init calls).1 in
  Fallible.kf_create reg 2 double_0_001 double_0_1
  = Some (kf_create reg 2 double_0_001 double_0_1)
  ∧ (kf_create reg 2 double_0_001 double_0_1).2 = 2
  ∧ Fallible.kf_create reg 0 double_0_001 double_0_1 = Some (reg, 0)
  ∧ Fallible.kf_create reg 46341 double_0_001 double_0_1 = None.
Proof.
  intros calls reg.
  assert (Z.of_nat (length (created_handles (api_run registry_init calls).2))
          < INT_MAX) as Hk by (vm_compute; reflexivity).
  destruct (kf_create_spec calls 2 double_0_001 double_0_1 Hk)
    as (_ & _ & _ & Hsucc).
  destruct (kf_create_spec calls 0 double_0_001 double_0_1 Hk)
    as (_ & Hzero & _).
  destruct (kf_create_spec calls 46341 double_0_001 double_0_1 Hk)
    as (_ & _ & Hfail & _).
  destruct (Hsucc ltac:(lia) ltac:(vm_compute; discriminate)) as (H1 & _ & H2 & _).
  split; [exact H1|]. split; [etrans; [exact H2|vm_compute; reflexivity]|].
  split; [apply Hzero; lia|]. apply Hfail; [lia|vm_compute; reflexivity].
Defined.

(** C5 as stated fails on the code once the counter has wrapped: after
    [2^31 - 1] creates the next successful create returns the negative
    handle [INT_MIN], and after [2^32 - 1] creates it returns 0 although
    [dimensions > 0]. *)
Lemma kf_create_wrap_counterexample :
  let create := CallCreate 1 double_0_001 double_0_1 in
  (kf_create (api_run registry_init (replicate (Z.to_nat 2147483647) create)).1
             1 double_0_001 double_0_1).2 = -2147483648
  ∧ (kf_create (api_run registry_init (replicate (Z.to_nat 4294967295) create)).1
               1 double_0_001 double_0_1).2 = 0.
Proof.
  intros create.
  pose proof (run_creates_counter 2147483647 1 double_0_001 double_0_1
                ltac:(lia) ltac:(lia)) as Hneg.
  pose proof (run_creates_counter 4294967295 1 double_0_001 double_0_1
                ltac:(lia) ltac:(lia)) as Hzero.
  fold create in Hneg, Hzero.
  set (N1 := Z.to_nat 2147483647) in *. set (N2 := Z.to_nat 4294967295) in *.
  clearbody N1 N2.
  rewrite !kf_create_succeeded by lia. unfold snd.
  rewrite Hneg, Hzero. split; reflexivity.
Qed.

(** ** C1: one call of [update] is one step of the spec recursion *)

(** C1, as the code has it.  For every filter that satisfies the data-model
    invariant and whose stored state x and covariance P hold regular values
    (binary64: finite and not the negative zero; exact arithmetic: any
    value), and every measurement vector whose length [count] equals the
    filter's dimensions: the predicted state is the state object itself
    ([F·x = x]), the predicted covariance is [P + Q]
    ([F·P·Fᵗ + Q = P + Q]), the innovation covariance is [S = (P + Q) + R],
    the inverse used is the reciprocal of the diagonal entries of [S] and
    zero elsewhere, the gain is [K = (P + Q)·S⁻¹], the new state is
    [x + K·(z − x)], the new covariance is [(I − K)·(P + Q)], nothing else
    of the filter changes, and the value returned is the new state.  Sums
    are taken from [0.0] in increasing index order, as the code does. *)
Theorem update_performs_spec_recursion {D : Type} {SD : Scalar D} {NL : NeutralLaws D}
    (f : KalmanFilter D) (ms : list D) (count : Z) :
  filter_ok f →
  regular_entries (dimensions_ f) 1 (state_ f) →
  regular_entries (dimensions_ f) (dimensions_ f) (state_covariance_ f) →
  Z.of_nat (length ms) = count →
  count = dimensions_ f →
  let n := dimensions_ f in
  let x := entries (state_ f) in
  let P := entries (state_covariance_ f) in
  let Q := entries (process_noise_ f) in
  let R := entries (measurement_noise_ f) in
  let f' := (KalmanFilter_update f ms count).1 in
  predicted_state f = state_ f
  ∧ predicted_covariance f = Matrix_add (state_covariance_ f) (process_noise_ f)
  ∧ mat_eq n n (entries (predicted_covariance f)) (spec_predicted_P P Q)
  ∧ mat_eq n n (entries (innovation_covariance f)) (spec_S P Q R)
  ∧ mat_eq n n (entries (inv_innovation_covariance f))
      (spec_diag_inverse (spec_S P Q R))
  ∧ mat_eq n n (entries (kalman_gain f)) (spec_K n P Q R)
  ∧ mat_eq n 1 (entries (state_ f')) (spec_new_x n x P Q R (column ms))
  ∧ mat_eq n n (entries (state_covariance_ f')) (spec_new_P n P Q R)
  ∧ filter_ok f'
  ∧ dimensions_ f' = n
  ∧ process_noise_ f' = process_noise_ f
  ∧ measurement_noise_ f' = measurement_noise_ f
  ∧ transition_matrix_ f' = transition_matrix_ f
  ∧ measurement_matrix_ f' = measurement_matrix_ f
  ∧ ∃ out, (KalmanFilter_update f ms count).2 = Some out
           ∧ length out = Z.to_nat n
           ∧ ∀ i, 0 ≤ i < n → out !! Z.to_nat i = Some (entries (state_ f') i 0).
Proof.
  intros Hok Hx HP Hlen -> n x P Q R f'.
  pose proof (predicted_state_neutral f Hok Hx) as Hpx.
  pose proof (predicted_covariance_neutral f Hok HP) as HpP.
  destruct (update_locals_spec f Hok HpP) as (EpP & ES & Einv & EK).
  destruct (update_spec f ms Hok Hpx HpP) as (Ex' & EP').
  destruct (update_preserves_ok f ms Hok)
    as (Hok' & Hd & HQ & HR & HF & HH & Hret & Hbuf).
  split; [done|]. split; [done|].
  do 6 (split; [done|]). do 6 (split; [done|]).
  exists (estimated_state_ f'). split; [done|]. split; [|done].
  destruct Hok' as (_ & _ & _ & _ & _ & _ & _ & Hl). rewrite Hd in Hl. exact Hl.
Qed.

(** A two-dimensional binary64 filter, fresh from the constructor, fed the
    measurement (1, 2). *)
Lemma update_performs_spec_recursion_witness :
  let f := KalmanFilter_new 2 double_0_001 double_0_1 in
  let ms := [1%float; 2%float] in
  filter_ok f
  ∧ predicted_state f = state_ f
  ∧ mat_eq 2 1 (entries (state_ (KalmanFilter_update f ms 2).1))
      (spec_new_x 2 (entries (state_ f)) (entries (state_covariance_ f))
         (entries (process_noise_ f)) (entries (measurement_noise_ f)) (column ms)).
Proof.
  intros f ms.
  assert (filter_ok f) as Hok by (apply KalmanFilter_new_ok; lia).
  destruct (KalmanFilter_new_entries 2 double_0_001 double_0_1)
    as (Ex & _ & _ & EP & _).
  assert (regular_entries 2 1 (state_ f)) as Hx.
  { intros i j Hi Hj. change (regular (entries (state_ f) i j)).
    rewrite Ex by done. exact I. }
  assert (regular_entries 2 2 (state_covariance_ f)) as HP.
  { intros i j Hi Hj. change (regular (entries (state_covariance_ f) i j)).
    rewrite EP by done. unfold spec_identity. by case_bool_decide. }
  destruct (update_performs_spec_recursion f ms 2 Hok Hx HP eq_refl eq_refl)
    as (Hpx & _ & _ & _ & _ & _ & Hx' & _).
  split; [exact Hok|]. split; [exact Hpx|exact Hx'].
Defined.

(** C1 as stated fails on the code for non-finite values: after the
    measurement (∞, 0) the stored state of a two-dimensional filter is
    (∞, NaN), and the predicted state [F·x] of the next update is
    (NaN, NaN), not [x]. *)
Lemma predicted_state_counterexample :
  let f := (KalmanFilter_update (KalmanFilter_new 2 double_0_001 double_0_1)
              [infinity; 0%float] 2).1 in
  filter_ok f
  ∧ data_ (state_ f) = [infinity; nan]
  ∧ data_ (predicted_state f) = [nan; nan]
  ∧ predicted_state f ≠ state_ f.
Proof.
  intros f.
  assert (filter_ok f) as Hok.
  { apply (update_preserves_ok (KalmanFilter_new 2 double_0_001 double_0_1)).
    apply KalmanFilter_new_ok. lia. }
  split; [exact Hok|]. split; [by vm_compute|]. split; [by vm_compute|].
  intros Heq. apply (f_equal (λ m, is_nan (Matrix_at m 0 0))) in Heq.
  vm_compute in Heq. discriminate.
Qed.

(** ** C2: the covariances stay diagonal *)

(** C2, as the code has it.  For a filter created with [n > 0] and any
    noise values, and any sequence of correctly-sized update calls:
    (a) if the diagonal entries of P, of P + Q, of the inverse of S and of
    I − K are regular in each update (binary64: finite; exact arithmetic:
    always), then after any number [k] of its updates the stored P is
    diagonal and so are the predicted covariance and the innovation
    covariance S that the next update computes, with off-diagonal entries
    exactly zero;
    (b) in exact arithmetic this holds for every sequence, and whenever the
    diagonal entries of S are non-zero the matrix built from their
    reciprocals is the inverse of S on both sides. *)
Theorem covariances_stay_diagonal {D : Type} {SD : Scalar D} :
  (∀ (NL : NeutralLaws D) (n : Z) (pn mn : D) (calls : list (list D * Z)),
     0 < n → well_sized n calls →
     run_regular (KalmanFilter_new n pn mn) calls →
     ∀ k : nat,
       let f := run_updates (KalmanFilter_new n pn mn) (take k calls) in
       dimensions_ f = n
       ∧ is_diagonal n (entries (state_covariance_ f))
       ∧ is_diagonal n (entries (predicted_covariance f))
       ∧ is_diagonal n (entries (innovation_covariance f)))
  ∧ (∀ (ED : ExactScalar D) (n : Z) (pn mn : D) (calls : list (list D * Z)),
       0 < n → well_sized n calls →
       ∀ k : nat,
         let f := run_updates (KalmanFilter_new n pn mn) (take k calls) in
         dimensions_ f = n
         ∧ is_diagonal n (entries (state_covariance_ f))
         ∧ is_diagonal n (entries (predicted_covariance f))
         ∧ is_diagonal n (entries (innovation_covariance f))
         ∧ ((∀ i, 0 ≤ i < n → entries (innovation_covariance f) i i ≠ s0) →
              Matrix_mul (innovation_covariance f) (inv_innovation_covariance f)
              = Matrix_identity n
              ∧ Matrix_mul (inv_innovation_covariance f) (innovation_covariance f)
                = Matrix_identity n)).
Proof.
  assert (∀ (NL : NeutralLaws D) (n : Z) (pn mn : D) (calls : list (list D * Z)),
            0 < n → run_regular (KalmanFilter_new n pn mn) calls →
            filter_ok (run_updates (KalmanFilter_new n pn mn) calls)
            ∧ dimensions_ (run_updates (KalmanFilter_new n pn mn) calls) = n
            ∧ is_diagonal n
                (entries (state_covariance_
                            (run_updates (KalmanFilter_new n pn mn) calls)))
            ∧ is_diagonal n
                (entries (predicted_covariance
                            (run_updates (KalmanFilter_new n pn mn) calls)))
            ∧ is_diagonal n
                (entries (innovation_covariance
                            (run_updates (KalmanFilter_new n pn mn) calls))))
    as Hgen.
  { intros NL n pn mn calls Hn Hreg.
    pose proof (covariances_diagonal_new n pn mn Hn) as H0.
    destruct (covariances_diagonal_run_regular _ calls H0 Hreg) as [Hf RP].
    destruct (covariances_diagonal_locals_regular _ Hf RP) as (_ & DpP & DS).
    rewrite run_updates_dimensions in DpP, DS by apply H0.
    destruct Hf as (Hok & DP & _).
    rewrite run_updates_dimensions in DP by apply H0.
    split; [done|]. split; [by rewrite run_updates_dimensions by apply H0|].
    done. }
  split.
  - intros NL n pn mn calls Hn _ Hreg k. cbv zeta.
    by destruct (Hgen NL n pn mn (take k calls) Hn (run_regular_take _ _ k Hreg))
      as (_ & ? & ? & ? & ?).
  - intros ED n pn mn calls Hn _ k. cbv zeta.
    destruct (Hgen exact_neutral n pn mn (take k calls) Hn (run_regular_exact _ _))
      as (Hok & Hd & DP & DpP & DS).
    do 4 (split; [done|]).
    intros Hnz. unfold inv_innovation_covariance. rewrite Hd.
    apply diagonal_inverse_is_inverse; [lia| |done|done].
    destruct (update_locals_ok _ [] Hok) as (_ & _ & _ & HS & _).
    by rewrite Hd in HS.
Qed.

(** The two-dimensional binary64 filter of the demo's noise values after
    two updates: the diagonal entries used are finite, and P and S are
    diagonal. *)
Lemma covariances_stay_diagonal_witness :
  let calls := [([1%float; 2%float], 2); ([1%float; 1%float], 2)] in
  let f := run_updates (KalmanFilter_new 2 double_0_001 double_0_1) calls in
  well_sized 2 calls
  ∧ run_regular (KalmanFilter_new 2 double_0_001 double_0_1) calls
  ∧ is_diagonal 2 (entries (state_covariance_ f))
  ∧ is_diagonal 2 (entries (innovation_covariance f)).
Proof.
  intros calls f.
  assert (well_sized 2 calls) as Hsized by (repeat constructor).
  assert (run_regular (KalmanFilter_new 2 double_0_001 double_0_1) calls) as Hreg.
  { split; [regular_by_evaluation|]. split; regular_by_evaluation. }
  destruct (covariances_stay_diagonal (D:=float)) as [Hdiag _].
  destruct (Hdiag float_neutral 2 double_0_001 double_0_1 calls
              ltac:(lia) Hsized Hreg 2%nat) as (_ & HP & _ & HS).
  split; [exact Hsized|]. split; [exact Hreg|]. split; [exact HP|exact HS].
Defined.

(** C2 as stated fails on the code.  With [process_noise = 0] and
    [measurement_noise = -1] the first update divides by [S(i, i) = 0]; the
    infinite reciprocal times the zeros off the diagonal gives NaN, and the
    stored P is no longer diagonal.  And with [measurement_noise = 48] the
    product of [S = (49)] and its reciprocal matrix is not the identity:
    [49 · (1/49)] rounds below 1. *)
Lemma covariance_not_diagonal_counterexample :
  let f := run_updates (KalmanFilter_new 2 0%float (-1)%float)
             [([1%float; 1%float], 2)] in
  let g := KalmanFilter_new 1 0%float 48%float in
  data_ (state_covariance_ f) = [nan; nan; nan; nan]
  ∧ ¬ is_diagonal 2 (entries (state_covariance_ f))
  ∧ data_ (innovation_covariance g) = [49%float]
  ∧ Matrix_mul (innovation_covariance g) (inv_innovation_covariance g)
    ≠ Matrix_identity 1.
Proof.
  intros f g. split; [by vm_compute|]. split; [|split; [by vm_compute|]].
  - intros Hdiag. specialize (Hdiag 0 1 ltac:(lia) ltac:(lia) ltac:(lia)).
    apply (f_equal is_nan) in Hdiag. vm_compute in Hdiag. discriminate.
  - intros Heq. apply (f_equal (λ m, (Matrix_at m 0 0 =? 1)%float)) in Heq.
    vm_compute in Heq. discriminate.
Qed.

(** ** C8: the division of the diagonal inverse *)




(** The unguarded division at work in binary64: with [process_noise = 0]
    and [measurement_noise = -1] the first update divides by [S = 0] and
    returns an infinite estimate. *)
Example division_by_zero_in_binary64 :
  let f := KalmanFilter_new 1 0%float (-1)%float in
  update_divisors f = [0%float]
  ∧ (KalmanFilter_update f [1%float] 1).2 = Some [infinity].
Proof. intros f. split; by vm_compute. Qed.

(** In binary64 the recursion does not keep the diagonal of P from going
    negative, even on finite values: with a process noise near the largest
    double the reciprocal of S is subnormal, the gain rounds above 1 and
    the stored variance is negative.  S is still positive there. *)
Example covariance_negative_in_binary64 :
  let pn := 0x1.ad9ce819d7ca7p+1022%float in
  let mn := 0x1p-1022%float in
  let f := run_updates (KalmanFilter_new 1 pn mn) [([0%float], 1)] in
  (0 <=? pn)%float = true
  ∧ (0 <? mn)%float = true
  ∧ (1 <? Matrix_at (kalman_gain (KalmanFilter_new 1%Z pn mn)) 0%Z 0%Z)%float = true
  ∧ (Matrix_at (state_covariance_ f) 0%Z 0%Z <? 0)%float = true
  ∧ (0 <? Matrix_at (innovation_covariance f) 0%Z 0%Z)%float = true.
Proof. intros pn mn f. repeat split; by vm_compute. Qed.

(** ** C4: the constant-measurement scenario of the demo *)

(** C4.  A filter created with [dimensions = 1], [process_noise = 0.001],
    [measurement_noise = 0.1] (so [x0 = 0]) and fed the measurement 1 through
    five successive [kf_update] calls returns five estimates that are
    strictly increasing and each strictly below 1: in binary64, the
    arithmetic of the code, and in exact rational arithmetic alike. *)
Theorem constant_feed_estimates_increase :
  (∃ x1 x2 x3 x4 x5 : float,
     update_results
       (api_run registry_init (constant_feed double_0_001 double_0_1 1%float 5)).2
     = [Some [x1]; Some [x2]; Some [x3]; Some [x4]; Some [x5]]
     ∧ (0 <? x1)%float = true
     ∧ (x1 <? x2)%float = true
     ∧ (x2 <? x3)%float = true
     ∧ (x3 <? x4)%float = true
     ∧ (x4 <? x5)%float = true
     ∧ (x5 <? 1)%float = true)
  ∧ (∃ y1 y2 y3 y4 y5 : Qc,
       update_results
         (api_run registry_init (constant_feed exact_0_001 exact_0_1 1%Qc 5)).2
       = [Some [y1]; Some [y2]; Some [y3]; Some [y4]; Some [y5]]
       ∧ (0 < y1)%Qc ∧ (y1 < y2)%Qc ∧ (y2 < y3)%Qc ∧ (y3 < y4)%Qc
       ∧ (y4 < y5)%Qc ∧ (y5 < 1)%Qc).
Proof.
  split.
  - do 5 eexists. split; [vm_compute; reflexivity|]. repeat split; by vm_compute.
  - do 5 eexists. split; [vm_compute; reflexivity|]. repeat split; by vm_compute.
Qed.

(** * Further properties of the code *)

(** ** The matrix class *)

Section MatrixAlgebra.
Context {D : Type} {SD : Scalar D}.
Implicit Types m a b : Matrix D.

(** X1. [transpose] swaps the shape and the indices: the transpose of a
    well-formed [r × c] matrix is a well-formed [c × r] matrix whose entry
    [(j, i)] is the entry [(i, j)] of the operand, and transposing twice gives
    back the same matrix object (shape and store), in any arithmetic. *)
Theorem transpose_is_involution (r c : Z) a :
  0 ≤ r → 0 ≤ c → matrix_ok r c a →
  matrix_ok c r (Matrix_transpose a)
  ∧ (∀ i j, 0 ≤ i < r → 0 ≤ j < c →
       Matrix_at (Matrix_transpose a) j i = Matrix_at a i j)
  ∧ Matrix_transpose (Matrix_transpose a) = a.
Proof.
  intros Hr Hc Ha.
  pose proof (Matrix_transpose_shape r c a Ha) as Ht.
  pose proof (Matrix_transpose_shape c r _ Ht) as Htt.
  split; [done|]. split.
  - intros i j Hi Hj. destruct Ha as (Har & Hac & _).
    apply Matrix_transpose_entries; lia.
  - apply (matrix_ext r c); [done..|].
    intros i j Hi Hj. unfold entries.
    destruct Ha as (Har & Hac & _). destruct Ht as (Htr & Htc & _).
    rewrite Matrix_transpose_entries by lia.
    rewrite Matrix_transpose_entries by lia. done.
Qed.

(** X2. Whenever the multiplication of the scalars commutes (it does in
    binary64 and in every exact field), the transpose of a product is the
    product of the transposes in the opposite order, as matrix objects:
    [transpose(A * B) = transpose(B) * transpose(A)] for well-formed [A] of
    shape [r × n] and [B] of shape [n × c].  The sums of both sides run over
    the same index in the same order. *)
Theorem transpose_of_product (r n c : Z) a b :
  (∀ x y : D, (x * y)%S = (y * x)%S) →
  0 ≤ r → 0 ≤ c → matrix_ok r n a → matrix_ok n c b →
  Matrix_transpose (Matrix_mul a b)
  = Matrix_mul (Matrix_transpose b) (Matrix_transpose a).
Proof.
  intros Hcomm Hr Hc Ha Hb.
  destruct (Matrix_mul_shape r n c a b Ha Hb) as [Hab Eab].
  pose proof (Matrix_transpose_shape r c _ Hab) as Hl.
  pose proof (Matrix_transpose_shape r n a Ha) as Hat.
  pose proof (Matrix_transpose_shape n c b Hb) as Hbt.
  destruct (Matrix_mul_shape c n r _ _ Hbt Hat) as [Hr' Er'].
  apply (matrix_ext c r); [done..|].
  intros j i Hj Hi. rewrite Er' by done. unfold entries.
  destruct Hab as (Habr & Habc & _).
  rewrite Matrix_transpose_entries by lia.
  change (entries (Matrix_mul a b) i j = spec_mul n (Matrix_at (Matrix_transpose b))
            (Matrix_at (Matrix_transpose a)) j i).
  rewrite Eab by done. unfold spec_mul. apply sum_upto_ext. intros k Hk.
  unfold entries. destruct Ha as (Har & Hac & _), Hb as (Hbr & Hbc & _).
  rewrite !Matrix_transpose_entries by lia. apply Hcomm.
Qed.

(** X3. Elements are addressed row-major and nothing checks an index: on
    a well-formed [r × c] matrix, assigning [m(i, j) = v] at an in-range
    position keeps the shape and changes that element only; and, for every
    [i] and [j], the element [(i, j + c)] is the element [(i + 1, j)]: a
    column index past the end of a row designates the next row. *)
Theorem element_access_is_row_major (r c : Z) m (i j i' j' : Z) (v : D) :
  matrix_ok r c m → 0 ≤ i < r → 0 ≤ j < c → 0 ≤ i' < r → 0 ≤ j' < c →
  matrix_ok r c (Matrix_set m i j v)
  ∧ Matrix_at (Matrix_set m i j v) i' j'
    = (if bool_decide (i = i' ∧ j = j') then v else Matrix_at m i' j')
  ∧ Matrix_at m i (j + c) = Matrix_at m (i + 1) j
  ∧ Matrix_set m i (j + c) v = Matrix_set m (i + 1) j v.
Proof.
  intros Hm Hi Hj Hi' Hj'. split; [by apply matrix_ok_set|]. split.
  - case_bool_decide as Heq.
    + destruct Heq as [<- <-]. by apply (Matrix_at_set_same r c).
    + apply (Matrix_at_set_other r c); try done. intros [= -> ->]. by apply Heq.
  - destruct Hm as (_ & Hc & _). subst c. split.
    + unfold Matrix_at. do 3 f_equal. lia.
    + unfold Matrix_set. do 2 f_equal. lia.
Qed.

End MatrixAlgebra.

(** X4. [identity(n)] is a unit of the matrix product on regular entries
    (binary64: finite and not the negative zero; exact arithmetic: any
    value): for a well-formed [r × c] matrix [m] of regular entries,
    [identity(r) * m] and [m * identity(c)] are the matrix object [m]; and
    when [1.0] is regular, as it is in binary64 and in exact arithmetic,
    [identity(r) * identity(r) = identity(r)]. *)
Theorem identity_is_unit {D : Type} {SD : Scalar D} {NL : NeutralLaws D}
    (r c : Z) (m : Matrix D) :
  0 ≤ r → 0 ≤ c → matrix_ok r c m → regular_entries r c m →
  Matrix_mul (Matrix_identity r) m = m
  ∧ Matrix_mul m (Matrix_identity c) = m
  ∧ (regular (s1 : D) →
       Matrix_mul (Matrix_identity r) (Matrix_identity r) = Matrix_identity r).
Proof.
  intros Hr Hc Hm Hreg.
  split; [by apply (Matrix_mul_identity_l r c)|].
  split; [by apply (Matrix_mul_identity_r r c)|].
  intros H1. apply (Matrix_mul_identity_l r r); [done|done|apply Matrix_identity_ok|].
  intros i j Hi Hj. rewrite Matrix_identity_entries by done.
  unfold spec_identity. case_bool_decide; [done|apply regular_s0].
Qed.

(** The multiplication of binary64 commutes. *)
Lemma float_mul_comm (x y : float) : (x * y)%float = (y * x)%float.
Proof.
  apply Prim2SF_inj. rewrite !mul_spec.
  destruct (Prim2SF x) as [sx|sx| |sx mx ex], (Prim2SF y) as [sy|sy| |sy my ey];
    simpl; try done; try (by rewrite xorb_comm).
  by rewrite xorb_comm, Pos.mul_comm, Z.add_comm.
Qed.

(** A 2 × 3 matrix of binary64 values. *)
Lemma transpose_is_involution_witness :
  let a := mkMatrix 2 3 [1; 2; 3; 4; 5; 6]%float in
  matrix_ok 2 3 a
  ∧ Matrix_transpose (Matrix_transpose a) = a.
Proof.
  intros a. assert (matrix_ok 2 3 a) as Hok by done.
  destruct (transpose_is_involution 2 3 a ltac:(lia) ltac:(lia) Hok) as (_ & _ & H).
  split; [exact Hok|exact H].
Defined.

(** The product of a 2 × 2 and a 2 × 1 matrix of binary64 values. *)
Lemma transpose_of_product_witness :
  let a := mkMatrix 2 2 [1; 2; 3; 4]%float in
  let b := mkMatrix 2 1 [5; 6]%float in
  Matrix_transpose (Matrix_mul a b)
  = Matrix_mul (Matrix_transpose b) (Matrix_transpose a).
Proof.
  intros a b.
  exact (transpose_of_product 2 2 1 a b float_mul_comm ltac:(lia) ltac:(lia)
           ltac:(done) ltac:(done)).
Defined.

(** On a 2 × 3 matrix: writing (0, 2) leaves (1, 0) alone, and the
    element (0, 3) is the element (1, 0). *)
Lemma element_access_is_row_major_witness :
  let m := mkMatrix 2 3 [1; 2; 3; 4; 5; 6]%float in
  Matrix_at (Matrix_set m 0 2 9%float) 1 0 = Matrix_at m 1 0
  ∧ Matrix_at m 0 (0 + 3) = Matrix_at m (0 + 1) 0.
Proof.
  intros m.
  destruct (element_access_is_row_major 2 3 m 0 2 1 0 9%float ltac:(done)
              ltac:(lia) ltac:(lia) ltac:(lia) ltac:(lia)) as (_ & Hat & _).
  destruct (element_access_is_row_major 2 3 m 0 0 0 0 9%float ltac:(done)
              ltac:(lia) ltac:(lia) ltac:(lia) ltac:(lia)) as (_ & _ & Hrow & _).
  split; [exact Hat|exact Hrow].
Defined.

(** A 2 × 3 matrix of finite binary64 values, and the 2 × 2 identity. *)
Lemma identity_is_unit_witness :
  let m := mkMatrix 2 3 [1; 2; 3; 4; 5; 6]%float in
  Matrix_mul (Matrix_identity 2) m = m
  ∧ Matrix_mul m (Matrix_identity 3) = m
  ∧ Matrix_mul (Matrix_identity 2) (Matrix_identity 2) = Matrix_identity (D:=float) 2.
Proof.
  intros m.
  assert (regular_entries 2 3 m) as Hreg.
  { intros i j Hi Hj.
    assert (i = 0 ∨ i = 1) as [-> | ->] by lia;
      (assert (j = 0 ∨ j = 1 ∨ j = 2) as [-> | [-> | ->]] by lia); exact I. }
  destruct (identity_is_unit 2 3 m ltac:(lia) ltac:(lia) ltac:(done) Hreg)
    as (Hl & Hr & Hi).
  split; [exact Hl|]. split; [exact Hr|]. exact (Hi I).
Defined.

(** ** One update, component by component *)

(** In exact arithmetic every value is regular. *)
Lemma update_values_regular_exact {D : Type} {SD : Scalar D} {ED : ExactScalar D}
    (f : KalmanFilter D) (ms : list D) :
  update_values_regular (NL := exact_neutral) f ms.
Proof. split; [|split]; repeat intro; repeat split; exact I. Qed.

Section RegularUpdate.
Context {D : Type} {SD : Scalar D} {NL : NeutralLaws D}.

(** X5. On regular values (binary64: finite and not the negative zero;
    exact arithmetic: every value) an [n]-dimensional filter with diagonal
    covariances is [n] independent scalar filters: for each component [i],
    with [p = P(i,i) + Q(i,i)] and [r = R(i,i)], one [update] call with the
    right count uses the gain [k = p · (1 / (p + r))], stores the estimate
    [x(i) + k · (z(i) − x(i))] and the variance [(1 − k) · p]; the gain and
    the new covariance are zero off the diagonal, so no other component
    enters. *)
Theorem update_is_componentwise (f : KalmanFilter D) (ms : list D) (i : Z) :
  covariances_diagonal f → update_values_regular f ms → 0 ≤ i < dimensions_ f →
  let f' := (KalmanFilter_update f ms (dimensions_ f)).1 in
  let x := entries (state_ f) i 0 in
  let z := column ms i 0 in
  let p := (entries (state_covariance_ f) i i + entries (process_noise_ f) i i)%S in
  let r := entries (measurement_noise_ f) i i in
  let k := (p * (s1 / (p + r)))%S in
  entries (kalman_gain f) i i = k
  ∧ entries (state_ f') i 0 = (x + k * (z - x))%S
  ∧ entries (state_covariance_ f') i i = ((s1 - k) * p)%S
  ∧ ∀ j, 0 ≤ j < dimensions_ f → j ≠ i →
      entries (kalman_gain f) i j = s0
      ∧ entries (state_covariance_ f') i j = s0.
Proof.
  intros Hdiag (Hstep & Hregx & Hvals) Hi f' x z p r k.
  pose proof (covariances_diagonal_update_regular f ms (dimensions_ f) Hdiag Hstep)
    as (_ & DP' & _).
  destruct (covariances_diagonal_locals_regular f Hdiag) as (HpP & DpP & DS).
  { intros j Hj. by destruct (Hstep j Hj). }
  destruct Hdiag as (Hok & DP & DQ & DR).
  pose proof (predicted_state_neutral f Hok Hregx) as Hpx.
  destruct (update_locals_spec f Hok HpP) as (EpP & ES & Einv & EK).
  destruct (update_spec f ms Hok Hpx HpP) as (Ex' & EP').
  destruct (update_preserves_ok f ms Hok) as (_ & Hd & _).
  rewrite Hd in DP'.
  set (n := dimensions_ f) in *.
  set (P := entries (state_covariance_ f)) in *.
  set (Q := entries (process_noise_ f)) in *.
  set (R := entries (measurement_noise_ f)) in *.
  assert (is_diagonal n (spec_predicted_P P Q)) as DpP'.
  { by apply spec_add_diagonal_regular. }
  assert (is_diagonal n (spec_diag_inverse (spec_S P Q R))) as Dinv.
  { intros a b Ha Hb Hne. unfold spec_diag_inverse.
    by rewrite bool_decide_eq_false_2. }
  assert (is_diagonal n (spec_K n P Q R)) as DK.
  { apply spec_mul_diagonal_regular; [done|done| |].
    - intros j Hj. rewrite <- EpP by done. by destruct (Hstep j Hj) as (_ & ? & _).
    - intros j Hj. rewrite <- Einv by done.
      by destruct (Hstep j Hj) as (_ & _ & ? & _). }
  assert (∀ j, 0 ≤ j < n →
            spec_K n P Q R j j
            = ((P j j + Q j j) * (s1 / (P j j + Q j j + R j j)))%S) as HK.
  { intros j Hj. unfold spec_K, spec_mul.
    rewrite (sum_upto_single_regular n j); [| done | |].
    - unfold spec_diag_inverse, spec_S, spec_predicted_P, spec_add.
      by rewrite bool_decide_eq_true_2.
    - unfold spec_diag_inverse, spec_S, spec_predicted_P, spec_add.
      rewrite bool_decide_eq_true_2 by done.
      by destruct (Hvals j Hj) as (_ & ? & _).
    - intros a Ha Hne. rewrite (DpP' j a) by done.
      rewrite (Dinv a j) by done. apply smul_0_l_regular, regular_s0. }
  split; [rewrite EK by done; by apply HK|]. split; [|split].
  - subst f'. rewrite Ex' by (done || lia). unfold spec_new_x, spec_add.
    fold x. f_equal. unfold spec_mul.
    rewrite (sum_upto_single_regular n i); [| done | |].
    + rewrite HK by done. reflexivity.
    + rewrite HK by done. by destruct (Hvals i Hi) as (_ & _ & ? & _).
    + intros a Ha Hne. rewrite (DK i a) by done.
      apply smul_0_l_regular. unfold spec_sub.
      by destruct (Hvals a Ha) as (? & _).
  - subst f'. rewrite EP' by done. unfold spec_new_P, spec_mul.
    rewrite (sum_upto_single_regular n i); [| done | |].
    + unfold spec_sub, spec_identity, spec_predicted_P, spec_add.
      rewrite bool_decide_eq_true_2 by done. by rewrite HK by done.
    + unfold spec_sub, spec_identity, spec_predicted_P, spec_add.
      rewrite bool_decide_eq_true_2 by done. rewrite HK by done.
      by destruct (Hvals i Hi) as (_ & _ & _ & ?).
    + intros a Ha Hne. unfold spec_sub, spec_identity.
      rewrite bool_decide_eq_false_2 by done.
      rewrite (DK i a) by done. rewrite (DpP' a i) by done.
      rewrite ssub_0_0. apply smul_0_l_regular, regular_s0.
  - intros j Hj Hne. split.
    + rewrite EK by done. by apply DK.
    + by apply DP'.
Qed.

End RegularUpdate.

(** The second component of a fresh two-dimensional binary64 filter with
    the demo's noise values, fed the measurement (1, 2). *)
Lemma update_is_componentwise_witness :
  let f := KalmanFilter_new 2 double_0_001 double_0_1 in
  let f' := (KalmanFilter_update f [1; 2]%float 2).1 in
  let k := ((1 + double_0_001) * (1 / (1 + double_0_001 + double_0_1)))%float in
  covariances_diagonal f
  ∧ update_values_regular f [1; 2]%float
  ∧ entries (state_ f') 1 0 = (0 + k * (2 - 0))%float
  ∧ entries (state_covariance_ f') 1 1 = ((1 - k) * (1 + double_0_001))%float
  ∧ entries (state_covariance_ f') 1 0 = 0%float.
Proof.
  intros f f' k.
  assert (covariances_diagonal f) as Hd by (apply covariances_diagonal_new; lia).
  assert (update_values_regular f [1; 2]%float) as Hreg.
  { split; [regular_by_evaluation|]. split.
    - intros i j Hi Hj. assert (j = 0) as -> by lia.
      revert i Hi. regular_by_evaluation.
    - regular_by_evaluation. }
  destruct (update_is_componentwise f [1; 2]%float 1 Hd Hreg ltac:(simpl; lia))
    as (_ & Hx & HP & Hoff).
  split; [exact Hd|]. split; [exact Hreg|]. split; [exact Hx|]. split; [exact HP|].
  exact (proj2 (Hoff 0 ltac:(simpl; lia) ltac:(lia))).
Defined.

(** ** The registry: a filter's life, and the count of live filters *)

Section RegistryLife.
Context {D : Type} {SD : Scalar D}.
Implicit Types reg : Registry D.
Implicit Types calls : list (Call (D:=D)).

Lemma destroyed_handles_app (tr1 tr2 : list (Event (D:=D))) :
  destroyed_handles (tr1 ++ tr2) = destroyed_handles tr1 ++ destroyed_handles tr2.
Proof. apply omap_app. Qed.

End RegistryLife.

(** X7. The life of one filter through the C API, in any registry and any
    arithmetic: [kf_create(n, ...)] with [n > 0] and [n * n <= INT_MAX]
    returns the counter value [h]; [kf_update(h, ms, n)] then returns a
    buffer of [n] values and stores the updated filter under [h], while any
    other [count] returns null and changes nothing; [kf_destroy(h)]
    afterwards leaves the map without [h] and the counter one step further.
    If [h] was not live before the create the map is back to what it was;
    otherwise the filter it held is gone. *)
Theorem create_update_destroy_round_trip {D : Type} {SD : Scalar D}
    (reg : Registry D) (n : Z) (pn mn : D) (ms : list D) :
  0 < n → n * n ≤ INT_MAX →
  let h := g_next_handle reg in
  ∃ reg1,
    Fallible.kf_create reg n pn mn = Some (reg1, h)
    ∧ let reg2 := (kf_update reg1 h ms n).1 in
      let reg3 := kf_destroy reg2 h in
      (∃ out, (kf_update reg1 h ms n).2 = Some out ∧ length out = Z.to_nat n
              ∧ g_filters reg2 !! h
                = Some (KalmanFilter_update (KalmanFilter_new n pn mn) ms n).1)
      ∧ (∀ count, count ≠ n → kf_update reg1 h ms count = (reg1, None))
      ∧ g_filters reg3 = delete h (g_filters reg)
      ∧ g_next_handle reg3 = wrap_int (g_next_handle reg + 1)
      ∧ (g_filters reg !! h = None → g_filters reg3 = g_filters reg).
Proof.
  intros Hn Hnn h.
  rewrite fallible_kf_create_returns by done.
  rewrite kf_create_succeeded by done. fold h.
  eexists. split; [reflexivity|]. cbv zeta.
  set (f := KalmanFilter_new n pn mn).
  set (reg1 := mkRegistry _ _).
  assert (g_filters reg1 !! h = Some f) as Hh by apply lookup_insert_eq.
  pose proof (KalmanFilter_new_ok n pn mn Hn) as Hok. fold f in Hok.
  assert (dimensions_ f = n) as Hd by done.
  destruct (update_preserves_ok f ms Hok) as (Hok' & Hd' & _ & _ & _ & _ & Hret & _).
  rewrite Hd in Hok', Hd', Hret.
  rewrite (kf_update_known reg1 h f) by done. simpl.
  split; [|split; [|split; [|split]]].
  - eexists. split; [exact Hret|]. split.
    + destruct Hok' as (_ & _ & _ & _ & _ & _ & _ & Hl). by rewrite Hd' in Hl.
    + by rewrite lookup_insert_eq.
  - intros count Hne. rewrite (kf_update_known reg1 h f) by done.
    rewrite update_mismatch by (by rewrite Hd). simpl. f_equal.
    apply registry_eq; simpl; [|done]. by apply insert_id.
  - unfold kf_destroy. simpl. rewrite lookup_insert_eq. simpl.
    by rewrite !delete_insert_eq.
  - unfold kf_destroy. simpl. by rewrite lookup_insert_eq.
  - intros Hfresh. unfold kf_destroy. simpl. rewrite lookup_insert_eq. simpl.
    rewrite !delete_insert_eq. by apply delete_id.
Qed.

(** In the registry that holds the filter of handle 1, a second filter is
    created, updated and destroyed. *)
Lemma create_update_destroy_round_trip_witness :
  let reg := (api_run registry_init [CallCreate 2 double_0_001 double_0_1]).1 in
  ∃ reg1,
    Fallible.kf_create reg 1 double_0_001 double_0_1 = Some (reg1, 2)
    ∧ g_filters (kf_destroy (kf_update reg1 2 [1%float] 1).1 2) = g_filters reg.
Proof.
  intros reg.
  destruct (create_update_destroy_round_trip reg 1 double_0_001 double_0_1 [1%float]
              ltac:(lia) ltac:(vm_compute; discriminate))
    as (reg1 & Hc & _ & _ & _ & _ & Hback).
  exists reg1. split; [exact Hc|]. apply Hback. vm_compute. reflexivity.
Defined.

(** X8. No filter is lost before the counter wraps: in every run of the
    API from the initial registry that issues at most [INT_MAX] handles, the
    number of live filters plus the number of destroys that released a
    filter equals the number of successful creates. *)
Theorem live_filters_are_created_minus_destroyed {D : Type} {SD : Scalar D}
    (calls : list (Call (D:=D))) :
  Z.of_nat (length (created_handles (api_run registry_init calls).2)) ≤ INT_MAX →
  (size (g_filters (api_run registry_init calls).1)
   + length (destroyed_handles (api_run registry_init calls).2)
   = length (created_handles (api_run registry_init calls).2))%nat.
Proof.
  induction calls as [|c calls IH] using rev_ind; intros Hk.
  { rewrite api_run_nil. simpl. by rewrite map_size_empty. }
  pose proof (issued_handle_before_wrap calls) as Hidx.
  pose proof (unissued_handle_unmapped calls) as Hun.
  pose proof (counter_before_wrap calls) as Hcnt.
  rewrite api_run_snoc in Hk |- *. simpl in Hk |- *.
  set (reg := (api_run registry_init calls).1) in *.
  set (tr := (api_run registry_init calls).2) in *.
  rewrite created_handles_app, destroyed_handles_app, !length_app in *.
  assert (Z.of_nat (length (created_handles tr)) ≤ INT_MAX) as Hk' by lia.
  specialize (IH Hk').
  destruct c as [dimensions pn mn|h' ms count|h'].
  - destruct (decide (0 < dimensions)) as [Hd|Hd].
    + rewrite api_step_create_ok in Hk |- * by done. simpl in Hk |- *.
      rewrite Hcnt by lia.
      rewrite map_size_insert_None; [lia|].
      rewrite <- Hcnt by lia. apply Hun. rewrite Hcnt by lia.
      intros Hin. apply list_elem_of_lookup in Hin as [i Hi].
      pose proof (Hidx i _ Hk' Hi). apply lookup_lt_Some in Hi. lia.
    + rewrite api_step_create_failed by lia. simpl. lia.
  - unfold api_step.
    destruct (kf_update reg h' ms count) as [reg' out] eqn:Hup; simpl.
    replace reg' with (kf_update reg h' ms count).1 by (by rewrite Hup).
    rewrite <- (size_dom (D:=gset Z)), kf_update_dom, size_dom. lia.
  - unfold api_step; simpl. case_bool_decide as Hh; simpl.
    + unfold kf_destroy. destruct Hh as [f Hf]. rewrite Hf. simpl.
      rewrite map_size_delete_Some by (by rewrite Hf).
      assert (size (g_filters reg) ≠ 0%nat); [|lia].
      intros Hz. apply map_size_empty_inv in Hz. rewrite Hz in Hf.
      by rewrite lookup_empty in Hf.
    + rewrite kf_destroy_unknown; [lia|].
      destruct (g_filters reg !! h') eqn:E; [|done]. destruct Hh. by eexists.
Qed.

(** Two creates, one destroy that releases a filter and one that does not,
    an update and a create that fails: one filter is live. *)
Lemma live_filters_are_created_minus_destroyed_witness :
  let calls := [CallCreate 1 double_0_001 double_0_1;
                CallCreate 2 double_0_001 double_0_1;
                CallDestroy 1; CallDestroy 1;
                CallUpdate 2 [1%float; 1%float] 2;
                CallCreate 0 double_0_001 double_0_1] in
  (size (g_filters (api_run registry_init calls).1) + 1 = 2)%nat.
Proof.
  intros calls.
  exact (live_filters_are_created_minus_destroyed calls ltac:(vm_compute; discriminate)).
Defined.

(** ** The demo *)

Section DemoFacts.
Implicit Types reg : Registry float.

Lemma run_updates_snoc {D} {SD : Scalar D} (f : KalmanFilter D) calls c :
  run_updates f (calls ++ [c]) = (KalmanFilter_update (run_updates f calls) c.1 c.2).1.
Proof. unfold run_updates. by rewrite foldl_snoc. Qed.

Lemma run_updates_ok {D} {SD : Scalar D} (f : KalmanFilter D) calls :
  filter_ok f → filter_ok (run_updates f calls) ∧ dimensions_ (run_updates f calls) = dimensions_ f.
Proof.
  intros Hok. induction calls as [|c calls IH] using rev_ind; [done|].
  destruct IH as [IH Hd]. rewrite run_updates_snoc.
  destruct (decide (c.2 = dimensions_ (run_updates f calls))) as [Hc|Hc].
  - rewrite Hc. destruct (update_preserves_ok _ c.1 IH) as (Hok' & Hd' & _).
    split; [done|congruence].
  - by rewrite update_mismatch.
Qed.

Lemma demo_loop_spec reg (noisy_data : list float) (count : Z) h :
  Z.of_nat (length noisy_data) = count →
  g_filters reg !! h = Some demo_filter →
  let st := for_loop count (demo_filter_sample h noisy_data)
              (reg, replicate (Z.to_nat count) 0%float) in
  g_filters st.1 = <[h := run_updates demo_filter (demo_calls noisy_data)]> (g_filters reg)
  ∧ g_next_handle st.1 = g_next_handle reg
  ∧ length st.2 = Z.to_nat count
  ∧ ∀ i : nat, (i < length noisy_data)%nat →
      st.2 !! i
      = Some (Matrix_at (state_ (run_updates demo_filter
                                   (take (S i) (demo_calls noisy_data)))) 0 0).
Proof.
  intros Hlen Hh st.
  assert (filter_ok demo_filter) as Hok0 by (apply KalmanFilter_new_ok; lia).
  pose (Inv := λ k (st : Registry float * list float),
            g_filters st.1
            = <[h := run_updates demo_filter (take (Z.to_nat k) (demo_calls noisy_data))]>
                (g_filters reg)
            ∧ g_next_handle st.1 = g_next_handle reg
            ∧ length st.2 = Z.to_nat count
            ∧ ∀ i : nat, Z.of_nat i < k →
                st.2 !! i
                = Some (Matrix_at (state_ (run_updates demo_filter
                                             (take (S i) (demo_calls noisy_data)))) 0 0)).
  assert (Inv count st) as (H1 & H2 & H3 & H4).
  { apply (for_loop_invariant Inv); [lia| |].
    - unfold Inv. simpl. split; [symmetry; by apply insert_id|]. split; [done|].
      split; [by rewrite length_replicate|]. intros; lia.
    - intros k [reg1 out1] Hk (E1 & E2 & E3 & E4). simpl in E1, E2, E3, E4.
      unfold Inv, demo_filter_sample.
      destruct (lookup_lt_is_Some_2 noisy_data (Z.to_nat k) ltac:(lia)) as [input Hin].
      rewrite Hin. simpl.
      set (f := run_updates demo_filter (take (Z.to_nat k) (demo_calls noisy_data))) in *.
      destruct (run_updates_ok demo_filter (take (Z.to_nat k) (demo_calls noisy_data)) Hok0)
        as [Hokf Hdf]. fold f in Hokf, Hdf.
      assert (dimensions_ f = 1) as Hd1 by (rewrite Hdf; done).
      assert (g_filters reg1 !! h = Some f) as Hhf.
      { rewrite E1. apply lookup_insert_eq. }
      rewrite (kf_update_known reg1 h f) by done.
      destruct (update_preserves_ok f [input] Hokf) as (_ & _ & _ & _ & _ & _ & Hret & Hbuf).
      rewrite Hd1 in Hret, Hbuf. rewrite Hret.
      specialize (Hbuf 0 ltac:(lia)). change (Z.to_nat 0) with 0%nat in Hbuf.
      rewrite Hbuf. simpl.
      assert (take (Z.to_nat (k + 1)) (demo_calls noisy_data)
              = take (Z.to_nat k) (demo_calls noisy_data) ++ [([input], 1)]) as Htake.
      { replace (Z.to_nat (k + 1)) with (S (Z.to_nat k)) by lia.
        apply take_S_r. unfold demo_calls. by rewrite list_lookup_fmap, Hin. }
      split; [|split; [done|split]].
      + rewrite E1, insert_insert_eq. f_equal.
        rewrite Htake, run_updates_snoc. done.
      + by rewrite length_insert.
      + intros i Hi. destruct (decide (Z.of_nat i = k)) as [Hik|Hik].
        * replace (Z.to_nat k) with i by lia.
          rewrite list_lookup_insert_eq by lia. f_equal.
          replace (S i) with (Z.to_nat (k + 1)) by lia.
          rewrite Htake, run_updates_snoc. done.
        * rewrite list_lookup_insert_ne by lia. apply E4. lia. }
  split; [|split; [done|split; [done|]]].
  - rewrite H1. f_equal. f_equal. apply take_ge. unfold demo_calls.
    rewrite length_fmap. lia.
  - intros i Hi. apply H4. lia.
Qed.

End DemoFacts.

(** X9. [demo_kalman_filter(count)] returns [count] values, and its
    [i]-th value is the estimate of the one-dimensional filter
    [kf_create(1, 0.001, 0.1)] after it was fed the first [i + 1] noisy
    samples: every [kf_update] of the loop succeeds, so the fallback to the
    raw input is never taken, whatever the registry held before. *)
Theorem demo_returns_filter_estimates (reg : Registry float) (noisy_data : list float)
    (count : Z) :
  Z.of_nat (length noisy_data) = count →
  length (demo_kalman_filter reg noisy_data count).2 = Z.to_nat count
  ∧ ∀ i : nat, (i < length noisy_data)%nat →
      (demo_kalman_filter reg noisy_data count).2 !! i
      = Some (Matrix_at (state_ (run_updates demo_filter
                                   (take (S i) (demo_calls noisy_data)))) 0 0).
Proof.
  intros Hlen. unfold demo_kalman_filter.
  rewrite kf_create_succeeded by lia.
  set (reg1 := mkRegistry _ _).
  destruct (demo_loop_spec reg1 noisy_data count (g_next_handle reg) Hlen)
    as (_ & _ & H3 & H4).
  { apply lookup_insert_eq. }
  destruct (for_loop count _ _) as [reg2 filtered_data]. simpl in *. done.
Qed.

(** The second value the demo returns for the samples (1, 2). *)
Lemma demo_returns_filter_estimates_witness :
  (demo_kalman_filter registry_init [1%float; 2%float] 2).2 !! 1%nat
  = Some (Matrix_at (state_ (run_updates demo_filter
                               (take 2 (demo_calls [1%float; 2%float])))) 0 0).
Proof.
  destruct (demo_returns_filter_estimates registry_init [1%float; 2%float] 2 eq_refl)
    as [_ H].
  exact (H 1%nat ltac:(simpl; lia)).
Defined.

(** X10. [demo_kalman_filter] releases the filter it creates: after the
    call the counter has advanced by one (modulo 2^32) and the map is the
    map before the call without the handle the counter held; when that
    handle was not live, as in every run before the counter wraps, the map
    is exactly what it was. *)
Theorem demo_releases_its_filter (reg : Registry float) (noisy_data : list float)
    (count : Z) :
  Z.of_nat (length noisy_data) = count →
  g_filters (demo_kalman_filter reg noisy_data count).1
  = delete (g_next_handle reg) (g_filters reg)
  ∧ g_next_handle (demo_kalman_filter reg noisy_data count).1
    = wrap_int (g_next_handle reg + 1)
  ∧ (g_filters reg !! g_next_handle reg = None →
       g_filters (demo_kalman_filter reg noisy_data count).1 = g_filters reg).
Proof.
  intros Hlen. unfold demo_kalman_filter.
  rewrite kf_create_succeeded by lia.
  set (reg1 := mkRegistry _ _).
  destruct (demo_loop_spec reg1 noisy_data count (g_next_handle reg) Hlen)
    as (H1 & H2 & _ & _).
  { apply lookup_insert_eq. }
  destruct (for_loop count _ _) as [reg2 filtered_data]. simpl in *.
  assert (g_filters (kf_destroy reg2 (g_next_handle reg))
          = delete (g_next_handle reg) (g_filters reg)) as Hdel.
  { unfold kf_destroy. rewrite H1, lookup_insert_eq. simpl.
    by rewrite !delete_insert_eq. }
  split; [done|]. split.
  - by rewrite kf_destroy_counter, H2.
  - intros Hfresh. rewrite Hdel. by apply delete_id.
Qed.

(** The demo in the registry that holds the filter of handle 1. *)
Lemma demo_releases_its_filter_witness :
  let reg := (api_run registry_init [CallCreate 2 double_0_001 double_0_1]).1 in
  g_filters (demo_kalman_filter reg [1%float; 2%float] 2).1 = g_filters reg.
Proof.
  intros reg.
  destruct (demo_releases_its_filter reg [1%float; 2%float] 2 eq_refl) as (_ & _ & H).
  apply H. vm_compute. reflexivity.
Defined.

(** ** The hand tracker: pixels and the low-pass filter *)

(** X11. [is_skin_color(r, g, b)] holds exactly when [r > 95], [g > 40],
    [b > 20], [r > b] and [r − g > 15]: the test [r > g] and the absolute
    value of the source add nothing. *)
Theorem is_skin_color_spec (r g b : Z) :
  is_skin_color r g b = true ↔ 95 < r ∧ 40 < g ∧ 20 < b ∧ b < r ∧ 15 < r - g.
Proof.
  unfold is_skin_color. rewrite !andb_true_iff, !bool_decide_eq_true. lia.
Qed.

(** Outputs of a run of the low-pass filter. *)

Section LowPassRuns.
Context {F : Type} {SF : Scalar F}.

Lemma LowPassFilter_run_outputs (f : LowPassFilter F) (outs : list F) (values : list F) :
  ∃ rest,
    (foldl (λ '(f, outs) value,
              let '(f', out) := LowPassFilter_apply f value in (f', outs ++ [out]))
           (f, outs) values).2 = outs ++ rest.
Proof.
  revert f outs. induction values as [|v values IH]; intros f outs.
  - exists []. by rewrite app_nil_r.
  - simpl. destruct (LowPassFilter_apply f v) as [f' out].
    destruct (IH f' (outs ++ [out])) as [rest ->].
    exists (out :: rest). by rewrite <- app_assoc.
Qed.

End LowPassRuns.

(** X12. [reset] makes a filter forget what it has seen: the calls of
    [apply] that follow return the same values and leave the same filter as
    those of a new filter with the same [alpha], and the first of them
    returns its argument unchanged, in any arithmetic. *)
Theorem LowPassFilter_reset_forgets_history {F : Type} {SF : Scalar F}
    (f : LowPassFilter F) (v : F) (values : list F) :
  LowPassFilter_run (LowPassFilter_reset f) (v :: values)
  = LowPassFilter_run (LowPassFilter_new (alpha f)) (v :: values)
  ∧ head (LowPassFilter_run (LowPassFilter_reset f) (v :: values)).2 = Some v.
Proof.
  split; [reflexivity|].
  unfold LowPassFilter_run. simpl.
  destruct (LowPassFilter_run_outputs (mkLowPassFilter (alpha f) v true) [v] values)
    as [rest ->]. done.
Qed.

(** ** The hand tracker: bounds of the accesses and sizes of the results *)

#[local] Arguments element_at : simpl never.
#[local] Arguments recognize_gesture : simpl never.

Lemma element_at_lookup {A} (v : list A) (i : Z) :
  0 ≤ i < Z.of_nat (length v) →
  ∃ x, element_at v i = Some x ∧ v !! Z.to_nat i = Some x.
Proof.
  intros Hi. unfold element_at. rewrite bool_decide_eq_true_2 by lia.
  destruct (lookup_lt_is_Some_2 v (Z.to_nat i) ltac:(lia)) as [x Hx]. by exists x.
Qed.

Lemma element_at_Some {A} (v : list A) (i : Z) (x : A) :
  element_at v i = Some x → 0 ≤ i < Z.of_nat (length v) ∧ v !! Z.to_nat i = Some x.
Proof.
  unfold element_at. case_bool_decide; [|done]. intros Hx.
  split; [|done]. apply lookup_lt_Some in Hx. lia.
Qed.

Lemma length_resize {A} (n : Z) (x : A) (v : list A) :
  length (resize n x v) = Z.to_nat n.
Proof. unfold resize. rewrite length_app, length_take, length_replicate. lia. Qed.

Lemma for_loop_2 {S} (body : Z → S → S) (s : S) :
  for_loop 2 body s = body 1 (body 0 s).
Proof. reflexivity. Qed.


Lemma for_range_1_4 {S} (body : Z → S → S) (s : S) :
  for_range 1 4 body s = body 3 (body 2 (body 1 s)).
Proof. reflexivity. Qed.

(** The sampled coordinates [0, 10, 20, ...] stay below the bound. *)
Lemma for_loop_step_invariant {S : Type} (Inv : S → Prop) (n : Z)
    (body : Z → S → S) (s : S) :
  Inv s →
  (∀ i acc, 0 ≤ i < n → Inv acc → Inv (body i acc)) →
  Inv (for_loop_step n 10 body s).
Proof.
  intros H0 Hstep. unfold for_loop_step.
  destruct (decide (0 ≤ (n + 10 - 1) `div` 10)) as [Hn|Hn].
  - apply (for_loop_invariant (λ _, Inv)); [done|done|].
    intros k acc Hk Hacc. apply Hstep; [|done].
    pose proof (Z.div_mod (n + 10 - 1) 10 ltac:(lia)) as Hdm.
    pose proof (Z.mod_pos_bound (n + 10 - 1) 10 ltac:(lia)) as Hmod. lia.
  - by rewrite for_loop_done by lia.
Qed.

Section TrackerFacts.
Context {F D : Type} {FO : FloatOps F} {SD : Scalar D} {DO : DoubleOps F D}.
Implicit Types t : Tracker F.

Lemma tracker_step_refl t : filters_ok (landmark_filters t) → tracker_step t t.
Proof. by intros Hok. Qed.

Lemma tracker_step_trans t1 t2 t3 :
  tracker_step t1 t2 → tracker_step t2 t3 → tracker_step t1 t3.
Proof.
  intros (H1 & H2 & H3) (H1' & H2' & H3'). split; [congruence|]. split; [done|congruence].
Qed.

Lemma initialize_hand_tracker_ok t :
  tracker_ok t →
  (initialize_hand_tracker t).2 = 1
  ∧ g_initialized (initialize_hand_tracker t).1 = true
  ∧ filters_ok (landmark_filters (initialize_hand_tracker t).1)
  ∧ (g_initialized t = true → (initialize_hand_tracker t).1 = t).
Proof.
  intros Hok. unfold initialize_hand_tracker.
  destruct (g_initialized t) eqn:Hinit; simpl.
  { split; [done|]. split; [done|]. split; [by apply Hok|done]. }
  split; [done|]. split; [done|]. split; [|done].
  rewrite for_loop_2.
  pose proof (length_resize 2 ([] : list (LowPassFilter F)) (landmark_filters t)) as Hl.
  destruct (resize 2 [] (landmark_filters t)) as [|r0 [|r1 [|? ?]]]; try done.
  simpl. split; [done|].
  repeat constructor; apply length_resize.
Qed.

Lemma apply_landmark_filter_ok (k : Z) (v : F) t :
  filters_ok (landmark_filters t) → 0 ≤ k < NUM_LANDMARKS * 3 →
  ∃ t' out, apply_landmark_filter k v t = Some (t', out) ∧ tracker_step t t'.
Proof.
  intros [Hlen Hrows] Hk. unfold apply_landmark_filter, tracker_step.
  destruct (landmark_filters t) as [|row [|row1 [|? ?]]] eqn:Hfs; try done.
  apply Forall_cons in Hrows as [Hrow Hrows].
  change (element_at (row :: [row1]) 0) with (Some row). simpl.
  destruct (element_at_lookup row k ltac:(lia)) as (filter & -> & _). simpl.
  destruct (LowPassFilter_apply filter v) as [filter' out].
  eexists _, _. split; [done|]. simpl. split; [done|]. split; [|done].
  split; [done|]. constructor; [by rewrite length_insert|done].
Qed.

Lemma filter_point_ok (idx : Z) (p : Point3D F) t :
  filters_ok (landmark_filters t) → 0 ≤ idx < NUM_LANDMARKS →
  ∃ t' p', filter_point idx p t = Some (t', p') ∧ tracker_step t t'.
Proof.
  intros Hok Hidx. unfold filter_point. unfold NUM_LANDMARKS in *.
  destruct (apply_landmark_filter_ok (idx * 3) (Point3D_x p) t Hok)
    as (t1 & x & -> & Hs1); [unfold NUM_LANDMARKS; lia|]. simpl.
  destruct (apply_landmark_filter_ok (idx * 3 + 1) (Point3D_y p) t1 (proj1 (proj2 Hs1)))
    as (t2 & y & -> & Hs2); [unfold NUM_LANDMARKS; lia|]. simpl.
  destruct (apply_landmark_filter_ok (idx * 3 + 2) (Point3D_z p) t2 (proj1 (proj2 Hs2)))
    as (t3 & z & -> & Hs3); [unfold NUM_LANDMARKS; lia|]. simpl.
  eexists _, _. split; [done|].
  apply (tracker_step_trans t t1); [done|]. by apply (tracker_step_trans t1 t2).
Qed.

(** Every pixel the sampling loops read lies inside the image. *)
Lemma sample_pixel_ok (imageData : list Z) (width height x y : Z) (acc : Z * F * F) :
  image_ok imageData width height →
  0 ≤ x < width → 0 ≤ y < height → 0 ≤ acc.1.1 →
  ∃ acc', sample_pixel imageData width x y acc = Some acc'
          ∧ acc.1.1 ≤ acc'.1.1 ≤ acc.1.1 + 1.
Proof.
  intros Himg Hx Hy Hacc. destruct acc as [[n cx] cy]. simpl in *.
  specialize (Himg ltac:(lia) ltac:(lia)).
  assert (0 ≤ (y * width + x) * 4 ∧ (y * width + x) * 4 + 3 < width * height * 4)
    as [H0 H1] by nia.
  destruct (element_at_lookup imageData ((y * width + x) * 4) ltac:(lia))
    as (r & -> & _).
  destruct (element_at_lookup imageData ((y * width + x) * 4 + 1) ltac:(lia))
    as (g & -> & _).
  destruct (element_at_lookup imageData ((y * width + x) * 4 + 2) ltac:(lia))
    as (b & -> & _).
  simpl. destruct (is_skin_color r g b); eexists; (split; [done|simpl; lia]).
Qed.

Lemma sample_image_ok (imageData : list Z) (width height : Z) :
  image_ok imageData width height →
  ∃ skin_pixels center_x center_y,
    sample_image imageData width height = Some (skin_pixels, center_x, center_y)
    ∧ 0 ≤ skin_pixels.
Proof.
  intros Himg. unfold sample_image.
  apply (for_loop_step_invariant
           (λ acc, ∃ n cx cy, acc = Some (n, cx, cy) ∧ 0 ≤ n)).
  { by exists 0, s0, s0. }
  intros y acc Hy Hacc.
  apply (for_loop_step_invariant
           (λ acc, ∃ n cx cy, acc = Some (n, cx, cy) ∧ 0 ≤ n)); [done|].
  intros x acc' Hx (n & cx & cy & -> & Hn).
  change (Some (n, cx, cy) ≫= sample_pixel imageData width x y)
    with (sample_pixel imageData width x y (n, cx, cy)).
  destruct (sample_pixel_ok imageData width height x y (n, cx, cy) Himg Hx Hy Hn)
    as ([[n' cx'] cy'] & -> & Hn'). simpl in Hn'.
  exists n', cx', cy'. split; [done|lia].
Qed.

(** The three landmark loops. *)
Lemma thumb_landmark_ok (wrist : Point3D F) (i : Z) t (pts : list (Point3D F)) :
  filters_ok (landmark_filters t) → 0 ≤ i < 4 →
  ∃ t' p, thumb_landmark wrist i (t, pts) = Some (t', pts ++ [p]) ∧ tracker_step t t'.
Proof.
  intros Hok Hi. unfold thumb_landmark.
  destruct (element_at_lookup thumb_angles i ltac:(simpl; lia)) as (angle & -> & _).
  simpl.
  match goal with |- context [filter_point ?idx ?p t] =>
    destruct (filter_point_ok idx p t Hok) as (t' & p' & -> & Hs);
      [unfold NUM_LANDMARKS; lia|] end.
  simpl. by eexists _, _.
Qed.

Lemma thumb_landmarks_ok (wrist : Point3D F) t (pts : list (Point3D F)) :
  filters_ok (landmark_filters t) →
  ∃ t' pts', for_loop 4 (λ i st, st ≫= thumb_landmark wrist i) (Some (t, pts))
             = Some (t', pts')
    ∧ tracker_step t t'
    ∧ length pts' = (length pts + 4)%nat.
Proof.
  intros Hok.
  assert ((λ k st, ∃ t' pts', st = Some (t', pts')
             ∧ tracker_step t t'
             ∧ Z.of_nat (length pts') = Z.of_nat (length pts) + k) 4
            (for_loop 4 (λ i st, st ≫= thumb_landmark wrist i) (Some (t, pts))))
    as (t' & pts' & E & ? & ?).
  { apply for_loop_invariant; [lia| |].
    - exists t, pts. split; [done|]. split; [by apply tracker_step_refl|]. lia.
    - intros k st Hk (t1 & pts1 & -> & Hs1 & Hl1).
      change (Some (t1, pts1) ≫= thumb_landmark wrist k)
        with (thumb_landmark wrist k (t1, pts1)).
      destruct (thumb_landmark_ok wrist k t1 pts1 (proj1 (proj2 Hs1)) Hk)
        as (t2 & p & -> & Hs2).
      exists t2, (pts1 ++ [p]). split; [done|].
      split; [by apply (tracker_step_trans t t1)|].
      rewrite length_app. simpl. lia. }
  exists t', pts'. split; [done|]. split; [done|]. lia.
Qed.

Lemma finger_base_ok (wrist : Point3D F) (finger : Z) t (pts bases : list (Point3D F)) :
  filters_ok (landmark_filters t) → 0 ≤ finger < 4 →
  ∃ t' p, finger_base wrist finger (t, pts, bases) = Some (t', pts ++ [p], bases ++ [p])
    ∧ tracker_step t t'.
Proof.
  intros Hok Hi. unfold finger_base.
  match goal with |- context [filter_point ?idx ?p t] =>
    destruct (filter_point_ok idx p t Hok) as (t' & p' & -> & Hs);
      [unfold NUM_LANDMARKS; lia|] end.
  simpl. by eexists _, _.
Qed.

Lemma finger_bases_ok (wrist : Point3D F) t (pts : list (Point3D F)) :
  filters_ok (landmark_filters t) →
  ∃ t' pts' bases,
    for_loop 4 (λ finger st, st ≫= finger_base wrist finger) (Some (t, pts, []))
    = Some (t', pts', bases)
    ∧ tracker_step t t'
    ∧ length pts' = (length pts + 4)%nat
    ∧ length bases = 4%nat.
Proof.
  intros Hok.
  assert ((λ k st, ∃ t' pts' bases, st = Some (t', pts', bases)
             ∧ tracker_step t t'
             ∧ Z.of_nat (length pts') = Z.of_nat (length pts) + k
             ∧ Z.of_nat (length bases) = k) 4
            (for_loop 4 (λ finger st, st ≫= finger_base wrist finger)
               (Some (t, pts, []))))
    as (t' & pts' & bases & E & ? & ? & ?).
  { apply for_loop_invariant; [lia| |].
    - exists t, pts, []. split; [done|]. split; [by apply tracker_step_refl|].
      simpl. lia.
    - intros k st Hk (t1 & pts1 & bases1 & -> & Hs1 & Hl1 & Hb1).
      change (Some (t1, pts1, bases1) ≫= finger_base wrist k)
        with (finger_base wrist k (t1, pts1, bases1)).
      destruct (finger_base_ok wrist k t1 pts1 bases1 (proj1 (proj2 Hs1)) Hk)
        as (t2 & p & -> & Hs2).
      exists t2, (pts1 ++ [p]), (bases1 ++ [p]).
      split; [done|]. split; [by apply (tracker_step_trans t t1)|].
      rewrite !length_app. simpl. lia. }
  exists t', pts', bases. split; [done|]. split; [done|]. lia.
Qed.

Lemma finger_joint_ok (base : Point3D F) (baseAngle : F) (finger joint : Z) t
    (pts : list (Point3D F)) :
  filters_ok (landmark_filters t) → 0 ≤ finger < 4 → 1 ≤ joint < 4 →
  ∃ t' p, finger_joint base baseAngle finger joint (t, pts) = Some (t', pts ++ [p])
    ∧ tracker_step t t'.
Proof.
  intros Hok Hf Hj. unfold finger_joint.
  match goal with |- context [filter_point ?idx ?p t] =>
    destruct (filter_point_ok idx p t Hok) as (t' & p' & -> & Hs);
      [unfold NUM_LANDMARKS; lia|] end.
  simpl. by eexists _, _.
Qed.

Lemma finger_joints_ok (bases : list (Point3D F)) (finger : Z) t
    (pts : list (Point3D F)) :
  filters_ok (landmark_filters t) → length bases = 4%nat → 0 ≤ finger < 4 →
  ∃ t' pts', finger_joints bases finger (t, pts) = Some (t', pts')
    ∧ tracker_step t t'
    ∧ length pts' = (length pts + 3)%nat.
Proof.
  intros Hok Hb Hf. unfold finger_joints.
  destruct (element_at_lookup bases finger ltac:(lia)) as (base & -> & _). simpl.
  rewrite for_range_1_4.
  set (baseAngle := (flit (-1 # 10) + f_of_int finger * flit (1 # 10))%S).
  change (Some (t, pts) ≫= finger_joint base baseAngle finger 1)
    with (finger_joint base baseAngle finger 1 (t, pts)).
  destruct (finger_joint_ok base baseAngle finger 1 t pts Hok Hf ltac:(lia))
    as (t1 & p1 & -> & Hs1).
  change (Some (t1, pts ++ [p1]) ≫= finger_joint base baseAngle finger 2)
    with (finger_joint base baseAngle finger 2 (t1, pts ++ [p1])).
  destruct (finger_joint_ok base baseAngle finger 2 t1 (pts ++ [p1])
              (proj1 (proj2 Hs1)) Hf ltac:(lia)) as (t2 & p2 & -> & Hs2).
  change (Some (t2, (pts ++ [p1]) ++ [p2]) ≫= finger_joint base baseAngle finger 3)
    with (finger_joint base baseAngle finger 3 (t2, (pts ++ [p1]) ++ [p2])).
  destruct (finger_joint_ok base baseAngle finger 3 t2 ((pts ++ [p1]) ++ [p2])
              (proj1 (proj2 Hs2)) Hf ltac:(lia)) as (t3 & p3 & -> & Hs3).
  eexists _, _. split; [done|]. split.
  - apply (tracker_step_trans t t1); [done|]. by apply (tracker_step_trans t1 t2).
  - rewrite !length_app. simpl. lia.
Qed.

Lemma all_finger_joints_ok (bases : list (Point3D F)) t (pts : list (Point3D F)) :
  filters_ok (landmark_filters t) → length bases = 4%nat →
  ∃ t' pts',
    for_loop 4 (λ finger st, st ≫= finger_joints bases finger) (Some (t, pts))
    = Some (t', pts')
    ∧ tracker_step t t'
    ∧ length pts' = (length pts + 12)%nat.
Proof.
  intros Hok Hb.
  assert ((λ k st, ∃ t' pts', st = Some (t', pts')
             ∧ tracker_step t t'
             ∧ Z.of_nat (length pts') = Z.of_nat (length pts) + 3 * k) 4
            (for_loop 4 (λ finger st, st ≫= finger_joints bases finger)
               (Some (t, pts))))
    as (t' & pts' & E & ? & ?).
  { apply for_loop_invariant; [lia| |].
    - exists t, pts. split; [done|]. split; [by apply tracker_step_refl|]. lia.
    - intros k st Hk (t1 & pts1 & -> & Hs1 & Hl1).
      change (Some (t1, pts1) ≫= finger_joints bases k)
        with (finger_joints bases k (t1, pts1)).
      destruct (finger_joints_ok bases k t1 pts1 (proj1 (proj2 Hs1)) Hb Hk)
        as (t2 & pts2 & -> & Hs2 & Hl2).
      exists t2, pts2. split; [done|].
      split; [by apply (tracker_step_trans t t1)|]. lia. }
  exists t', pts'. split; [done|]. split; [done|]. lia.
Qed.

(** [recognize_gesture] on a result that holds no hand yet. *)
Lemma recognize_gesture_no_hands (s : F) (hand_index : Z) :
  recognize_gesture (Some (mkHandTrackingResult [] s)) hand_index = Some UNKNOWN.
Proof.
  unfold recognize_gesture. cbn [hands length]. rewrite bool_decide_eq_true_2; [done|].
  unfold to_size_t. pose proof (Z.mod_pos_bound hand_index 4294967296 ltac:(lia)). lia.
Qed.

#[local] Opaque recognize_gesture.

(** One call of [detect_hand_landmarks]. *)
Lemma detect_hand_landmarks_ok t (imageData : list Z) (width height : Z) :
  tracker_ok t → image_ok imageData width height →
  ∃ t' result skin_pixels center_x center_y,
    detect_hand_landmarks t imageData width height = Some (t', result)
    ∧ sample_image imageData width height = Some (skin_pixels, center_x, center_y)
    ∧ g_initialized t' = true
    ∧ tracker_step (initialize_hand_tracker t).1 t'
    ∧ (skin_pixels < 10 →
         t' = (initialize_hand_tracker t).1
         ∧ result = mkHandTrackingResult [] s0)
    ∧ (10 ≤ skin_pixels →
         ∃ pts, hands result = [mkHandLandmark pts UNKNOWN]
                ∧ length pts = Z.to_nat NUM_LANDMARKS).
Proof.
  intros Hok Himg. unfold detect_hand_landmarks.
  destruct (initialize_hand_tracker_ok t Hok) as (_ & Hinit & Hfs & Hsame).
  set (t0 := if negb (g_initialized t) then (initialize_hand_tracker t).1 else t).
  assert (t0 = (initialize_hand_tracker t).1) as Ht0.
  { subst t0. destruct (g_initialized t) eqn:E; simpl; [|done]. by rewrite Hsame. }
  clearbody t0. subst t0. set (t0 := (initialize_hand_tracker t).1) in *.
  destruct (sample_image_ok imageData width height Himg)
    as (n & cx & cy & -> & Hn). simpl.
  case_bool_decide as Hskin.
  { eexists _, _, n, cx, cy. split; [done|]. split; [done|]. split; [done|].
    split; [by apply tracker_step_refl|]. split; [done|]. intros; lia. }
  rewrite bool_decide_eq_true_2 by (destruct Hfs as [-> _]; lia).
  match goal with |- context [apply_landmark_filter 0 ?v t0] =>
    destruct (apply_landmark_filter_ok 0 v t0 Hfs) as (t1 & x & -> & Hs1);
      [unfold NUM_LANDMARKS; lia|] end. simpl.
  match goal with |- context [apply_landmark_filter 1 ?v t1] =>
    destruct (apply_landmark_filter_ok 1 v t1 (proj1 (proj2 Hs1)))
      as (t2 & y & -> & Hs2); [unfold NUM_LANDMARKS; lia|] end. simpl.
  match goal with |- context [apply_landmark_filter 2 ?v t2] =>
    destruct (apply_landmark_filter_ok 2 v t2 (proj1 (proj2 Hs2)))
      as (t3 & z & -> & Hs3); [unfold NUM_LANDMARKS; lia|] end. simpl.
  set (wrist := mkPoint3D x y z).
  destruct (thumb_landmarks_ok wrist t3 [wrist] (proj1 (proj2 Hs3)))
    as (t4 & pts4 & -> & Hs4 & Hl4). simpl.
  destruct (finger_bases_ok wrist t4 pts4 (proj1 (proj2 Hs4)))
    as (t5 & pts5 & bases & -> & Hs5 & Hl5 & Hb). simpl.
  destruct (all_finger_joints_ok bases t5 pts5 (proj1 (proj2 Hs5)) Hb)
    as (t6 & pts6 & -> & Hs6 & Hl6). simpl.
  rewrite recognize_gesture_no_hands. simpl.
  assert (tracker_step t0 t6) as Hstep.
  { apply (tracker_step_trans t0 t1); [done|].
    apply (tracker_step_trans t1 t2); [done|].
    apply (tracker_step_trans t2 t3); [done|].
    apply (tracker_step_trans t3 t4); [done|].
    by apply (tracker_step_trans t4 t5). }
  eexists _, _, n, cx, cy. split; [done|]. split; [done|].
  split; [destruct Hstep as (-> & _); done|]. split; [done|]. split; [intros; lia|].
  intros _. eexists. split; [done|]. simpl in *. unfold NUM_LANDMARKS. lia.
Qed.

#[local] Transparent recognize_gesture.


End TrackerFacts.

Section TrackerTheorems.
Context {F D : Type} {FO : FloatOps F} {SD : Scalar D} {DO : DoubleOps F D}.

(** X14. [calculate_angle] returns [0.0f] when the product of the two
    magnitudes compares equal to zero; otherwise it returns
    [acos(c) * 180.0f / M_PI] where the argument [c] of [acos] is [1.0f],
    [-1.0f] or a value for which both [-1.0f < c] and [c < 1.0f] hold,
    whatever the quotient was: the clamp lets no other value through. *)
Theorem calculate_angle_clamps_cosine (x1 y1 x2 y2 : F) :
  calculate_angle x1 y1 x2 y2 = s0
  ∨ ∃ c, calculate_angle x1 y1 x2 y2
         = to_float (to_double (facos c * flit 180)%S / M_PI)%S
         ∧ (c = s1 ∨ c = flit (-1)
            ∨ (fltb (flit (-1)) c = true ∧ fltb c s1 = true)).
Proof.
  unfold calculate_angle. cbv zeta.
  destruct (feqb _ _); [by left|]. right.
  eexists. split; [reflexivity|].
  unfold clamp_cosine, fmin, fmax.
  set (q := (_ / _)%S).
  destruct (fltb (flit (-1)) q) eqn:E1.
  - destruct (fltb q s1) eqn:E2; auto.
  - destruct (fltb (flit (-1)) s1) eqn:E2; auto.
Qed.

(** X15. [recognize_gesture] never reads outside a vector, and it returns
    a gesture other than [UNKNOWN] only for a non-null result, an index
    [0 <= hand_index < hands.size()] and a hand of at least 21 points; a
    negative index is rejected by the unsigned comparison. *)
Theorem recognize_gesture_guards (result : option (HandTrackingResult F))
    (hand_index : Z) :
  INT_MIN ≤ hand_index ≤ INT_MAX →
  (∀ r, result = Some r → Z.of_nat (length (hands r)) ≤ INT_MAX) →
  is_Some (recognize_gesture result hand_index)
  ∧ (recognize_gesture result hand_index ≠ Some UNKNOWN →
       ∃ r hand, result = Some r
                 ∧ 0 ≤ hand_index
                 ∧ hands r !! Z.to_nat hand_index = Some hand
                 ∧ (21 ≤ length (points hand))%nat).
Proof.
  unfold INT_MIN, INT_MAX. intros Hidx Hsize. unfold recognize_gesture.
  destruct result as [r|]; [|split; [by eexists|done]].
  specialize (Hsize r eq_refl).
  destruct (decide (0 ≤ hand_index)) as [Hpos|Hneg].
  2:{ assert (to_size_t hand_index = hand_index + 4294967296) as ->.
      { unfold to_size_t. symmetry. apply (Z.mod_unique_pos _ _ (-1)); lia. }
      rewrite bool_decide_eq_true_2 by lia. split; [by eexists|done]. }
  assert (to_size_t hand_index = hand_index) as ->.
  { unfold to_size_t. apply Z.mod_small. lia. }
  case_bool_decide as Hout; [split; [by eexists|done]|].
  destruct (element_at_lookup (hands r) hand_index ltac:(lia)) as (hand & -> & Hhand).
  simpl.
  case_bool_decide as Hpts; [split; [by eexists|done]|].
  destruct (element_at_lookup (points hand) 0 ltac:(lia)) as (? & -> & _).
  destruct (element_at_lookup (points hand) 4 ltac:(lia)) as (? & -> & _).
  destruct (element_at_lookup (points hand) 8 ltac:(lia)) as (? & -> & _).
  destruct (element_at_lookup (points hand) 12 ltac:(lia)) as (? & -> & _).
  destruct (element_at_lookup (points hand) 16 ltac:(lia)) as (? & -> & _).
  destruct (element_at_lookup (points hand) 20 ltac:(lia)) as (? & -> & _).
  destruct (element_at_lookup (points hand) 2 ltac:(lia)) as (? & -> & _).
  destruct (element_at_lookup (points hand) 5 ltac:(lia)) as (? & -> & _).
  destruct (element_at_lookup (points hand) 9 ltac:(lia)) as (? & -> & _).
  destruct (element_at_lookup (points hand) 13 ltac:(lia)) as (? & -> & _).
  destruct (element_at_lookup (points hand) 17 ltac:(lia)) as (? & -> & _).
  simpl. split; [by eexists|]. intros _.
  exists r, hand. split; [done|]. split; [done|]. split; [done|]. lia.
Qed.

Lemma gesture_of_fingers_spec (t i m r p c u : bool) :
  let g := gesture_of_fingers t i m r p c u in
  (0 ≤ GestureType_value g ≤ 5 → GestureType_value g = count_true [t; i; m; r; p])
  ∧ (g = OK_GESTURE → [i; m; r; p] = [false; true; true; true] ∧ c = true)
  ∧ (g = THUMB_UP → [t; i; m; r; p] = [true; false; false; false; false] ∧ u = true).
Proof.
  destruct t, i, m, r, p, c, u; vm_compute; repeat split; try done; intros [? ?]; done.
Qed.

(** X16. The value of the gesture counts the extended fingers: when
    [recognize_gesture] returns a gesture of value 0 to 5 ([FIST] to
    [FIVE_FINGERS]), that value is the number of fingers whose angle exceeds
    the threshold; [OK_GESTURE] is returned only when the index finger is
    not extended and the middle, ring and little fingers are; [THUMB_UP]
    only when the thumb alone is extended. *)
Theorem recognize_gesture_counts_fingers (result : HandTrackingResult F)
    (hand_index : Z) (hand : HandLandmark F) (g : GestureType) :
  0 ≤ hand_index ≤ INT_MAX →
  hands result !! Z.to_nat hand_index = Some hand →
  recognize_gesture (Some result) hand_index = Some g →
  (0 ≤ GestureType_value g ≤ 5 →
     GestureType_value g = count_true (hand_extended_fingers hand))
  ∧ (g = OK_GESTURE →
       drop 1 (hand_extended_fingers hand) = [false; true; true; true])
  ∧ (g = THUMB_UP →
       hand_extended_fingers hand = [true; false; false; false; false]).
Proof.
  unfold INT_MAX. intros Hidx Hhand. unfold recognize_gesture.
  remember (hand_extended_fingers hand) as flags eqn:Hflags.
  assert (to_size_t hand_index = hand_index) as ->.
  { unfold to_size_t. apply Z.mod_small. lia. }
  pose proof (lookup_lt_Some _ _ _ Hhand) as Hlt.
  rewrite bool_decide_eq_false_2 by lia.
  destruct (element_at_lookup (hands result) hand_index ltac:(lia))
    as (hand' & -> & Hhand').
  rewrite Hhand in Hhand'. injection Hhand' as <-. simpl.
  case_bool_decide as Hpts.
  { intros [= <-]. simpl. split; [lia|]. split; done. }
  destruct (element_at_lookup (points hand) 0 ltac:(lia)) as (p0 & -> & H0).
  destruct (element_at_lookup (points hand) 4 ltac:(lia)) as (p4 & -> & H4).
  destruct (element_at_lookup (points hand) 8 ltac:(lia)) as (p8 & -> & H8).
  destruct (element_at_lookup (points hand) 12 ltac:(lia)) as (p12 & -> & H12).
  destruct (element_at_lookup (points hand) 16 ltac:(lia)) as (p16 & -> & H16).
  destruct (element_at_lookup (points hand) 20 ltac:(lia)) as (p20 & -> & H20).
  destruct (element_at_lookup (points hand) 2 ltac:(lia)) as (p2 & -> & H2).
  destruct (element_at_lookup (points hand) 5 ltac:(lia)) as (p5 & -> & H5).
  destruct (element_at_lookup (points hand) 9 ltac:(lia)) as (p9 & -> & H9).
  destruct (element_at_lookup (points hand) 13 ltac:(lia)) as (p13 & -> & H13).
  destruct (element_at_lookup (points hand) 17 ltac:(lia)) as (p17 & -> & H17).
  simpl. intros [= <-].
  assert (flags
          = [fgtb (finger_angle p0 p2 p4) extension_threshold;
             fgtb (finger_angle p0 p5 p8) extension_threshold;
             fgtb (finger_angle p0 p9 p12) extension_threshold;
             fgtb (finger_angle p0 p13 p16) extension_threshold;
             fgtb (finger_angle p0 p17 p20) extension_threshold]) as ->.
  { change (Z.to_nat 0) with 0%nat in H0. change (Z.to_nat 2) with 2%nat in H2.
    change (Z.to_nat 4) with 4%nat in H4. change (Z.to_nat 5) with 5%nat in H5.
    change (Z.to_nat 8) with 8%nat in H8. change (Z.to_nat 9) with 9%nat in H9.
    change (Z.to_nat 12) with 12%nat in H12. change (Z.to_nat 13) with 13%nat in H13.
    change (Z.to_nat 16) with 16%nat in H16. change (Z.to_nat 17) with 17%nat in H17.
    change (Z.to_nat 20) with 20%nat in H20.
    subst flags. unfold hand_extended_fingers. cbn [fmap list_fmap].
    by rewrite H0, H2, H4, H5, H8, H9, H12, H13, H16, H17, H20. }
  match goal with |- context [gesture_of_fingers ?t ?i ?m ?r ?p ?c ?u] =>
    destruct (gesture_of_fingers_spec t i m r p c u) as (Hcount & Hok & Hup) end.
  split; [done|]. split.
  - intros Hg. destruct (Hok Hg) as [E _]. exact E.
  - intros Hg. by destruct (Hup Hg) as [E _].
Qed.

(** X17. [initialize_hand_tracker] returns 1, sets [g_initialized] and
    leaves two rows of [3 * NUM_LANDMARKS] filters; a second call changes
    nothing, a call on an initialised tracker changes nothing, and from the
    initial globals every filter is the default one ([alpha = 0.3f], not
    initialised). *)
Theorem initialize_hand_tracker_spec (t : Tracker F) :
  tracker_ok t →
  let t' := (initialize_hand_tracker t).1 in
  (initialize_hand_tracker t).2 = 1
  ∧ g_initialized t' = true
  ∧ filters_ok (landmark_filters t')
  ∧ initialize_hand_tracker t' = (t', 1)
  ∧ (g_initialized t = true → t' = t)
  ∧ (t = tracker_init →
       landmark_filters t'
       = replicate 2 (replicate (Z.to_nat (NUM_LANDMARKS * 3)) LowPassFilter_default)).
Proof.
  intros Hok t'. destruct (initialize_hand_tracker_ok t Hok) as (H1 & H2 & H3 & H4).
  split; [done|]. split; [done|]. split; [done|]. split; [|split; [done|]].
  - assert (∀ u : Tracker F, g_initialized u = true → initialize_hand_tracker u = (u, 1))
      as Hidem.
    { intros u Hu. unfold initialize_hand_tracker. by rewrite Hu. }
    by apply Hidem.
  - intros ->. reflexivity.
Qed.

(** X18. For a tracker that satisfies the invariant of the globals, an
    image buffer of at least [width * height * 4] bytes and dimensions
    whose [int] computations do not overflow ([width] and [height] at most
    [INT_MAX - 10], [width * height * 4] at most [INT_MAX]),
    [detect_hand_landmarks] reads no pixel and no filter outside the bounds
    and returns a result; the tracker is initialised afterwards, keeps its
    invariant, and the filters of the second hand are never touched.  With
    fewer than 10 skin samples the result has no hand and score [0.0f];
    otherwise it has exactly one hand of [NUM_LANDMARKS = 21] points, and
    the gesture stored in it is always [UNKNOWN], because
    [recognize_gesture] runs before the hand is added to the result. *)
Theorem detect_hand_landmarks_spec (t : Tracker F) (imageData : list Z)
    (width height : Z) :
  tracker_ok t → image_ok imageData width height →
  image_in_int_range width height →
  ∃ t' result skin_pixels center_x center_y,
    detect_hand_landmarks t imageData width height = Some (t', result)
    ∧ sample_image imageData width height = Some (skin_pixels, center_x, center_y)
    ∧ g_initialized t' = true
    ∧ tracker_ok t'
    ∧ tracker_step (initialize_hand_tracker t).1 t'
    ∧ (skin_pixels < 10 →
         t' = (initialize_hand_tracker t).1
         ∧ result = mkHandTrackingResult [] s0)
    ∧ (10 ≤ skin_pixels →
         ∃ pts, hands result = [mkHandLandmark pts UNKNOWN]
                ∧ length pts = Z.to_nat NUM_LANDMARKS).
Proof.
  intros Hok Himg _.
  destruct (detect_hand_landmarks_ok t imageData width height Hok Himg)
    as (t' & result & n & cx & cy & E1 & E2 & Hi & Hs & Hlt & Hge).
  exists t', result, n, cx, cy. split; [done|]. split; [done|]. split; [done|].
  split; [|done]. intros _. apply Hs.
Qed.


End TrackerTheorems.

(** The examples: binary32 arithmetic with the stand-in library functions. *)

(** A negative index on a result that holds one hand. *)
Lemma recognize_gesture_guards_witness :
  is_Some (recognize_gesture (FO:=example_float_ops) (DO:=example_double_ops)
             (Some (mkHandTrackingResult [example_hand] s0)) (-1)).
Proof.
  assert (INT_MIN ≤ -1 ≤ INT_MAX) as Hidx by (unfold INT_MIN, INT_MAX; lia).
  assert (∀ r, Some (mkHandTrackingResult [example_hand] (s0 : binary32)) = Some r →
            Z.of_nat (length (hands r)) ≤ INT_MAX) as Hsize.
  { intros r [= <-]. unfold INT_MAX. simpl. lia. }
  exact (proj1 (recognize_gesture_guards (FO:=example_float_ops) (DO:=example_double_ops)
                  _ (-1) Hidx Hsize)).
Defined.

(** The hand with five straight fingers is recognised as [FIVE_FINGERS]. *)
Lemma recognize_gesture_counts_fingers_witness :
  let result := mkHandTrackingResult [example_hand] (s0 : binary32) in
  recognize_gesture (FO:=example_float_ops) (DO:=example_double_ops) (Some result) 0
  = Some FIVE_FINGERS
  ∧ GestureType_value FIVE_FINGERS
    = count_true (hand_extended_fingers (FO:=example_float_ops) (DO:=example_double_ops)
                    example_hand).
Proof.
  intros result.
  assert (recognize_gesture (FO:=example_float_ops) (DO:=example_double_ops)
            (Some result) 0 = Some FIVE_FINGERS) as Hg by (vm_compute; reflexivity).
  destruct (recognize_gesture_counts_fingers (FO:=example_float_ops)
              (DO:=example_double_ops) result 0 example_hand FIVE_FINGERS
              ltac:(unfold INT_MAX; lia) eq_refl Hg) as (Hcount & _).
  split; [exact Hg|]. apply Hcount. simpl. lia.
Defined.

(** The first call on the initial globals, and a second call. *)
Lemma initialize_hand_tracker_spec_witness :
  let t' := (initialize_hand_tracker (FO:=example_float_ops) tracker_init).1 in
  g_initialized t' = true
  ∧ initialize_hand_tracker (FO:=example_float_ops) t' = (t', 1).
Proof.
  intros t'.
  assert (tracker_ok (tracker_init (F:=binary32))) as Hok by (intros H; discriminate H).
  destruct (initialize_hand_tracker_spec (FO:=example_float_ops) tracker_init Hok)
    as (_ & Hinit & _ & Hidem & _).
  split; [exact Hinit|exact Hidem].
Defined.

Lemma example_image_ok : image_ok example_image 100 10.
Proof. intros _ _. vm_compute. discriminate. Qed.

Lemma example_image_in_int_range : image_in_int_range 100 10.
Proof. unfold image_in_int_range, INT_MIN, INT_MAX. lia. Qed.

(** The first detection on the image of one skin colour. *)
Lemma detect_hand_landmarks_spec_witness :
  ∃ t' result skin_pixels center_x center_y,
    detect_hand_landmarks (FO:=example_float_ops) (DO:=example_double_ops)
      tracker_init example_image 100 10 = Some (t', result)
    ∧ sample_image (FO:=example_float_ops) example_image 100 10
      = Some (skin_pixels, center_x, center_y)
    ∧ g_initialized t' = true
    ∧ (10 ≤ skin_pixels →
         ∃ pts, hands result = [mkHandLandmark pts UNKNOWN]
                ∧ length pts = Z.to_nat NUM_LANDMARKS).
Proof.
  assert (tracker_ok (tracker_init (F:=binary32))) as Hok by (intros H; discriminate H).
  destruct (detect_hand_landmarks_spec (FO:=example_float_ops) (DO:=example_double_ops)
              tracker_init example_image 100 10 Hok example_image_ok
              example_image_in_int_range)
    as (t' & result & n & cx & cy & E1 & E2 & Hi & _ & _ & _ & Hge).
  exists t', result, n, cx, cy. split; [exact E1|]. split; [exact E2|].
  split; [exact Hi|exact Hge].
Defined.


(** ** The matrix operators, entry by entry *)

Section MatrixEntries.
Context {D : Type} {SD : Scalar D}.

(** X20. On operands of matching shapes the operators compute what their
    loops say: entry (i, j) of [a * b] is the sum over [k] of
    [a(i, k) * b(k, j)], accumulated from [0.0] in the order of [k], and
    the entries of [a + a'] and [a - a'] are the sum and the difference of
    the operands' entries. *)
Theorem matrix_operators_compute_entries (r n c : Z) (a b a' : Matrix D) (i j : Z) :
  matrix_ok r n a → matrix_ok n c b → matrix_ok r n a' →
  0 ≤ i < r →
  (0 ≤ j < c →
     Matrix_at (Matrix_mul a b) i j
     = sum_upto n (λ k, (Matrix_at a i k * Matrix_at b k j)%S))
  ∧ (0 ≤ j < n →
       Matrix_at (Matrix_add a a') i j = (Matrix_at a i j + Matrix_at a' i j)%S
       ∧ Matrix_at (Matrix_sub a a') i j = (Matrix_at a i j - Matrix_at a' i j)%S).
Proof.
  intros Ha Hb Ha' Hi. split.
  - intros Hj. destruct (Matrix_mul_shape r n c a b Ha Hb) as [_ E]. by apply E.
  - intros Hj.
    destruct (Matrix_add_shape r n a a' Ha Ha') as [_ Eadd].
    destruct (Matrix_sub_shape r n a a' Ha Ha') as [_ Esub].
    split; [by apply Eadd|by apply Esub].
Qed.

End MatrixEntries.

(** A 2 × 2 matrix times a 2 × 1 matrix, and two 2 × 2 matrices, in
    binary64. *)
Lemma matrix_operators_compute_entries_witness :
  let a := mkMatrix 2 2 [1; 2; 3; 4]%float in
  let b := mkMatrix 2 1 [5; 6]%float in
  let a' := mkMatrix 2 2 [4; 3; 2; 1]%float in
  Matrix_at (Matrix_mul a b) 1 0
  = sum_upto 2 (λ k, (Matrix_at a 1 k * Matrix_at b k 0)%S)
  ∧ Matrix_at (Matrix_add a a') 1 0 = (Matrix_at a 1 0 + Matrix_at a' 1 0)%S
  ∧ Matrix_at (Matrix_sub a a') 1 0 = (Matrix_at a 1 0 - Matrix_at a' 1 0)%S.
Proof.
  intros a b a'.
  destruct (matrix_operators_compute_entries 2 2 1 a b a' 1 0
              ltac:(done) ltac:(done) ltac:(done) ltac:(lia)) as [Hmul Hadd].
  split; [exact (Hmul ltac:(lia))|exact (Hadd ltac:(lia))].
Defined.

(** ** The output buffer across calls *)

Section BufferFacts.
Context {D : Type} {SD : Scalar D}.

(** X21. After any sequence of [update] calls on a filter constructed with
    [dimensions > 0], with measurements of any values and of right or wrong
    counts, the filter still satisfies its class invariant, its dimension
    is the constructor's, and the buffer the calls return holds
    [dimensions] values, the entries of the state vector. *)
Theorem output_buffer_mirrors_state (n : Z) (pn mn : D) (calls : list (list D * Z)) :
  0 < n →
  let f := run_updates (KalmanFilter_new n pn mn) calls in
  filter_ok f ∧ dimensions_ f = n ∧ buffer_mirrors_state f.
Proof.
  intros Hn. cbv zeta.
  induction calls as [|c calls IH] using rev_ind.
  - unfold buffer_mirrors_state. simpl.
    split; [by apply KalmanFilter_new_ok|]. split; [done|].
    split; [by rewrite length_replicate|].
    intros i Hi. rewrite Matrix_at_new. apply lookup_replicate. split; [done|lia].
  - destruct IH as (Hok & Hd & Hbuf). rewrite run_updates_snoc.
    set (f := run_updates (KalmanFilter_new n pn mn) calls) in *.
    destruct (decide (c.2 = dimensions_ f)) as [Hc|Hc].
    + rewrite Hc. destruct (update_preserves_ok f c.1 Hok)
        as (Hok' & Hd' & _ & _ & _ & _ & _ & Hmirror).
      split; [done|]. split; [congruence|]. split.
      * destruct Hok' as (_ & _ & _ & _ & _ & _ & _ & Hl). done.
      * rewrite Hd'. done.
    + rewrite update_mismatch by done. simpl. done.
Qed.

End BufferFacts.

(** Three calls on a filter of two dimensions, the second with a wrong
    count. *)
Lemma output_buffer_mirrors_state_witness :
  let f := run_updates (KalmanFilter_new 2 double_0_001 double_0_1)
             [([1; 2]%float, 2); ([3]%float, 1); ([2; 1]%float, 2)] in
  filter_ok f ∧ dimensions_ f = 2 ∧ buffer_mirrors_state f.
Proof.
  exact (output_buffer_mirrors_state 2 double_0_001 double_0_1
           [([1; 2]%float, 2); ([3]%float, 1); ([2; 1]%float, 2)] ltac:(lia)).
Defined.

(** ** Runs of the tracker from the initial globals *)

Section TrackerRunFacts.
Context {F D : Type} {FO : FloatOps F} {SD : Scalar D} {DO : DoubleOps F D}.

Lemma tracker_run_snoc (t : Tracker F) (calls : list TrackerCall) (c : TrackerCall) :
  tracker_run t (calls ++ [c])
  = '(t, results) ← tracker_run t calls;
    match c with
    | CallInitialize => Some ((initialize_hand_tracker t).1, results)
    | CallDetect imageData width height =>
        '(t, result) ← detect_hand_landmarks t imageData width height;
        Some (t, results ++ [result])
    end.
Proof. unfold tracker_run. by rewrite foldl_snoc. Qed.

Lemma run_invariant_tracker_ok (t : Tracker F) results :
  run_invariant t results → tracker_ok t.
Proof. intros (_ & Hinit & _) Hi. by apply Hinit. Qed.

(** [initialize_hand_tracker] in a state of a run. *)
Lemma run_invariant_initialize (t : Tracker F) results :
  run_invariant t results →
  g_initialized (initialize_hand_tracker t).1 = true
  ∧ run_invariant (initialize_hand_tracker t).1 results.
Proof.
  intros Hinv. pose proof (run_invariant_tracker_ok t results Hinv) as Hok.
  destruct (initialize_hand_tracker_ok t Hok) as (_ & Hi & Hfs & Hsame).
  split; [done|].
  destruct Hinv as (Hfresh & Hinit & Hres).
  split; [by rewrite Hi|]. split; [|done]. intros _. split; [done|].
  destruct (g_initialized t) eqn:E.
  - rewrite Hsame by done. by apply Hinit.
  - rewrite (Hfresh eq_refl). reflexivity.
Qed.

(** [detect_hand_landmarks] in a state of a run. *)
Lemma run_invariant_detect (t : Tracker F) results (imageData : list Z) (width height : Z) :
  run_invariant t results → image_ok imageData width height →
  ∃ t' result,
    detect_hand_landmarks t imageData width height = Some (t', result)
    ∧ g_initialized t' = true
    ∧ run_invariant t' (results ++ [result]).
Proof.
  intros Hinv Himg.
  pose proof (run_invariant_tracker_ok t results Hinv) as Hok.
  destruct (run_invariant_initialize t results Hinv) as (_ & _ & Hinit0 & _).
  destruct (detect_hand_landmarks_ok t imageData width height Hok Himg)
    as (t' & result & n & cx & cy & E & _ & Hi & (Hi' & Hfs & Hrow) & Hlt & Hge).
  exists t', result. split; [done|]. split; [done|].
  destruct (initialize_hand_tracker_ok t Hok) as (_ & Hi0 & _).
  split; [by rewrite Hi|]. split.
  - intros _. split; [done|]. rewrite Hrow. by apply Hinit0.
  - destruct Hinv as (_ & _ & Hres). apply Forall_app. split; [done|].
    apply Forall_singleton. destruct (decide (n < 10)) as [Hn|Hn].
    + left. by destruct (Hlt Hn) as [_ ->].
    + right. apply Hge. lia.
Qed.

(** X22. From the initial globals, any sequence of
    [initialize_hand_tracker] and [detect_hand_landmarks] calls whose images
    fit their buffers, with dimensions whose [int] computations do not
    overflow, runs without an access outside a vector, whatever the
    floating-point operations compute.  It returns one result per detection,
    each with no hand or with one hand of 21 points whose gesture is
    [UNKNOWN]; after the first call the globals are initialised, the
    filters keep their sizes, and the filters of the second hand are never
    used. *)
Theorem tracker_runs_are_safe (calls : list TrackerCall) :
  images_ok calls →
  ∃ t results,
    tracker_run tracker_init calls = Some (t, results)
    ∧ run_invariant t results
    ∧ length results = length (detect_calls calls)
    ∧ (calls ≠ [] → g_initialized t = true).
Proof.
  induction calls as [|c calls IH] using rev_ind; intros Himg.
  { exists tracker_init, []. split; [done|]. split; [|done].
    split; [done|]. split; [intros H; discriminate H|constructor]. }
  unfold images_ok in Himg.
  destruct (proj1 (Forall_app _ _ _) Himg) as [Himg' Hc].
  pose proof (proj1 (Forall_singleton _ _) Hc) as Hc'. simpl in Hc'.
  destruct (IH Himg') as (t & results & Hrun & Hinv & Hlen & _).
  rewrite tracker_run_snoc, Hrun. simpl.
  unfold detect_calls. rewrite omap_app, length_app. fold (detect_calls calls).
  destruct c as [|imageData width height]; simpl.
  - destruct (run_invariant_initialize t results Hinv) as [Hi Hinv'].
    eexists _, _. split; [done|]. split; [done|]. split; [lia|done].
  - destruct Hc' as [Hc' _].
    destruct (run_invariant_detect t results imageData width height Hinv Hc')
      as (t' & result & -> & Hi & Hinv'). simpl.
    eexists _, _. split; [done|]. split; [done|].
    split; [rewrite length_app; simpl; lia|done].
Qed.

End TrackerRunFacts.

(** Two detections on the image of one skin colour around an explicit
    initialisation. *)
Lemma tracker_runs_are_safe_witness :
  let calls := [CallDetect example_image 100 10; CallInitialize;
                CallDetect example_image 100 10] in
  ∃ t results,
    tracker_run (FO:=example_float_ops) (DO:=example_double_ops) tracker_init calls
    = Some (t, results)
    ∧ run_invariant (FO:=example_float_ops) t results
    ∧ length results = length (detect_calls calls)
    ∧ (calls ≠ [] → g_initialized t = true).
Proof.
  intros calls.
  apply (tracker_runs_are_safe (FO:=example_float_ops) (DO:=example_double_ops) calls).
  repeat (apply Forall_cons; split;
            [first [exact I|exact (conj example_image_ok example_image_in_int_range)]|]).
  constructor.
Defined.
